(** * pecs-go: a sparse-set entity component system

  Shallow embedding of the [ecs] package (entity identity and recycling,
  the sparse set, component pools, the component registry, the world
  facade, the query engine with its one-component iterator, and the system
  manager), followed by the properties of the specification that were
  checked against it and by further properties of the code.

  Conventions of the embedding:
  - Go integers are [Z]; conversions between widths ([uint32], [int32])
    are written out with their wrap-around.
  - Go slices are lists.  Reading or writing a slice outside its length is
    a run-time panic in Go; every operation that indexes a slice therefore
    lives in the [option] monad and [None] stands for such a panic.
    Capacity is not modelled: re-slicing beyond the length counts as a
    panic too.
  - Go maps are [gmap]s; where the source ranges over a map, the order is
    left to a parameter.
  - [reflect.Type] keys are the qualified type names (strings) of concrete
    component types.  (For an interface type [reflect.TypeOf] of the zero
    value is nil and [NewTypedStorage] faults on it; such type arguments are
    left out.)
  - Pools are held by pointer in Go; here an operation returns the structure
    it has changed, and the facade writes a changed pool back into the
    registry.
  - The system manager takes no part in the storage operations and is left
    out of the world; it is modelled on its own, with what a system's
    [Update] does to the world left to a function.
  - Callbacks ([less], the functions handed to [ForEach]) are functions of
    what they are given: a callback that reaches the structure it is
    called from by another way is not covered. *)

From stdpp Require Import list list_numbers gmap strings.

Local Open Scope Z_scope.

(** ** Go primitives *)

Module Go.

Definition uint32 (z : Z) : Z := z mod 2 ^ 32.
Definition int32 (z : Z) : Z := (z + 2 ^ 31) mod 2 ^ 32 - 2 ^ 31.

(** Largest [int] of a 64-bit platform: [int(^uint(0) >> 1)]. *)
Definition MaxInt : Z := 2 ^ 63 - 1.

Definition len {A} (l : list A) : Z := Z.of_nat (length l).

(** [l[i]] as an r-value. *)
Definition index {A} (l : list A) (i : Z) : option A :=
  if bool_decide (0 ≤ i) then l !! Z.to_nat i else None.

(** [l[i] = x]. *)
Definition store {A} (l : list A) (i : Z) (x : A) : option (list A) :=
  if bool_decide (0 ≤ i < len l) then Some (<[Z.to_nat i := x]> l) else None.

(** [l[:n]]. *)
Definition slice_to {A} (l : list A) (n : Z) : option (list A) :=
  if bool_decide (0 ≤ n ≤ len l) then Some (take (Z.to_nat n) l) else None.

(** A [for] loop over the items of [l] that threads a state and stops at
    the first panic. *)
Fixpoint for_each {S A} (body : S → A → option S) (l : list A) (s : S) : option S :=
  match l with
  | [] => Some s
  | x :: l' => s' ← body s x; for_each body l' s'
  end.

End Go.

(** ** Entity handles (entity.go) *)

Module Entity.

Definition EntityIndexBits : Z := 20.
Definition EntityGenerationBits : Z := 12.
Definition EntityIndexMask : Z := Z.shiftl 1 EntityIndexBits - 1.
Definition EntityGenerationMask : Z := Z.shiftl 1 EntityGenerationBits - 1.
Definition NullEntity : Z := 4294967295.

(** An [Entity] is a [uint32]; the conversion [uint32(e)] of the source
    changes nothing. *)
Definition Index (e : Z) : Z := Z.land e EntityIndexMask.

Definition Generation (e : Z) : Z :=
  Z.land (Z.shiftr e EntityIndexBits) EntityGenerationMask.

Definition IsValid (e : Z) : bool := negb (bool_decide (e = NullEntity)).

Definition makeEntity (index generation : Z) : Z :=
  Z.lor (Z.shiftl (Z.land generation EntityGenerationMask) EntityIndexBits)
        (Z.land index EntityIndexMask).

End Entity.

(** ** Entity manager (entity.go) *)

Module EntityManager.

Record t := mk {
  entities : list Z;   (* generation per index, or free-list link *)
  freeHead : Z         (* first free index, or -1 *)
}.

Definition NewEntityManager : t := mk [] (-1).

Definition Create (em : t) : option (Z * t) :=
  if bool_decide (0 ≤ freeHead em) then
    let index := Go.uint32 (freeHead em) in
    stored ← Go.index (entities em) index;
    let '(head, generation) :=
      if bool_decide (stored = Go.uint32 (freeHead em))
      then (-1, 0)
      else (Go.int32 stored, 0) in
    ents ← Go.store (entities em) index generation;
    Some (Entity.makeEntity index generation, mk ents head)
  else
    let index := Go.uint32 (Go.len (entities em)) in
    let generation := 0 in
    Some (Entity.makeEntity index generation,
          mk (entities em ++ [generation]) (freeHead em)).

Definition Destroy (em : t) (entity : Z) : option (bool * t) :=
  if negb (Entity.IsValid entity) then Some (false, em) else
  let index := Entity.Index entity in
  if bool_decide (Go.uint32 (Go.len (entities em)) ≤ index) then Some (false, em) else
  currentGen ← Go.index (entities em) index;
  let expectedGen := Entity.Generation entity in
  if negb (bool_decide (currentGen = expectedGen)) then Some (false, em) else
  ents ← (if bool_decide (0 ≤ freeHead em)
          then Go.store (entities em) index (Go.uint32 (freeHead em))
          else Go.store (entities em) index index);
  Some (true, mk ents (Go.int32 index)).

Definition IsValid (em : t) (entity : Z) : option bool :=
  if negb (Entity.IsValid entity) then Some false else
  let index := Entity.Index entity in
  if bool_decide (Go.uint32 (Go.len (entities em)) ≤ index) then Some false else
  stored ← Go.index (entities em) index;
  Some (bool_decide (stored = Entity.Generation entity)).

Definition Size (em : t) : Z := Go.len (entities em).

Definition Clear (em : t) : t := mk [] (-1).

End EntityManager.

(** ** Sparse set (sparse_set.go) *)

Module SparseSet.

Record t := mk {
  sparse : list Z;   (* entity index -> dense index, -1 when absent *)
  dense : list Z;    (* packed entities *)
  size : Z           (* number of live elements *)
}.

Definition NewSparseSet : t := mk [] [] 0.

Definition ensureCapacity (ss : t) (entityIndex : Z) : t :=
  let needed := entityIndex + 1 in
  if bool_decide (Go.len (sparse ss) < needed) then
    let oldLen := Go.len (sparse ss) in
    mk (sparse ss ++ replicate (Z.to_nat (needed - oldLen)) (-1)) (dense ss) (size ss)
  else ss.

Definition Contains (ss : t) (entity : Z) : option bool :=
  if negb (Entity.IsValid entity) then Some false else
  let entityIndex := Entity.Index entity in
  if bool_decide (Go.len (sparse ss) ≤ entityIndex) then Some false else
  denseIndex ← Go.index (sparse ss) entityIndex;
  if bool_decide (0 ≤ denseIndex) && bool_decide (denseIndex < size ss) then
    d ← Go.index (dense ss) denseIndex;
    Some (bool_decide (d = entity))
  else Some false.

Definition Insert (ss : t) (entity : Z) : option (bool * t) :=
  if negb (Entity.IsValid entity) then Some (false, ss) else
  let entityIndex := Entity.Index entity in
  let ss := ensureCapacity ss entityIndex in
  present ← Contains ss entity;
  if (present : bool) then Some (false, ss) else
  sp ← Go.store (sparse ss) entityIndex (Go.int32 (size ss));
  dn ← (if bool_decide (Go.len (dense ss) ≤ size ss)
        then Some (dense ss ++ [entity])
        else Go.store (dense ss) (size ss) entity);
  Some (true, mk sp dn (size ss + 1)).

Definition Remove (ss : t) (entity : Z) : option (bool * t) :=
  present ← Contains ss entity;
  if negb present then Some (false, ss) else
  let entityIndex := Entity.Index entity in
  denseIndex ← Go.index (sparse ss) entityIndex;
  let lastIndex := Go.int32 (size ss - 1) in
  '(dn, sp) ← (if negb (bool_decide (denseIndex = lastIndex)) then
                 lastEntity ← Go.index (dense ss) lastIndex;
                 dn ← Go.store (dense ss) denseIndex lastEntity;
                 sp ← Go.store (sparse ss) (Entity.Index lastEntity) denseIndex;
                 Some (dn, sp)
               else Some (dense ss, sparse ss));
  sp' ← Go.store sp entityIndex (-1);
  Some (true, mk sp' dn (size ss - 1)).

Definition Size (ss : t) : Z := size ss.

Definition Empty (ss : t) : bool := bool_decide (size ss = 0).

Definition Clear (ss : t) : t :=
  mk ((λ _, -1) <$> sparse ss) (dense ss) 0.

Definition Data (ss : t) : option (list Z) := Go.slice_to (dense ss) (size ss).

Definition At (ss : t) (index : Z) : option Z :=
  if bool_decide (index < 0) || bool_decide (size ss ≤ index)
  then Some Entity.NullEntity
  else Go.index (dense ss) index.

Definition Index (ss : t) (entity : Z) : option Z :=
  present ← Contains ss entity;
  if negb present then Some (-1) else Go.index (sparse ss) (Entity.Index entity).

Definition Swap (ss : t) (i j : Z) : option t :=
  if bool_decide (i < 0) || bool_decide (size ss ≤ i)
     || bool_decide (j < 0) || bool_decide (size ss ≤ j)
  then Some ss else
  entityI ← Go.index (dense ss) i;
  entityJ ← Go.index (dense ss) j;
  dn ← Go.store (dense ss) i entityJ;
  dn ← Go.store dn j entityI;
  sp ← Go.store (sparse ss) (Entity.Index entityI) (Go.int32 j);
  sp ← Go.store sp (Entity.Index entityJ) (Go.int32 i);
  Some (mk sp dn (size ss)).

(** One comparison of the bubble sort's inner loop.  [less] is a Go closure:
  it may read the set it sorts (the one [ComponentPool.Sort] passes does),
  so it is given the current set. *)
Definition sort_step (less : t → Z → Z → bool) (ss : t) (j : Z) : option t :=
  a ← Go.index (dense ss) (j + 1);
  b ← Go.index (dense ss) j;
  if less ss a b then Swap ss j (j + 1) else Some ss.

(** The loop bounds read [ss.size], which [Swap] never changes. *)
Definition Sort (ss : t) (less : t → Z → Z → bool) : option t :=
  Go.for_each
    (λ ss i, Go.for_each (sort_step less) (seqZ 0 (size ss - i - 1)) ss)
    (seqZ 0 (size ss - 1)) ss.

(** First loop of [Respect]: the entities of [other], in its order, that
  [ss] contains. *)
Definition respect_present (ss other : t) : option (list Z) :=
  Go.for_each
    (λ newDense i,
       entity ← Go.index (dense other) i;
       present ← Contains ss entity;
       Some (if (present : bool) then newDense ++ [entity] else newDense))
    (seqZ 0 (size other)) [].

(** Second loop of [Respect]: the entities of [ss] not yet in [newDense]. *)
Definition respect_rest (ss : t) (newDense : list Z) : option (list Z) :=
  Go.for_each
    (λ newDense i,
       entity ← Go.index (dense ss) i;
       let found := existsb (λ x, bool_decide (x = entity)) newDense in
       Some (if negb found then newDense ++ [entity] else newDense))
    (seqZ 0 (size ss)) newDense.

(** Last loop of [Respect]: [sparse[entity.Index()] = int32(i)]. *)
Definition respect_reindex (sp : list Z) (newDense : list Z) : option (list Z) :=
  Go.for_each
    (λ sp '(i, entity), Go.store sp (Entity.Index entity) (Go.int32 (Z.of_nat i)))
    (imap (λ i entity, (i, entity)) newDense) sp.

Definition Respect (ss other : t) : option t :=
  if bool_decide (size other = 0) then Some ss else
  newDense ← respect_present ss other;
  newDense ← respect_rest ss newDense;
  (* copy(ss.dense[:len(newDense)], newDense) *)
  _ ← Go.slice_to (dense ss) (Go.len newDense);
  let dn := newDense ++ drop (length newDense) (dense ss) in
  sp ← respect_reindex (sparse ss) newDense;
  Some (mk sp dn (size ss)).

End SparseSet.

(** ** Component pools and the registry (component_storage.go) *)

Module ComponentPool.

Record t (T : Type) := mk {
  entities : SparseSet.t;   (* which entities have the component *)
  components : list T       (* values, aligned with the dense array *)
}.
Arguments mk {T} _ _.
Arguments entities {T} _.
Arguments components {T} _.

Section Ops.
Context {T : Type}.

Definition NewComponentPool : t T := mk SparseSet.NewSparseSet [].

Definition Insert (cp : t T) (entity : Z) (component : T) : option (t T) :=
  present ← SparseSet.Contains (entities cp) entity;
  if (present : bool) then
    index ← SparseSet.Index (entities cp) entity;
    comps ← Go.store (components cp) index component;
    Some (mk (entities cp) comps)
  else
    '(inserted, es) ← SparseSet.Insert (entities cp) entity;
    if (inserted : bool) then
      if bool_decide (Go.len (components cp) ≤ SparseSet.Size es - 1) then
        Some (mk es (components cp ++ [component]))
      else
        comps ← Go.store (components cp) (SparseSet.Size es - 1) component;
        Some (mk es comps)
    else Some (mk es (components cp)).

Definition Remove (cp : t T) (entity : Z) : option (bool * t T) :=
  present ← SparseSet.Contains (entities cp) entity;
  if negb present then Some (false, cp) else
  index ← SparseSet.Index (entities cp) entity;
  let lastIndex := SparseSet.Size (entities cp) - 1 in
  comps ← (if negb (bool_decide (index = lastIndex)) then
             v ← Go.index (components cp) lastIndex;
             Go.store (components cp) index v
           else Some (components cp));
  '(removed, es) ← SparseSet.Remove (entities cp) entity;
  Some (removed, mk es comps).

(** [(T, bool)]: the inner [None] is the pair of the zero value and
    [false]. *)
Definition Get (cp : t T) (entity : Z) : option (option T) :=
  present ← SparseSet.Contains (entities cp) entity;
  if negb present then Some None else
  index ← SparseSet.Index (entities cp) entity;
  v ← Go.index (components cp) index;
  Some (Some v).

Definition Contains (cp : t T) (entity : Z) : option bool :=
  SparseSet.Contains (entities cp) entity.

Definition Size (cp : t T) : Z := SparseSet.Size (entities cp).

Definition Empty (cp : t T) : bool := SparseSet.Empty (entities cp).

Definition Clear (cp : t T) : t T := mk (SparseSet.Clear (entities cp)) [].

Definition Entities (cp : t T) : SparseSet.t := entities cp.

Definition Data (cp : t T) : option (list T) :=
  Go.slice_to (components cp) (SparseSet.Size (entities cp)).

End Ops.

End ComponentPool.

(** [TypedStorage[T]] behind [IComponentStorage].  All pools of a registry
  are kept over one type [Val] of component values; [elem] records the
  type parameter [T], which is what the type assertion of [GetStorage]
  inspects. *)
Module TypedStorage.

Record t (Val : Type) := mk {
  elem : string;
  pool : ComponentPool.t Val;
  typeName : string
}.
Arguments mk {Val} _ _ _.
Arguments elem {Val} _.
Arguments pool {Val} _.
Arguments typeName {Val} _.

Section Ops.
Context {Val : Type}.

Definition NewTypedStorage (T : string) : t Val :=
  mk T ComponentPool.NewComponentPool T.

Definition Pool (ts : t Val) : ComponentPool.t Val := pool ts.

Definition Remove (ts : t Val) (entity : Z) : option (bool * t Val) :=
  '(removed, p) ← ComponentPool.Remove (pool ts) entity;
  Some (removed, mk (elem ts) p (typeName ts)).

Definition Contains (ts : t Val) (entity : Z) : option bool :=
  ComponentPool.Contains (pool ts) entity.

Definition Size (ts : t Val) : Z := ComponentPool.Size (pool ts).

Definition Clear (ts : t Val) : t Val :=
  mk (elem ts) (ComponentPool.Clear (pool ts)) (typeName ts).

Definition Entities (ts : t Val) : SparseSet.t := ComponentPool.Entities (pool ts).

Definition TypeName (ts : t Val) : string := typeName ts.

End Ops.

End TypedStorage.

Module ComponentRegistry.

Record t (Val : Type) := mk {
  nextID : Z;
  typeToID : gmap string Z;
  idToType : gmap Z string;
  storages : gmap Z (TypedStorage.t Val);
  names : gmap Z string
}.
Arguments mk {Val} _ _ _ _ _.
Arguments nextID {Val} _.
Arguments typeToID {Val} _.
Arguments idToType {Val} _.
Arguments storages {Val} _.
Arguments names {Val} _.

Section Ops.
Context {Val : Type}.

Definition NewComponentRegistry : t Val := mk 0 ∅ ∅ ∅ ∅.

Definition Register (T : string) (cr : t Val) : Z * t Val :=
  match typeToID cr !! T with
  | Some id => (id, cr)
  | None =>
      let id := nextID cr in
      let storage := TypedStorage.NewTypedStorage T in
      (id, mk (Go.uint32 (nextID cr + 1))
              (<[T := id]> (typeToID cr))
              (<[id := T]> (idToType cr))
              (<[id := storage]> (storages cr))
              (<[id := T]> (names cr)))
  end.

Definition GetComponentID (T : string) (cr : t Val) : option Z := typeToID cr !! T.

(** The result is the pool with the ID it is stored under; [None] is the
    pair [(nil, false)]. *)
Definition GetStorage (T : string) (cr : t Val) : option (Z * ComponentPool.t Val) :=
  id ← GetComponentID T cr;
  storage ← storages cr !! id;
  if bool_decide (TypedStorage.elem storage = T)
  then Some (id, TypedStorage.Pool storage)
  else None.

Definition GetStorageByID (cr : t Val) (id : Z) : option (TypedStorage.t Val) :=
  storages cr !! id.

(** The pools are held by pointer: what a caller does to the pool it got
    from [GetStorage] is seen through the registry. *)
Definition write_pool (cr : t Val) (id : Z) (p : ComponentPool.t Val) : t Val :=
  mk (nextID cr) (typeToID cr) (idToType cr)
     (alter (λ ts, TypedStorage.mk (TypedStorage.elem ts) p (TypedStorage.typeName ts))
            id (storages cr))
     (names cr).

(** [storage.Remove(entity)] on every pool.  Each round touches its own
    pool only, so the order in which the map is ranged over is
    immaterial; the call panics when one of the rounds does. *)
Definition RemoveAllComponents (cr : t Val) (entity : Z) : option (t Val) :=
  let results := (λ ts, TypedStorage.Remove ts entity) <$> storages cr in
  if bool_decide (map_Forall (λ _ r, is_Some r) results)
  then Some (mk (nextID cr) (typeToID cr) (idToType cr)
                (omap (fmap snd) results) (names cr))
  else None.

Definition GetComponentName (cr : t Val) (id : Z) : string :=
  default "Unknown"%string (names cr !! id).

End Ops.

End ComponentRegistry.

(** ** The world facade (world.go) *)

Module World.

(** The system manager takes no part in the storage operations and is
    left out. *)
Record t (Val : Type) := mk {
  entityManager : EntityManager.t;
  componentRegistry : ComponentRegistry.t Val
}.
Arguments mk {Val} _ _.
Arguments entityManager {Val} _.
Arguments componentRegistry {Val} _.

Section Ops.
Context {Val : Type}.

Definition NewWorld : t Val :=
  mk EntityManager.NewEntityManager ComponentRegistry.NewComponentRegistry.

Definition CreateEntity (w : t Val) : option (Z * t Val) :=
  '(e, em) ← EntityManager.Create (entityManager w);
  Some (e, mk em (componentRegistry w)).

Definition DestroyEntity (w : t Val) (entity : Z) : option (bool * t Val) :=
  valid ← EntityManager.IsValid (entityManager w) entity;
  if negb valid then Some (false, w) else
  cr ← ComponentRegistry.RemoveAllComponents (componentRegistry w) entity;
  '(destroyed, em) ← EntityManager.Destroy (entityManager w) entity;
  Some (destroyed, mk em cr).

Definition IsValidEntity (w : t Val) (entity : Z) : option bool :=
  EntityManager.IsValid (entityManager w) entity.

Definition AddComponent (T : string) (w : t Val) (entity : Z) (component : Val)
  : option (t Val) :=
  valid ← EntityManager.IsValid (entityManager w) entity;
  if negb valid then Some w else
  let '(_, cr) := ComponentRegistry.Register T (componentRegistry w) in
  match ComponentRegistry.GetStorage T cr with
  | Some (id, storage) =>
      storage' ← ComponentPool.Insert storage entity component;
      Some (mk (entityManager w) (ComponentRegistry.write_pool cr id storage'))
  | None => Some (mk (entityManager w) cr)
  end.

Definition RemoveComponent (T : string) (w : t Val) (entity : Z)
  : option (bool * t Val) :=
  valid ← EntityManager.IsValid (entityManager w) entity;
  if negb valid then Some (false, w) else
  match ComponentRegistry.GetStorage T (componentRegistry w) with
  | Some (id, storage) =>
      '(removed, storage') ← ComponentPool.Remove storage entity;
      Some (removed,
            mk (entityManager w)
               (ComponentRegistry.write_pool (componentRegistry w) id storage'))
  | None => Some (false, w)
  end.

Definition GetComponent (T : string) (w : t Val) (entity : Z) : option (option Val) :=
  valid ← EntityManager.IsValid (entityManager w) entity;
  if negb valid then Some None else
  match ComponentRegistry.GetStorage T (componentRegistry w) with
  | Some (_, storage) => ComponentPool.Get storage entity
  | None => Some None
  end.

Definition HasComponent (T : string) (w : t Val) (entity : Z) : option bool :=
  valid ← EntityManager.IsValid (entityManager w) entity;
  if negb valid then Some false else
  match ComponentRegistry.GetStorage T (componentRegistry w) with
  | Some (_, storage) => ComponentPool.Contains storage entity
  | None => Some false
  end.

End Ops.

End World.

(** ** Queries (query.go) *)

Module Query.

(** The query's [world] pointer is passed to the operations that read it. *)
Record t := mk {
  include : list Z;
  exclude : list Z;
  includeAny : list Z;
  excludeAny : list Z
}.

Definition NewQuery : t := mk [] [] [] [].

Section Ops.
Context {Val : Type}.

(** [Register] may add a pool to the world the query points to. *)
Definition With (T : string) (wq : World.t Val * t) : World.t Val * t :=
  let '(w, q) := wq in
  let '(id, cr) := ComponentRegistry.Register T (World.componentRegistry w) in
  (World.mk (World.entityManager w) cr,
   mk (include q ++ [id]) (exclude q) (includeAny q) (excludeAny q)).

Definition Without (T : string) (wq : World.t Val * t) : World.t Val * t :=
  let '(w, q) := wq in
  let '(id, cr) := ComponentRegistry.Register T (World.componentRegistry w) in
  (World.mk (World.entityManager w) cr,
   mk (include q) (exclude q ++ [id]) (includeAny q) (excludeAny q)).

Definition WithAny (T : string) (wq : World.t Val * t) : World.t Val * t :=
  let '(w, q) := wq in
  let '(id, cr) := ComponentRegistry.Register T (World.componentRegistry w) in
  (World.mk (World.entityManager w) cr,
   mk (include q) (exclude q) (includeAny q ++ [id]) (excludeAny q)).

Definition WithoutAny (T : string) (wq : World.t Val * t) : World.t Val * t :=
  let '(w, q) := wq in
  let '(id, cr) := ComponentRegistry.Register T (World.componentRegistry w) in
  (World.mk (World.entityManager w) cr,
   mk (include q) (exclude q) (includeAny q) (excludeAny q ++ [id])).

(** The four loops of [matchesEntity].  [has_all] returns at the first
    pool that lacks the entity or is not registered; [has_none] at the
    first registered pool that holds it; [has_any] breaks at the first
    registered pool that holds it. *)
Fixpoint has_all (cr : ComponentRegistry.t Val) (entity : Z) (ids : list Z)
  : option bool :=
  match ids with
  | [] => Some true
  | id :: ids' =>
      match ComponentRegistry.GetStorageByID cr id with
      | Some storage =>
          present ← TypedStorage.Contains storage entity;
          if negb present then Some false else has_all cr entity ids'
      | None => Some false
      end
  end.

Fixpoint has_none (cr : ComponentRegistry.t Val) (entity : Z) (ids : list Z)
  : option bool :=
  match ids with
  | [] => Some true
  | id :: ids' =>
      match ComponentRegistry.GetStorageByID cr id with
      | Some storage =>
          present ← TypedStorage.Contains storage entity;
          if (present : bool) then Some false else has_none cr entity ids'
      | None => has_none cr entity ids'
      end
  end.

Fixpoint has_any (cr : ComponentRegistry.t Val) (entity : Z) (ids : list Z)
  : option bool :=
  match ids with
  | [] => Some false
  | id :: ids' =>
      match ComponentRegistry.GetStorageByID cr id with
      | Some storage =>
          present ← TypedStorage.Contains storage entity;
          if (present : bool) then Some true else has_any cr entity ids'
      | None => has_any cr entity ids'
      end
  end.

Definition matchesEntity (w : World.t Val) (q : t) (entity : Z) : option bool :=
  let cr := World.componentRegistry w in
  all ← has_all cr entity (include q);
  if negb all then Some false else
  none ← has_none cr entity (exclude q);
  if negb none then Some false else
  any ← (if bool_decide (0 < Go.len (includeAny q))
         then has_any cr entity (includeAny q)
         else Some true);
  if negb any then Some false else
  none ← has_none cr entity (excludeAny q);
  if negb none then Some false else
  Some true.

(** The scan for the smallest registered [include] pool. *)
Definition smallest (cr : ComponentRegistry.t Val) (ids : list Z)
  : Z * option (TypedStorage.t Val) :=
  foldl (λ '(smallestSize, smallestStorage) id,
           match ComponentRegistry.GetStorageByID cr id with
           | Some storage =>
               if bool_decide (TypedStorage.Size storage < smallestSize)
               then (TypedStorage.Size storage, Some storage)
               else (smallestSize, smallestStorage)
           | None => (smallestSize, smallestStorage)
           end)
        (Go.MaxInt, None) ids.

(** The entity set gathered from the registered [includeAny] pools. *)
Definition gather (cr : ComponentRegistry.t Val) (ids : list Z) : option (gset Z) :=
  Go.for_each
    (λ entitySet id,
       match ComponentRegistry.GetStorageByID cr id with
       | Some storage =>
           entities ← SparseSet.Data (TypedStorage.Entities storage);
           Some (entitySet ∪ list_to_set entities)
       | None => Some entitySet
       end)
    ids ∅.

(** The filter loop of [Build]. *)
Fixpoint keep_matching (w : World.t Val) (q : t) (candidates : list Z)
  : option (list Z) :=
  match candidates with
  | [] => Some []
  | entity :: rest =>
      m ← matchesEntity w q entity;
      result ← keep_matching w q rest;
      Some (if (m : bool) then entity :: result else result)
  end.

(** [range_order] is the order in which Go ranges over the keys of the
    entity set; the language leaves it unspecified. *)
Definition Build (range_order : gset Z → list Z) (w : World.t Val) (q : t)
  : option (list Z) :=
  let cr := World.componentRegistry w in
  if bool_decide (Go.len (include q) = 0) && bool_decide (Go.len (includeAny q) = 0)
  then Some [] else
  if bool_decide (0 < Go.len (include q)) then
    match (smallest cr (include q)).2 with
    | Some smallestStorage =>
        candidates ← SparseSet.Data (TypedStorage.Entities smallestStorage);
        keep_matching w q candidates
    | None => Some []
    end
  else if bool_decide (0 < Go.len (includeAny q)) then
    entitySet ← gather cr (includeAny q);
    keep_matching w q (range_order entitySet)
  else keep_matching w q [].

End Ops.

End Query.

(** ** Component pools: pointers, iteration and reordering
    (component_storage.go) *)

Module PoolAccess.

Section Ops.
Context {T : Type}.

(** [GetPtr].  The pointer [&cp.components[index]] is modelled by the
    position it points to; the inner [None] is [nil]. *)
Definition GetPtr (cp : ComponentPool.t T) (entity : Z) : option (option Z) :=
  present ← SparseSet.Contains (ComponentPool.entities cp) entity;
  if negb present then Some None else
  index ← SparseSet.Index (ComponentPool.entities cp) entity;
  _ ← Go.index (ComponentPool.components cp) index;
  Some (Some index).

(** [ForEach].  The callback is given the entity and the pointer to its
    component: it is a function of a state of its own, the entity and the
    component's value, and returns its new state and the value it leaves
    behind the pointer.  (A callback that reaches the pool by another way
    is not covered.) *)
Definition ForEach {St : Type} (cp : ComponentPool.t T)
    (fn : St → Z → T → St * T) (s : St) : option (St * ComponentPool.t T) :=
  entities ← SparseSet.Data (ComponentPool.entities cp);
  '(s', comps) ←
    Go.for_each
      (λ '(s, comps) '(i, entity),
         v ← Go.index comps (Z.of_nat i);
         let '(s', v') := fn s entity v in
         comps' ← Go.store comps (Z.of_nat i) v';
         Some (s', comps'))
      (imap (λ i entity, (i, entity)) entities) (s, ComponentPool.components cp);
  Some (s', ComponentPool.mk (ComponentPool.entities cp) comps).

(** One comparison of [Sort]: the closure handed to [SparseSet.Sort] looks
    both entities up in the set as it is now and reads the components at
    those positions. *)
Definition sort_step (less : Z → T → Z → T → bool) (comps : list T)
    (ss : SparseSet.t) (j : Z) : option SparseSet.t :=
  a ← Go.index (SparseSet.dense ss) (j + 1);
  b ← Go.index (SparseSet.dense ss) j;
  indexA ← SparseSet.Index ss a;
  indexB ← SparseSet.Index ss b;
  va ← Go.index comps indexA;
  vb ← Go.index comps indexB;
  if less a va b vb then SparseSet.Swap ss j (j + 1) else Some ss.

(** [Sort]: the loops of [SparseSet.Sort] around that closure.  The
    component slice is read, never written. *)
Definition Sort (cp : ComponentPool.t T) (less : Z → T → Z → T → bool)
  : option (ComponentPool.t T) :=
  es ← Go.for_each
         (λ ss i, Go.for_each (sort_step less (ComponentPool.components cp))
                              (seqZ 0 (SparseSet.size ss - i - 1)) ss)
         (seqZ 0 (SparseSet.size (ComponentPool.entities cp) - 1))
         (ComponentPool.entities cp);
  Some (ComponentPool.mk es (ComponentPool.components cp)).

(** First loop of [Respect]: the components of the entities of [other]
    that the pool holds, in the order of [other]. *)
Definition respect_present (cp : ComponentPool.t T) (other : SparseSet.t)
  : option (list T) :=
  Go.for_each
    (λ newComponents i,
       entity ← SparseSet.At other i;
       present ← SparseSet.Contains (ComponentPool.entities cp) entity;
       if (present : bool) then
         index ← SparseSet.Index (ComponentPool.entities cp) entity;
         v ← Go.index (ComponentPool.components cp) index;
         Some (newComponents ++ [v])
       else Some newComponents)
    (seqZ 0 (SparseSet.Size other)) [].

(** The search [other.At(j) == entity] with its [break]. *)
Definition found_in (other : SparseSet.t) (entity : Z) : option bool :=
  Go.for_each
    (λ (found : bool) j,
       if found then Some true else
       x ← SparseSet.At other j;
       Some (bool_decide (x = entity)))
    (seqZ 0 (SparseSet.Size other)) false.

(** Second loop of [Respect]: the components of the entities that [other]
    does not hold. *)
Definition respect_rest (cp : ComponentPool.t T) (other : SparseSet.t)
    (newComponents : list T) : option (list T) :=
  entities ← SparseSet.Data (ComponentPool.entities cp);
  Go.for_each
    (λ newComponents '(i, entity),
       found ← found_in other entity;
       if negb found then
         v ← Go.index (ComponentPool.components cp) (Z.of_nat i);
         Some (newComponents ++ [v])
       else Some newComponents)
    (imap (λ i entity, (i, entity)) entities) newComponents.

Definition Respect (cp : ComponentPool.t T) (other : SparseSet.t)
  : option (ComponentPool.t T) :=
  if bool_decide (SparseSet.Size other = 0) then Some cp else
  newComponents ← respect_present cp other;
  newComponents ← respect_rest cp other newComponents;
  es ← SparseSet.Respect (ComponentPool.entities cp) other;
  (* copy(cp.components[:len(newComponents)], newComponents) *)
  _ ← Go.slice_to (ComponentPool.components cp) (Go.len newComponents);
  Some (ComponentPool.mk es
          (newComponents ++ drop (length newComponents) (ComponentPool.components cp))).

End Ops.

End PoolAccess.

(** ** Systems (system.go)

  A [System] is an interface value; the manager compares systems with [==]
  and uses them as map keys, so only their identity matters here.  What a
  system's [Update] does to the world is a function [run]; a system that
  changes the manager it is run by is not covered. *)

Module SystemManager.

Section Ops.
Context {Sys : Type} {SysEq : EqDecision Sys} {SysCount : Countable Sys}.

Record t := mk {
  systems : list Sys;
  enabled : gmap Sys bool
}.

Definition NewSystemManager : t := mk [] ∅.

Definition AddSystem (sm : t) (system : Sys) : t :=
  mk (systems sm ++ [system]) (<[system := true]> (enabled sm)).

(** The loop stops at the first [i] with [sm.systems[i] == system]. *)
Definition RemoveSystem (sm : t) (system : Sys) : t :=
  match list_find (λ s, s = system) (systems sm) with
  | Some (i, _) =>
      mk (take i (systems sm) ++ drop (S i) (systems sm)) (delete system (enabled sm))
  | None => sm
  end.

Definition EnableSystem (sm : t) (system : Sys) : t :=
  mk (systems sm) (<[system := true]> (enabled sm)).

Definition DisableSystem (sm : t) (system : Sys) : t :=
  mk (systems sm) (<[system := false]> (enabled sm)).

Definition IsEnabled (sm : t) (system : Sys) : bool :=
  match enabled sm !! system with
  | Some enabled => enabled
  | None => false
  end.

Definition Update {W : Type} (sm : t) (run : Sys → W → option W) (world : W)
  : option W :=
  Go.for_each (λ world system,
                 if IsEnabled sm system then run system world else Some world)
              (systems sm) world.

Definition GetSystems (sm : t) : list Sys := systems sm.

Definition GetEnabledSystems (sm : t) : list Sys :=
  foldl (λ enabled system,
           if IsEnabled sm system then enabled ++ [system] else enabled)
        [] (systems sm).

Definition Clear (sm : t) : t := mk [] ∅.

End Ops.

Arguments t Sys {SysEq SysCount}.

End SystemManager.

(** ** Iterators (query.go) *)

Module Iterator1.

Section Ops.
Context {Val : Type}.

(** The iterator keeps the pointer to the pool it got from [GetStorage];
    the pool lives in the registry, so the pointer is the identifier the
    pool is stored under, and [None] is [nil]. *)
Record t := mk {
  result : list Z;
  component1Pool : option Z
}.

(** The pool is looked up before [With] registers the type. *)
Definition NewIterator1 (range_order : gset Z → list Z) (T1 : string)
    (world : World.t Val) : option (World.t Val * t) :=
  let pool1 := fst <$> ComponentRegistry.GetStorage T1 (World.componentRegistry world) in
  let '(world, query) := Query.With T1 (world, Query.NewQuery) in
  result ← Query.Build range_order world query;
  Some (world, mk result pool1).

(** One round of [ForEach]: [GetPtr] on the pool (a [nil] pool faults),
    then the callback on the pointer, as in [ComponentPool.ForEach]. *)
Definition visit {St : Type} (fn : St → Z → Val → St * Val)
    (acc : St * option (ComponentPool.t Val)) (entity : Z)
  : option (St * option (ComponentPool.t Val)) :=
  cp ← acc.2;
  comp1 ← PoolAccess.GetPtr cp entity;
  match comp1 with
  | Some index =>
      v ← Go.index (ComponentPool.components cp) index;
      let '(s', v') := fn acc.1 entity v in
      comps ← Go.store (ComponentPool.components cp) index v';
      Some (s', Some (ComponentPool.mk (ComponentPool.entities cp) comps))
  | None => Some (acc.1, Some cp)
  end.

(** [ForEach] works on the pool the iterator points to; what it leaves
    there is seen through the registry. *)
Definition ForEach {St : Type} (it : t) (fn : St → Z → Val → St * Val) (s : St)
    (world : World.t Val) : option (St * World.t Val) :=
  let cr := World.componentRegistry world in
  let pool := id ← component1Pool it;
              TypedStorage.pool <$> ComponentRegistry.storages cr !! id in
  '(s', pool') ← Go.for_each (visit fn) (result it) (s, pool);
  Some (s', match component1Pool it, pool' with
            | Some id, Some cp =>
                World.mk (World.entityManager world)
                         (ComponentRegistry.write_pool cr id cp)
            | _, _ => world
            end).

End Ops.

End Iterator1.

(** * Properties *)

(** ** Slices and integers *)

Module GoFacts.

Lemma index_Some {A} (l : list A) (i : Z) (x : A) :
  Go.index l i = Some x ↔ 0 ≤ i ∧ l !! Z.to_nat i = Some x.
Proof.
  unfold Go.index. destruct (bool_decide_reflect (0 ≤ i)); [tauto|].
  split; [done | intros [? _]; lia].
Qed.

Lemma index_nat {A} (l : list A) (n : nat) : Go.index l (Z.of_nat n) = l !! n.
Proof.
  unfold Go.index. rewrite bool_decide_eq_true_2 by lia. by rewrite Nat2Z.id.
Qed.

Lemma index_lt {A} (l : list A) (i : Z) (x : A) :
  Go.index l i = Some x → 0 ≤ i < Go.len l.
Proof.
  rewrite index_Some. intros [? H%lookup_lt_Some]. unfold Go.len. lia.
Qed.

Lemma index_is_Some {A} (l : list A) (i : Z) :
  0 ≤ i < Go.len l → is_Some (Go.index l i).
Proof.
  intros ?. unfold Go.index. rewrite bool_decide_eq_true_2 by lia.
  apply lookup_lt_is_Some. unfold Go.len in *. lia.
Qed.

Lemma store_Some {A} (l : list A) (i : Z) (x : A) :
  0 ≤ i < Go.len l → Go.store l i x = Some (<[Z.to_nat i := x]> l).
Proof. intros ?. unfold Go.store. by rewrite bool_decide_eq_true_2. Qed.

Lemma store_inv {A} (l l' : list A) (i : Z) (x : A) :
  Go.store l i x = Some l' → 0 ≤ i < Go.len l ∧ l' = <[Z.to_nat i := x]> l.
Proof.
  unfold Go.store. destruct (bool_decide_reflect (0 ≤ i < Go.len l)); [|done].
  by intros [= <-].
Qed.

Lemma slice_to_Some {A} (l : list A) (n : Z) :
  0 ≤ n ≤ Go.len l → Go.slice_to l n = Some (take (Z.to_nat n) l).
Proof. intros ?. unfold Go.slice_to. by rewrite bool_decide_eq_true_2. Qed.

Lemma int32_small (z : Z) : - 2 ^ 31 ≤ z < 2 ^ 31 → Go.int32 z = z.
Proof. intros ?. unfold Go.int32. rewrite Z.mod_small; lia. Qed.

Lemma uint32_small (z : Z) : 0 ≤ z < 2 ^ 32 → Go.uint32 z = z.
Proof. intros ?. unfold Go.uint32. by rewrite Z.mod_small. Qed.

Lemma uint32_le (z : Z) : 0 ≤ z → 0 ≤ Go.uint32 z ≤ z.
Proof.
  intros ?. unfold Go.uint32. split; [apply Z.mod_pos_bound; lia|].
  apply Z.mod_le; lia.
Qed.

Lemma for_each_app {S A} (body : S → A → option S) (l1 l2 : list A) (s : S) :
  Go.for_each body (l1 ++ l2) s = Go.for_each body l1 s ≫= Go.for_each body l2.
Proof.
  revert s. induction l1 as [|x l1 IH]; intros s; simpl; [done|].
  destruct (body s x) as [s'|]; simpl; [apply IH|done].
Qed.

(** A loop preserves what each round preserves. *)
Lemma for_each_preserves {S A} (P : S → Prop) (body : S → A → option S) (l : list A) :
  (∀ s x, x ∈ l → P s → ∃ s', body s x = Some s' ∧ P s') →
  ∀ s, P s → ∃ s', Go.for_each body l s = Some s' ∧ P s'.
Proof.
  induction l as [|x l IH]; intros Hbody s Hs; simpl; [eauto|].
  destruct (Hbody s x) as (s' & -> & Hs'); [left|done|]. simpl.
  apply IH; [|done]. intros s0 y Hy. apply Hbody. by right.
Qed.

(** A counted loop that reads [l[i]] at each round is a loop over the
    first [n] items of [l]. *)
Lemma for_each_indexed {St A} (f : St → A → option St) (l : list A) (n : nat) (s : St) :
  (n ≤ length l)%nat →
  Go.for_each (λ s i, x ← Go.index l i; f s x) (seqZ 0 (Z.of_nat n)) s
  = Go.for_each f (take n l) s.
Proof.
  intros Hn. induction n as [|n IH].
  - by rewrite take_0.
  - replace (Z.of_nat (S n)) with (Z.of_nat n + 1) by lia.
    rewrite seqZ_app by lia. rewrite for_each_app, IH by lia.
    destruct (lookup_lt_is_Some_2 l n) as [x Hx]; [lia|].
    rewrite (take_S_r _ _ _ Hx), for_each_app.
    destruct (Go.for_each f (take n l) s) as [s'|]; simpl; [|done].
    replace (Z.of_nat 0 + (0 + Z.of_nat n)) with (Z.of_nat n) by lia.
    by rewrite index_nat, Hx.
Qed.

End GoFacts.

(** ** Entity handles *)

Module EntityFacts.

Lemma Index_mod (e : Z) : Entity.Index e = e mod 2 ^ 20.
Proof.
  unfold Entity.Index. change Entity.EntityIndexMask with (Z.ones 20).
  by rewrite Z.land_ones.
Qed.

Lemma Index_range (e : Z) : 0 ≤ Entity.Index e < 2 ^ 20.
Proof. rewrite Index_mod. apply Z.mod_pos_bound. lia. Qed.

Lemma IsValid_true (e : Z) : Entity.IsValid e = true ↔ e ≠ Entity.NullEntity.
Proof. unfold Entity.IsValid. case_bool_decide; naive_solver. Qed.

Lemma IsValid_Null : Entity.IsValid Entity.NullEntity = false.
Proof. reflexivity. Qed.

End EntityFacts.

(** ** Sparse set: membership and dense access *)

Module SparseSetFacts.
Import SparseSet.

Ltac case_bd :=
  match goal with
  | |- context [bool_decide ?P] => destruct (bool_decide_reflect P)
  end.

(** What [Contains] is meant to decide: [sparse[e.Index()]] is a live
    dense slot and that slot holds [e] itself. *)
Definition holds (ss : t) (e : Z) : Prop :=
  e ≠ Entity.NullEntity ∧
  ∃ d, Go.index (sparse ss) (Entity.Index e) = Some d ∧
       0 ≤ d < size ss ∧
       Go.index (dense ss) d = Some e.

Lemma Contains_true (ss : t) (e : Z) : Contains ss e = Some true ↔ holds ss e.
Proof.
  unfold Contains, holds. destruct (Entity.IsValid e) eqn:Hv; simpl.
  - apply EntityFacts.IsValid_true in Hv.
    case_bd.
    { split; [done|]. intros (_ & d & Hd%GoFacts.index_lt & _). lia. }
    destruct (Go.index (sparse ss) (Entity.Index e)) as [d|] eqn:Hd; simpl.
    + do 2 case_bd; simpl.
      * destruct (Go.index (dense ss) d) as [x|] eqn:Hx; simpl.
        -- case_bd; [subst x|].
           ++ split; [|done]. intros _. split; [done|]. exists d. eauto.
           ++ split; [done|]. intros (_ & d' & [= <-] & _ & Hx'). congruence.
        -- split; [done|]. intros (_ & d' & [= <-] & _ & Hx'). congruence.
      * split; [done|]. intros (_ & d' & [= <-] & ? & _). lia.
      * split; [done|]. intros (_ & d' & [= <-] & ? & _). lia.
      * split; [done|]. intros (_ & d' & [= <-] & ? & _). lia.
    + split; [done|]. intros (_ & d' & ? & _). done.
  - split; [done|]. intros [Hne _].
    apply EntityFacts.IsValid_true in Hne. congruence.
Qed.

(** [Contains] cannot fault as long as [size] stays within [dense]. *)
Lemma Contains_total (ss : t) (e : Z) :
  size ss ≤ Go.len (dense ss) → is_Some (Contains ss e).
Proof.
  intros Hsz. unfold Contains. destruct (Entity.IsValid e); simpl; [|eauto].
  case_bd; [eauto|].
  destruct (GoFacts.index_is_Some (sparse ss) (Entity.Index e)) as [d ->].
  { pose proof (EntityFacts.Index_range e). lia. }
  simpl. do 2 case_bd; simpl; eauto.
  destruct (GoFacts.index_is_Some (dense ss) d) as [x ->]; [lia|]. simpl. eauto.
Qed.

Lemma Contains_false (ss : t) (e : Z) :
  size ss ≤ Go.len (dense ss) → ¬ holds ss e → Contains ss e = Some false.
Proof.
  intros Hsz Hn. destruct (Contains_total ss e Hsz) as [[] Hb]; [|done].
  by apply Contains_true in Hb.
Qed.

Lemma Contains_Null (ss : t) : Contains ss Entity.NullEntity = Some false.
Proof. reflexivity. Qed.

(** Two live handles of one slot: only the stored generation is a member. *)
Lemma holds_same_index (ss : t) (e e' : Z) :
  holds ss e → Entity.Index e' = Entity.Index e → holds ss e' → e' = e.
Proof.
  intros (_ & d & Hd & _ & Hx) Hi (_ & d' & Hd' & _ & Hx').
  rewrite Hi in Hd'. congruence.
Qed.

(** Handles are equal exactly when index and generation agree. *)
Lemma entity_fields (a : Z) :
  0 ≤ a < 2 ^ 32 → a = Entity.Generation a * 2 ^ 20 + Entity.Index a.
Proof.
  intros Ha. rewrite EntityFacts.Index_mod. unfold Entity.Generation.
  change Entity.EntityGenerationMask with (Z.ones 12).
  change Entity.EntityIndexBits with 20.
  rewrite Z.land_ones, Z.shiftr_div_pow2 by lia.
  rewrite (Z.mod_small (a / 2 ^ 20)).
  - pose proof (Z.div_mod a (2 ^ 20)). lia.
  - split; [apply Z.div_pos; lia|]. apply Z.div_lt_upper_bound; lia.
Qed.

Lemma entity_eq_iff (a b : Z) :
  0 ≤ a < 2 ^ 32 → 0 ≤ b < 2 ^ 32 →
  a = b ↔ Entity.Index a = Entity.Index b ∧ Entity.Generation a = Entity.Generation b.
Proof.
  intros Ha Hb. split; [by intros ->|]. intros [Hi Hg].
  rewrite (entity_fields a Ha), (entity_fields b Hb). congruence.
Qed.

Lemma At_out_of_range (ss : t) (i : Z) :
  i < 0 ∨ size ss ≤ i → At ss i = Some Entity.NullEntity.
Proof.
  intros Hi. unfold At. do 2 case_bd; simpl; try done. lia.
Qed.

Lemma At_in_range (ss : t) (i : Z) :
  0 ≤ i < size ss → At ss i = Go.index (dense ss) i.
Proof.
  intros Hi. unfold At. do 2 case_bd; simpl; try done; lia.
Qed.

End SparseSetFacts.

(** ** Sparse set: the dense/sparse correspondence *)

Module SparseSetInv.
Import SparseSet SparseSetFacts.

(** Slot of an entity in [sparse], as a list position. *)
Definition idx (e : Z) : nat := Z.to_nat (Entity.Index e).

(** The live part of the dense array, [dense[0..size)]. *)
Definition live (ss : t) : list Z := take (Z.to_nat (size ss)) (dense ss).

(** The representation invariant: [size] stays within [dense], [sparse]
    never outgrows the 20-bit index space, and every live dense position
    is the one its entity's sparse entry points back to. *)
Record inv (ss : t) : Prop := mk_inv {
  inv_size : 0 ≤ size ss ≤ Go.len (dense ss);
  inv_sparse : Go.len (sparse ss) ≤ 2 ^ 20;
  inv_slot : ∀ (i : nat) (e : Z),
    Z.of_nat i < size ss → dense ss !! i = Some e →
    e ≠ Entity.NullEntity ∧ sparse ss !! idx e = Some (Z.of_nat i)
}.

(** What it takes for the operations not to fault: [size] within [dense]
    and within [int32], and a sparse slot for every live entity.  Every
    [Insert] gives the entity its slot, so this holds whatever is inserted. *)
Definition bounded (ss : t) : Prop :=
  0 ≤ size ss ≤ Go.len (dense ss) ∧ size ss ≤ 2 ^ 31 ∧
  ∀ (i : nat) (e : Z),
    Z.of_nat i < size ss → dense ss !! i = Some e → (idx e < length (sparse ss))%nat.

(** The property as the specification words it. *)
Definition density (ss : t) : Prop :=
  NoDup (live ss) ∧
  ∀ i, 0 ≤ i < size ss →
    ∃ e, Go.index (dense ss) i = Some e ∧
         Go.index (sparse ss) (Entity.Index e) = Some i.

(** No other generation of [e]'s slot is stored. *)
Definition no_clash (ss : t) (e : Z) : Prop :=
  Forall (λ x, Entity.Index x = Entity.Index e → x = e) (live ss).

#[global] Instance no_clash_dec (ss : t) (e : Z) : Decision (no_clash ss e).
Proof. unfold no_clash. apply _. Defined.

Lemma idx_inj (a b : Z) : idx a = idx b → Entity.Index a = Entity.Index b.
Proof.
  unfold idx. pose proof (EntityFacts.Index_range a).
  pose proof (EntityFacts.Index_range b). lia.
Qed.

Lemma index_idx (l : list Z) (e : Z) : Go.index l (Entity.Index e) = l !! idx e.
Proof.
  unfold Go.index, idx. pose proof (EntityFacts.Index_range e).
  by rewrite bool_decide_eq_true_2 by lia.
Qed.

Lemma store_idx (l : list Z) (e v : Z) :
  (idx e < length l)%nat → Go.store l (Entity.Index e) v = Some (<[idx e := v]> l).
Proof.
  intros ?. apply GoFacts.store_Some. unfold Go.len, idx in *.
  pose proof (EntityFacts.Index_range e). lia.
Qed.

Lemma live_lookup (ss : t) (i : nat) (e : Z) :
  live ss !! i = Some e ↔ Z.of_nat i < size ss ∧ dense ss !! i = Some e.
Proof.
  unfold live. rewrite lookup_take_Some. split; intros [? ?]; split; auto; lia.
Qed.

Lemma elem_of_live (ss : t) (e : Z) :
  e ∈ live ss ↔ ∃ i : nat, Z.of_nat i < size ss ∧ dense ss !! i = Some e.
Proof.
  rewrite list_elem_of_lookup. by setoid_rewrite live_lookup.
Qed.

(** A member is a live dense entry. *)
Lemma holds_in_live (ss : t) (e : Z) : holds ss e → e ∈ live ss.
Proof.
  intros (_ & d & _ & Hd & [? Hx]%GoFacts.index_Some).
  apply elem_of_live. exists (Z.to_nat d). split; [lia|done].
Qed.

Section Basics.
Context (ss : t) (Hinv : inv ss).

Lemma inv_holds (i : nat) (e : Z) :
  Z.of_nat i < size ss → dense ss !! i = Some e → holds ss e.
Proof.
  intros Hi He. destruct (inv_slot ss Hinv i e Hi He) as [Hne Hs].
  split; [done|]. exists (Z.of_nat i). rewrite index_idx, GoFacts.index_nat.
  repeat split; auto; lia.
Qed.

Lemma holds_live (e : Z) : holds ss e ↔ e ∈ live ss.
Proof.
  rewrite elem_of_live. split.
  - intros (_ & d & _ & Hd & [? Hx]%GoFacts.index_Some).
    exists (Z.to_nat d). split; [lia|done].
  - intros (i & Hi & He). eauto using inv_holds.
Qed.

Lemma live_idx_NoDup : NoDup (idx <$> live ss).
Proof.
  apply NoDup_alt. intros i j k Hi Hj.
  rewrite list_lookup_fmap in Hi, Hj.
  destruct (live ss !! i) as [a|] eqn:Ha; [|done].
  destruct (live ss !! j) as [b|] eqn:Hb; [|done].
  simpl in *. apply live_lookup in Ha as [? Ha], Hb as [? Hb].
  destruct (inv_slot ss Hinv i a) as [_ Hsa]; [done..|].
  destruct (inv_slot ss Hinv j b) as [_ Hsb]; [done..|].
  assert (idx a = idx b) as Heq by congruence.
  rewrite Heq in Hsa. rewrite Hsa in Hsb. injection Hsb. lia.
Qed.

Lemma live_NoDup : NoDup (live ss).
Proof. eapply NoDup_fmap_1, live_idx_NoDup. Qed.

Lemma live_length : length (live ss) = Z.to_nat (size ss).
Proof.
  unfold live. apply length_take_le.
  pose proof (inv_size ss Hinv). unfold Go.len in *. lia.
Qed.

(** There are no more live entities than sparse slots. *)
Lemma size_le_sparse : size ss ≤ Go.len (sparse ss).
Proof.
  assert (length (idx <$> live ss) ≤ length (seq 0 (length (sparse ss))))%nat as H.
  { apply submseteq_length, NoDup_submseteq; [apply live_idx_NoDup|].
    intros k (e & -> & He)%list_elem_of_fmap.
    apply elem_of_live in He as (i & Hi & He).
    destruct (inv_slot ss Hinv i e Hi He) as [_ Hs%lookup_lt_Some].
    apply elem_of_seq. lia. }
  rewrite length_fmap, live_length, length_seq in H.
  pose proof (inv_size ss Hinv). unfold Go.len. lia.
Qed.

Lemma size_small : 0 ≤ size ss ≤ 2 ^ 20.
Proof.
  pose proof size_le_sparse. pose proof (inv_size ss Hinv).
  pose proof (inv_sparse ss Hinv). lia.
Qed.

Lemma inv_bounded : bounded ss.
Proof.
  split; [apply (inv_size ss Hinv)|]. split; [pose proof size_small; lia|].
  intros i e Hi He. destruct (inv_slot ss Hinv i e Hi He) as [_ Hs].
  by eapply lookup_lt_Some.
Qed.

Lemma inv_density : density ss.
Proof.
  split; [apply live_NoDup|]. intros i Hi.
  destruct (lookup_lt_is_Some_2 (dense ss) (Z.to_nat i)) as [e He].
  { pose proof (inv_size ss Hinv). unfold Go.len in *. lia. }
  exists e. destruct (inv_slot ss Hinv (Z.to_nat i) e) as [_ Hs]; [lia|done|].
  split; [apply GoFacts.index_Some; split; [lia|done]|].
  rewrite index_idx, Hs. f_equal. lia.
Qed.

Lemma inv_Contains_total (e : Z) : is_Some (Contains ss e).
Proof. apply Contains_total, (inv_size ss Hinv). Qed.

Lemma inv_Contains (e : Z) : Contains ss e = Some (bool_decide (e ∈ live ss)).
Proof.
  destruct (inv_Contains_total e) as [[] Hb].
  - rewrite Hb. apply Contains_true, holds_live in Hb.
    by rewrite bool_decide_eq_true_2.
  - rewrite Hb. rewrite bool_decide_eq_false_2; [done|].
    intros He%holds_live%Contains_true. congruence.
Qed.

End Basics.

End SparseSetInv.


(** ** Sparse set: every operation keeps the correspondence *)

Module SparseSetSteps.
Import SparseSet SparseSetFacts SparseSetInv.

Lemma NewSparseSet_inv : inv NewSparseSet.
Proof.
  split; simpl; [unfold Go.len; simpl; lia..|].
  intros i e Hi. lia.
Qed.

Lemma ensureCapacity_shape (ss : t) (e : Z) :
  ∃ k, ensureCapacity ss (Entity.Index e)
       = mk (sparse ss ++ replicate k (-1)) (dense ss) (size ss) ∧
       (idx e < length (sparse ss ++ replicate k (-1)%Z))%nat ∧
       Go.len (sparse ss ++ replicate k (-1)) ≤ Z.max (Go.len (sparse ss)) (2 ^ 20).
Proof.
  pose proof (EntityFacts.Index_range e) as He.
  unfold ensureCapacity, Go.len, idx. case_bd.
  - eexists. split; [reflexivity|].
    rewrite length_app, length_replicate. unfold Go.len in *. lia.
  - exists 0%nat. simpl. rewrite app_nil_r. destruct ss; simpl in *.
    split; [done|]. unfold Go.len in *. lia.
Qed.

Lemma ensureCapacity_inv (ss : t) (e : Z) :
  inv ss → inv (ensureCapacity ss (Entity.Index e)).
Proof.
  intros Hinv. destruct (ensureCapacity_shape ss e) as (k & -> & _ & Hlen).
  split; simpl.
  - apply (inv_size ss Hinv).
  - pose proof (inv_sparse ss Hinv). lia.
  - intros i x Hi Hx. destruct (inv_slot ss Hinv i x Hi Hx) as [? Hs].
    split; [done|]. by apply lookup_app_l_Some.
Qed.

Lemma ensureCapacity_live (ss : t) (e : Z) :
  live (ensureCapacity ss (Entity.Index e)) = live ss.
Proof. by destruct (ensureCapacity_shape ss e) as (k & -> & _). Qed.

Lemma ensureCapacity_size (ss : t) (e : Z) :
  size (ensureCapacity ss (Entity.Index e)) = size ss.
Proof. by destruct (ensureCapacity_shape ss e) as (k & -> & _). Qed.

(** [Insert] never faults and keeps the invariant as long as the slot of [e]
    is not held by another generation; an entity that was inserted is the
    new last live element. *)
Lemma Insert_post (ss : t) (e : Z) :
  inv ss → no_clash ss e →
  ∃ b ss', Insert ss e = Some (b, ss') ∧ inv ss' ∧
           size ss' = (if (b : bool) then size ss + 1 else size ss) ∧
           live ss' = (if b then live ss ++ [e] else live ss).
Proof.
  intros Hinv0 Hclash0. unfold Insert.
  destruct (Entity.IsValid e) eqn:Hv; simpl; [|by exists false, ss].
  apply EntityFacts.IsValid_true in Hv.
  pose proof (ensureCapacity_inv ss e Hinv0) as Hinv.
  assert (no_clash (ensureCapacity ss (Entity.Index e)) e) as Hclash.
  { unfold no_clash. by rewrite ensureCapacity_live. }
  destruct (ensureCapacity_shape ss e) as (k & Hshape & Hlt & _).
  assert (idx e < length (sparse (ensureCapacity ss (Entity.Index e))))%nat as Hidx
    by (by rewrite Hshape).
  rewrite <-(ensureCapacity_live ss e), <-(ensureCapacity_size ss e).
  clear Hshape Hlt Hinv0 Hclash0.
  generalize dependent (ensureCapacity ss (Entity.Index e)). clear ss k.
  intros ss Hinv Hclash Hidx.
  rewrite (inv_Contains ss Hinv).
  destruct (decide (e ∈ live ss)) as [Hin|Hnin].
  { rewrite (bool_decide_eq_true_2 (e ∈ live ss)) by done. simpl. by exists false, ss. }
  rewrite (bool_decide_eq_false_2 (e ∈ live ss)) by done. simpl.
  pose proof (size_small ss Hinv) as Hsmall.
  pose proof (inv_size ss Hinv) as Hsz.
  rewrite store_idx by done. simpl.
  rewrite GoFacts.int32_small by lia.
  assert (∃ dn, (if bool_decide (Go.len (dense ss) ≤ size ss)
                 then Some (dense ss ++ [e])
                 else Go.store (dense ss) (size ss) e) = Some dn ∧
                (Z.to_nat (size ss) < length dn)%nat ∧
                dn !! Z.to_nat (size ss) = Some e ∧
                take (Z.to_nat (size ss)) dn = live ss)
    as (dn & -> & Hdn_len & Hdn_new & Hdn_old).
  { unfold live, Go.len in *. case_bd.
    - eexists. split; [reflexivity|].
      assert (Z.to_nat (size ss) = length (dense ss)) as -> by lia.
      rewrite length_app. simpl. split; [lia|].
      split; [by rewrite lookup_app_r, Nat.sub_diag by lia|].
      by rewrite take_app_length, take_ge.
    - rewrite GoFacts.store_Some by (unfold Go.len; lia).
      eexists. split; [reflexivity|]. rewrite length_insert.
      split; [lia|]. split; [apply list_lookup_insert_eq; lia|].
      by rewrite take_insert_ge. }
  simpl. exists true. eexists. split; [reflexivity|].
  assert (live (mk (<[idx e := size ss]> (sparse ss)) dn (size ss + 1)) = live ss ++ [e])
    as Hlive'.
  { unfold live at 1. simpl.
    replace (Z.to_nat (size ss + 1)) with (S (Z.to_nat (size ss))) by lia.
    by rewrite (take_S_r _ _ _ Hdn_new), Hdn_old. }
  split; [|by split]. split; simpl.
  - unfold Go.len. lia.
  - unfold Go.len. rewrite length_insert. apply (inv_sparse ss Hinv).
  - intros i x Hi Hx.
    assert (live (mk (<[idx e := size ss]> (sparse ss)) dn (size ss + 1)) !! i = Some x)
      as Hx' by (apply live_lookup; simpl; by split).
    rewrite Hlive' in Hx'. apply lookup_snoc_Some in Hx' as [[Hlt Hx']|[Hlen <-]].
    + apply live_lookup in Hx' as [Hi' Hx'].
      destruct (inv_slot ss Hinv i x) as [Hxn Hs]; [done..|].
      split; [done|]. rewrite list_lookup_insert_ne; [done|].
      intros Hix. apply idx_inj in Hix.
      assert (x ∈ live ss) as Hlive by (apply elem_of_live; by exists i).
      pose proof (proj1 (Forall_forall _ _) Hclash x Hlive) as Hxe.
      rewrite Hxe in Hlive; [done|]. by symmetry.
    + split; [done|]. rewrite list_lookup_insert_eq by done. f_equal.
      rewrite live_length in Hlen by done. lia.
Qed.

(** Whatever is inserted, [Insert] keeps the bounds (short of [2^31]
    elements, where [int32(ss.size)] would wrap). *)
Lemma Insert_bounded (ss : t) (e : Z) :
  bounded ss → size ss < 2 ^ 31 →
  ∃ b ss', Insert ss e = Some (b, ss') ∧ bounded ss' ∧
           size ss' = (if (b : bool) then size ss + 1 else size ss).
Proof.
  intros Hb0 Hroom. unfold Insert.
  destruct (Entity.IsValid e) eqn:Hv; simpl; [|by exists false, ss].
  destruct (ensureCapacity_shape ss e) as (k & Hshape & Hlt & _).
  assert (bounded (ensureCapacity ss (Entity.Index e))) as Hb.
  { rewrite Hshape. destruct Hb0 as (Hsz & Hsm & Hslots).
    split; [done|]. split; [done|]. simpl. intros i x Hi Hx.
    rewrite length_app. pose proof (Hslots i x Hi Hx). lia. }
  assert (idx e < length (sparse (ensureCapacity ss (Entity.Index e))))%nat as Hidx
    by (by rewrite Hshape).
  rewrite <-(ensureCapacity_size ss e) in Hroom |- *.
  clear Hshape Hlt Hb0.
  generalize dependent (ensureCapacity ss (Entity.Index e)). clear ss k.
  intros ss Hroom Hb Hidx. destruct Hb as (Hsz & Hsm & Hslots).
  destruct (Contains_total ss e) as [[] ->]; [lia| |]; simpl.
  { exists false, ss. split; [done|]. split; [|done].
    exact (conj Hsz (conj Hsm Hslots)). }
  rewrite store_idx by done. simpl. rewrite GoFacts.int32_small by lia.
  assert (∃ dn, (if bool_decide (Go.len (dense ss) ≤ size ss)
                 then Some (dense ss ++ [e])
                 else Go.store (dense ss) (size ss) e) = Some dn ∧
                (Z.to_nat (size ss) < length dn)%nat ∧
                dn !! Z.to_nat (size ss) = Some e ∧
                ∀ i : nat, Z.of_nat i < size ss → dn !! i = dense ss !! i)
    as (dn & -> & Hdn_len & Hdn_new & Hdn_old).
  { unfold Go.len in *. case_bd.
    - eexists. split; [reflexivity|].
      assert (Z.to_nat (size ss) = length (dense ss)) as -> by lia.
      rewrite length_app. simpl. split; [lia|].
      split; [by rewrite lookup_app_r, Nat.sub_diag by lia|].
      intros i Hi. apply lookup_app_l. lia.
    - rewrite GoFacts.store_Some by (unfold Go.len; lia).
      eexists. split; [reflexivity|]. rewrite length_insert.
      split; [lia|]. split; [apply list_lookup_insert_eq; lia|].
      intros i Hi. apply list_lookup_insert_ne. lia. }
  simpl. exists true. eexists. split; [reflexivity|]. split; [|done].
  split; [|split]; simpl.
  - unfold Go.len. lia.
  - lia.
  - intros i x Hi Hx. rewrite length_insert.
    destruct (decide (Z.of_nat i = size ss)) as [Heq|Hne].
    + assert (i = Z.to_nat (size ss)) as -> by lia.
      rewrite Hdn_new in Hx. by injection Hx as <-.
    + rewrite Hdn_old in Hx by lia. apply (Hslots i x); [lia|done].
Qed.

Lemma Insert_inv (ss : t) (e : Z) :
  inv ss → no_clash ss e →
  ∃ b ss', Insert ss e = Some (b, ss') ∧ inv ss'.
Proof.
  intros Hinv Hclash.
  destruct (Insert_post ss e Hinv Hclash) as (b & ss' & ? & ? & _). eauto.
Qed.

(** What [Remove] does to a member: one formula covers both branches, since
    writing the last entity over itself changes nothing.  Nothing but the
    bounds is needed for it. *)
Lemma Remove_holds (ss : t) (e : Z) :
  bounded ss → holds ss e →
  ∃ (d : nat) (le : Z),
    Z.of_nat d < size ss ∧ sparse ss !! idx e = Some (Z.of_nat d) ∧
    dense ss !! d = Some e ∧
    dense ss !! Z.to_nat (size ss - 1) = Some le ∧
    Remove ss e
    = Some (true, mk (<[idx e := -1]> (<[idx le := Z.of_nat d]> (sparse ss)))
                     (<[d := le]> (dense ss))
                     (size ss - 1)).
Proof.
  intros (Hsz & Hsmall & Hslots) Hh. pose proof Hh as (_ & dz & Hdz & Hr & Hx).
  rewrite index_idx in Hdz.
  assert (∃ d : nat, dz = Z.of_nat d) as [d ->] by (exists (Z.to_nat dz); lia).
  rewrite GoFacts.index_nat in Hx.
  destruct (lookup_lt_is_Some_2 (dense ss) (Z.to_nat (size ss - 1))) as [le Hle].
  { unfold Go.len in *. lia. }
  pose proof (Hslots (Z.to_nat (size ss - 1)) le ltac:(lia) Hle) as Hle_slot.
  exists d, le. repeat split; [lia|done..|].
  unfold Remove. rewrite (proj2 (Contains_true ss e) Hh). simpl.
  rewrite index_idx, Hdz. simpl. rewrite GoFacts.int32_small by lia.
  destruct (decide (Z.of_nat d = size ss - 1)) as [Heq|Hne].
  - rewrite bool_decide_eq_true_2 by done. simpl.
    assert (Z.to_nat (size ss - 1) = d) as Hd' by lia. rewrite Hd' in *.
    assert (le = e) as -> by congruence.
    rewrite store_idx by (by eapply lookup_lt_Some). simpl.
    by rewrite list_insert_insert_eq, (list_insert_id (dense ss)).
  - rewrite bool_decide_eq_false_2 by done. simpl.
    rewrite (proj2 (GoFacts.index_Some _ _ le)) by (split; [lia|done]). simpl.
    pose proof (lookup_lt_Some _ _ _ Hx) as Hdlt.
    rewrite (GoFacts.store_Some (dense ss)) by (unfold Go.len in *; lia). simpl.
    rewrite Nat2Z.id.
    rewrite store_idx by done. simpl.
    rewrite store_idx; [done|].
    rewrite length_insert. by eapply lookup_lt_Some.
Qed.

Lemma Remove_not_holds (ss : t) (e : Z) :
  size ss ≤ Go.len (dense ss) → ¬ holds ss e → Remove ss e = Some (false, ss).
Proof.
  intros Hsz Hn. unfold Remove. by rewrite (Contains_false ss e Hsz Hn).
Qed.

(** After the removal the bounds still hold and the entity is reported
    absent, whatever else the set holds. *)
Lemma Remove_holds_bounded (ss : t) (e : Z) (d : nat) (le : Z) :
  bounded ss → Z.of_nat d < size ss → sparse ss !! idx e = Some (Z.of_nat d) →
  dense ss !! Z.to_nat (size ss - 1) = Some le →
  let ss' := mk (<[idx e := -1]> (<[idx le := Z.of_nat d]> (sparse ss)))
                (<[d := le]> (dense ss)) (size ss - 1) in
  bounded ss' ∧ Contains ss' e = Some false.
Proof.
  intros (Hsz & Hsmall & Hslots) Hd Hse Hle ss'.
  pose proof (Hslots (Z.to_nat (size ss - 1)) le ltac:(lia) Hle) as Hle_slot.
  split.
  - split; [|split]; simpl.
    + unfold Go.len in *. rewrite length_insert. lia.
    + lia.
    + intros i x Hi Hx. rewrite !length_insert.
      destruct (decide (i = d)) as [->|Hid].
      * apply lookup_lt_Some in Hx as Hlt. rewrite length_insert in Hlt.
        rewrite list_lookup_insert_eq in Hx by done. by injection Hx as <-.
      * rewrite list_lookup_insert_ne in Hx by done. apply (Hslots i x); [lia|done].
  - pose proof (lookup_lt_Some _ _ _ Hse) as Hlt.
    apply Contains_false; [simpl; unfold Go.len in *; rewrite length_insert; lia|].
    intros (_ & d' & Hd' & Hr & _). simpl in Hd', Hr.
    rewrite index_idx, list_lookup_insert_eq in Hd' by (by rewrite length_insert).
    injection Hd' as <-. lia.
Qed.

Lemma Remove_member (ss : t) (e : Z) :
  inv ss → e ∈ live ss →
  ∃ (d : nat) (le : Z),
    Z.of_nat d < size ss ∧ dense ss !! d = Some e ∧
    dense ss !! Z.to_nat (size ss - 1) = Some le ∧
    Remove ss e
    = Some (true, mk (<[idx e := -1]> (<[idx le := Z.of_nat d]> (sparse ss)))
                     (<[d := le]> (dense ss))
                     (size ss - 1)).
Proof.
  intros Hinv Hin%(holds_live ss Hinv).
  destruct (Remove_holds ss e (inv_bounded ss Hinv) Hin) as (d & le & ? & _ & ? & ? & ?).
  eauto 10.
Qed.

Lemma Remove_absent (ss : t) (e : Z) :
  inv ss → e ∉ live ss → Remove ss e = Some (false, ss).
Proof.
  intros Hinv Hnin. apply Remove_not_holds; [apply (inv_size ss Hinv)|].
  by rewrite (holds_live ss Hinv).
Qed.

Lemma Remove_member_inv (ss : t) (e : Z) (d : nat) (le : Z) :
  inv ss → Z.of_nat d < size ss → dense ss !! d = Some e →
  dense ss !! Z.to_nat (size ss - 1) = Some le →
  inv (mk (<[idx e := -1]> (<[idx le := Z.of_nat d]> (sparse ss)))
          (<[d := le]> (dense ss))
          (size ss - 1)).
Proof.
  intros Hinv Hd He Hle.
  pose proof (inv_size ss Hinv) as Hsz.
  destruct (inv_slot ss Hinv d e Hd He) as [_ Hse].
  destruct (inv_slot ss Hinv (Z.to_nat (size ss - 1)) le) as [Hlen Hsl]; [lia|done|].
  split; simpl.
  - unfold Go.len in *. rewrite length_insert. lia.
  - unfold Go.len. rewrite !length_insert. apply (inv_sparse ss Hinv).
  - intros i x Hi Hx.
    assert (idx le ≠ idx e ∨ Z.of_nat d = size ss - 1) as Hle_e.
    { destruct (decide (idx le = idx e)) as [Heq|]; [right|by left].
      rewrite Heq in Hsl. rewrite Hse in Hsl. injection Hsl. lia. }
    destruct (decide (i = d)) as [->|Hid].
    + rewrite list_lookup_insert_eq in Hx by (by eapply lookup_lt_Some).
      injection Hx as <-. split; [done|].
      destruct Hle_e as [Hne|]; [|lia].
      rewrite list_lookup_insert_ne by done.
      apply list_lookup_insert_eq. by eapply lookup_lt_Some.
    + rewrite list_lookup_insert_ne in Hx by done.
      destruct (inv_slot ss Hinv i x) as [Hxn Hsx]; [lia|done|].
      split; [done|].
      rewrite !list_lookup_insert_ne; [done| |].
      * intros Heq. rewrite Heq in Hsl. rewrite Hsx in Hsl. injection Hsl. lia.
      * intros Heq. rewrite Heq in Hse. rewrite Hsx in Hse. injection Hse. lia.
Qed.

Lemma Remove_inv (ss : t) (e : Z) :
  inv ss → ∃ b ss', Remove ss e = Some (b, ss') ∧ inv ss'.
Proof.
  intros Hinv. destruct (decide (e ∈ live ss)) as [Hin|Hnin].
  - destruct (Remove_member ss e Hinv Hin) as (d & le & Hd & He & Hle & ->).
    do 2 eexists. split; [done|]. by apply Remove_member_inv.
  - rewrite Remove_absent by done. eauto.
Qed.

(** [Remove] brings no entity in. *)
Lemma Remove_live_subset (ss ss' : t) (e : Z) (b : bool) :
  inv ss → Remove ss e = Some (b, ss') → ∀ x, x ∈ live ss' → x ∈ live ss.
Proof.
  intros Hinv Hrm x. destruct (decide (e ∈ live ss)) as [Hin|Hnin].
  - destruct (Remove_member ss e Hinv Hin) as (d & le & Hd & He & Hle & Heq).
    rewrite Heq in Hrm. injection Hrm as _ <-.
    intros (k & Hk & Hx)%elem_of_live. simpl in *. apply elem_of_live.
    destruct (decide (k = d)) as [->|Hkd].
    + rewrite list_lookup_insert_eq in Hx by (by eapply lookup_lt_Some).
      injection Hx as <-. exists (Z.to_nat (size ss - 1)). split; [lia|done].
    + rewrite list_lookup_insert_ne in Hx by done. exists k. split; [lia|done].
  - rewrite Remove_absent in Hrm by done. by injection Hrm as _ <-.
Qed.

Lemma Clear_inv (ss : t) : inv ss → inv (Clear ss).
Proof.
  intros Hinv. split; simpl.
  - pose proof (inv_size ss Hinv). lia.
  - unfold Go.len. rewrite length_fmap. apply (inv_sparse ss Hinv).
  - intros i e Hi. lia.
Qed.

Lemma Swap_inv (ss : t) (i j : Z) :
  inv ss → ∃ ss', Swap ss i j = Some ss' ∧ inv ss' ∧ size ss' = size ss.
Proof.
  intros Hinv. unfold Swap.
  pose proof (inv_size ss Hinv) as Hsz. pose proof (size_small ss Hinv) as Hsmall.
  destruct (decide (0 ≤ i < size ss ∧ 0 ≤ j < size ss)) as [[Hi Hj]|Hout]; last first.
  { exists ss. split; [|done].
    do 4 (case_bd; simpl; try done). lia. }
  rewrite (bool_decide_eq_false_2 (i < 0)), (bool_decide_eq_false_2 (size ss ≤ i)),
    (bool_decide_eq_false_2 (j < 0)), (bool_decide_eq_false_2 (size ss ≤ j)) by lia.
  simpl.
  destruct (lookup_lt_is_Some_2 (dense ss) (Z.to_nat i)) as [a Ha];
    [unfold Go.len in *; lia|].
  destruct (lookup_lt_is_Some_2 (dense ss) (Z.to_nat j)) as [b Hb];
    [unfold Go.len in *; lia|].
  destruct (inv_slot ss Hinv (Z.to_nat i) a ltac:(lia) Ha) as [Han Hsa].
  destruct (inv_slot ss Hinv (Z.to_nat j) b ltac:(lia) Hb) as [Hbn Hsb].
  rewrite (proj2 (GoFacts.index_Some (dense ss) i a)) by (split; [lia|done]). simpl.
  rewrite (proj2 (GoFacts.index_Some (dense ss) j b)) by (split; [lia|done]). simpl.
  rewrite (GoFacts.store_Some (dense ss)) by (unfold Go.len in *; lia). simpl.
  rewrite (GoFacts.store_Some (<[_ := _]> (dense ss)))
    by (unfold Go.len in *; rewrite length_insert; lia).
  simpl.
  rewrite store_idx by (by eapply lookup_lt_Some). simpl.
  rewrite store_idx by (rewrite length_insert; by eapply lookup_lt_Some). simpl.
  rewrite !GoFacts.int32_small by lia.
  eexists. split; [reflexivity|]. split; [|done].
  split; simpl.
  - unfold Go.len in *. rewrite !length_insert. lia.
  - unfold Go.len. rewrite !length_insert. apply (inv_sparse ss Hinv).
  - intros k x Hk Hx.
    assert (idx a = idx b → i = j) as Hab.
    { intros Heq. rewrite Heq in Hsa. rewrite Hsa in Hsb. injection Hsb. lia. }
    destruct (decide (k = Z.to_nat j)) as [->|Hkj].
    + rewrite list_lookup_insert_eq in Hx
        by (rewrite length_insert; by eapply lookup_lt_Some).
      injection Hx as <-. split; [done|].
      destruct (decide (idx b = idx a)) as [Heq|Hne].
      * rewrite Heq. rewrite list_lookup_insert_eq
          by (rewrite length_insert; by eapply lookup_lt_Some).
        f_equal. symmetry in Heq. apply Hab in Heq. lia.
      * rewrite list_lookup_insert_ne by done.
        rewrite list_lookup_insert_eq by (by eapply lookup_lt_Some).
        f_equal. lia.
    + rewrite list_lookup_insert_ne in Hx by done.
      destruct (decide (k = Z.to_nat i)) as [->|Hki].
      * rewrite list_lookup_insert_eq in Hx by (by eapply lookup_lt_Some).
        injection Hx as <-. split; [done|].
        rewrite list_lookup_insert_eq
          by (rewrite length_insert; by eapply lookup_lt_Some).
        f_equal. lia.
      * rewrite list_lookup_insert_ne in Hx by done.
        destruct (inv_slot ss Hinv k x Hk Hx) as [Hxn Hsx].
        split; [done|].
        rewrite !list_lookup_insert_ne; [done| |].
        -- intros Heq. rewrite Heq in Hsa. rewrite Hsx in Hsa. injection Hsa. lia.
        -- intros Heq. rewrite Heq in Hsb. rewrite Hsx in Hsb. injection Hsb. lia.
Qed.

Lemma sort_step_inv (less : t → Z → Z → bool) (ss : t) (j : Z) :
  inv ss → 0 ≤ j → j + 1 < size ss →
  ∃ ss', sort_step less ss j = Some ss' ∧ inv ss' ∧ size ss' = size ss.
Proof.
  intros Hinv Hj Hj1. unfold sort_step.
  pose proof (inv_size ss Hinv) as Hsz.
  destruct (GoFacts.index_is_Some (dense ss) (j + 1)) as [a ->]; [lia|].
  destruct (GoFacts.index_is_Some (dense ss) j) as [b ->]; [lia|].
  simpl. destruct (less ss a b); [by apply Swap_inv|eauto].
Qed.

(** The bubble sort never faults and keeps the invariant and the size. *)
Lemma Sort_inv (ss : t) (less : t → Z → Z → bool) :
  inv ss → ∃ ss', Sort ss less = Some ss' ∧ inv ss' ∧ size ss' = size ss.
Proof.
  intros Hinv. unfold Sort.
  apply (GoFacts.for_each_preserves (λ s, inv s ∧ size s = size ss)); [|done].
  intros s i [Hi _]%elem_of_seqZ [Hs Hsize].
  apply (GoFacts.for_each_preserves (λ s', inv s' ∧ size s' = size ss)); [|done].
  intros s' j [Hj Hj']%elem_of_seqZ [Hs' Hsize'].
  destruct (sort_step_inv less s' j Hs') as (s'' & -> & ? & ?); [lia..|].
  exists s''. split; [done|]. split; [done|]. congruence.
Qed.

Lemma existsb_elem (l : list Z) (e : Z) :
  existsb (λ x, bool_decide (x = e)) l = bool_decide (e ∈ l).
Proof.
  induction l as [|x l IH].
  - symmetry. apply bool_decide_eq_false_2, not_elem_of_nil.
  - cbn [existsb]. rewrite IH. destruct (decide (x = e)) as [->|Hne].
    + rewrite (bool_decide_eq_true_2 (e = e)) by done. simpl.
      symmetry. apply bool_decide_eq_true_2. left.
    + rewrite (bool_decide_eq_false_2 (x = e)) by done. simpl.
      apply bool_decide_ext. rewrite elem_of_cons.
      split; [by right|]. by intros [?|?].
Qed.

Lemma collect_present (ss : t) (l acc : list Z) :
  inv ss →
  Go.for_each
    (λ newDense entity,
       present ← Contains ss entity;
       Some (if (present : bool) then newDense ++ [entity] else newDense)) l acc
  = Some (acc ++ filter (λ e, e ∈ live ss) l).
Proof.
  intros Hinv. revert acc. induction l as [|x l IH]; intros acc; simpl.
  - by rewrite app_nil_r.
  - rewrite (inv_Contains ss Hinv). simpl. rewrite filter_cons.
    destruct (decide (x ∈ live ss)) as [Hx|Hx].
    + rewrite bool_decide_eq_true_2 by done. rewrite IH. by rewrite <-app_assoc.
    + rewrite bool_decide_eq_false_2 by done. apply IH.
Qed.

(** The first loop of [Respect] filters the live entities of [other]. *)
Lemma respect_present_filter (ss other : t) :
  inv ss → 0 ≤ size other ≤ Go.len (dense other) →
  respect_present ss other = Some (filter (λ e, e ∈ live ss) (live other)).
Proof.
  intros Hinv Hsz. unfold respect_present.
  replace (size other) with (Z.of_nat (Z.to_nat (size other))) at 1 by lia.
  etrans.
  { apply (GoFacts.for_each_indexed
             (λ newDense entity,
                present ← Contains ss entity;
                Some (if (present : bool) then newDense ++ [entity] else newDense))).
    unfold Go.len in *. lia. }
  by rewrite collect_present.
Qed.

Lemma filter_ext_elem (P Q : Z → Prop) `{!∀ x, Decision (P x), !∀ x, Decision (Q x)}
    (l : list Z) :
  (∀ x, x ∈ l → P x ↔ Q x) → filter P l = filter Q l.
Proof.
  induction l as [|x l IH]; intros Hext; [done|].
  rewrite !filter_cons. rewrite IH by (intros y Hy; apply Hext; by right).
  destruct (decide (P x)) as [HP|HP], (decide (Q x)) as [HQ|HQ]; try done.
  - apply Hext in HP; [done|left].
  - apply Hext in HQ; [done|left].
Qed.

(** The second loop appends the entities not collected yet. *)
Lemma respect_rest_filter (ss : t) (acc : list Z) :
  inv ss →
  respect_rest ss acc = Some (acc ++ filter (λ e, e ∉ acc) (live ss)).
Proof.
  intros Hinv. unfold respect_rest.
  pose proof (inv_size ss Hinv) as Hsz.
  replace (size ss) with (Z.of_nat (Z.to_nat (size ss))) at 1 by lia.
  etrans.
  { apply (GoFacts.for_each_indexed
             (λ newDense entity,
                let found := existsb (λ x, bool_decide (x = entity)) newDense in
                Some (if negb found then newDense ++ [entity] else newDense))).
    unfold Go.len in *. lia. }
  fold (live ss). pose proof (live_NoDup ss Hinv) as Hnd.
  revert Hnd. generalize (live ss). intros l. revert acc.
  induction l as [|x l IH]; intros acc Hnd; simpl.
  - by rewrite app_nil_r.
  - apply NoDup_cons in Hnd as [Hxl Hnd].
    rewrite existsb_elem, filter_cons.
    destruct (decide (x ∈ acc)) as [Hx|Hx].
    + rewrite bool_decide_eq_true_2 by done. simpl.
      rewrite decide_False by (intros ?; done). by apply IH.
    + rewrite bool_decide_eq_false_2 by done. simpl.
      rewrite decide_True by done. rewrite IH by done.
      rewrite <-app_assoc. simpl. do 3 f_equal.
      apply filter_ext_elem. intros y Hy.
      rewrite elem_of_app, list_elem_of_singleton.
      split; [tauto|]. intros Hn [?| ->]; done.
Qed.

(** The last loop makes every sparse entry point at the new position. *)
Lemma respect_reindex_spec (l : list Z) (sp : list Z) :
  NoDup (idx <$> l) → (∀ x, x ∈ l → (idx x < length sp)%nat) →
  Z.of_nat (length l) ≤ 2 ^ 31 →
  ∃ sp', respect_reindex sp l = Some sp' ∧ length sp' = length sp ∧
         ∀ (i : nat) (x : Z), l !! i = Some x → sp' !! idx x = Some (Z.of_nat i).
Proof.
  unfold respect_reindex. induction l as [|y l IH] using rev_ind; intros Hnd Hlt Hlen.
  - exists sp. simpl. split; [done|]. split; [done|]. intros i x Hx. done.
  - rewrite fmap_app in Hnd. apply NoDup_app in Hnd as (Hnd & Hdisj & _).
    rewrite length_app in Hlen. simpl in Hlen.
    destruct IH as (sp1 & Hrun & Hlen1 & Hsp1); [done| |lia|].
    { intros x Hx. apply Hlt, elem_of_app. by left. }
    rewrite imap_app, GoFacts.for_each_app, Hrun. simpl.
    rewrite Nat.add_0_r, GoFacts.int32_small by lia.
    rewrite store_idx
      by (rewrite Hlen1; apply Hlt, elem_of_app; right; apply list_elem_of_singleton; done).
    simpl. eexists. split; [reflexivity|]. rewrite length_insert. split; [done|].
    intros i x Hx. apply lookup_app_Some in Hx as [Hx|[Hi Hx]].
    + rewrite list_lookup_insert_ne; [by apply Hsp1|].
      intros Heq. apply (Hdisj (idx x)).
      * apply list_elem_of_fmap. exists x. split; [done|]. by eapply list_elem_of_lookup_2.
      * rewrite <-Heq. simpl. left.
    + apply list_lookup_singleton_Some in Hx as [Hi0 <-].
      assert (i = length l) as -> by lia.
      apply list_lookup_insert_eq. rewrite Hlen1. apply Hlt, elem_of_app. right. left.
Qed.

(** [Respect] permutes the live entities and keeps the invariant. *)
Lemma Respect_inv (ss other : t) :
  inv ss → inv other →
  ∃ ss', Respect ss other = Some ss' ∧ inv ss' ∧ size ss' = size ss ∧
         live ss' ≡ₚ live ss.
Proof.
  intros Hinv Hother. unfold Respect. case_bd; [by exists ss|].
  rewrite (respect_present_filter ss other Hinv (inv_size other Hother)). simpl.
  rewrite (respect_rest_filter ss _ Hinv). simpl.
  set (nd1 := filter (λ e, e ∈ live ss) (live other)).
  set (nd2 := nd1 ++ filter (λ e, e ∉ nd1) (live ss)).
  assert (∀ x, x ∈ nd2 ↔ x ∈ live ss) as Hmem.
  { intros x. unfold nd2. rewrite elem_of_app, (list_elem_of_filter _ (live ss)).
    split.
    - intros [[? _]%list_elem_of_filter | [_ ?]]; done.
    - intros Hx. destruct (decide (x ∈ nd1)); [by left|by right]. }
  assert (NoDup nd2) as Hnd2.
  { apply NoDup_app. split; [apply NoDup_filter, live_NoDup, Hother|].
    split; [|apply NoDup_filter, live_NoDup, Hinv].
    intros x Hx [Hnx _]%list_elem_of_filter. done. }
  assert (nd2 ≡ₚ live ss) as Hperm.
  { apply NoDup_Permutation; [done|by apply live_NoDup|done]. }
  assert (length nd2 = Z.to_nat (size ss)) as Hlen.
  { by rewrite Hperm, live_length. }
  pose proof (inv_size ss Hinv) as Hsz. pose proof (size_small ss Hinv) as Hsmall.
  rewrite GoFacts.slice_to_Some by (unfold Go.len in *; lia). simpl.
  destruct (respect_reindex_spec nd2 (sparse ss)) as (sp' & -> & Hlen' & Hsp').
  { rewrite Hperm. by apply live_idx_NoDup. }
  { intros x (i & Hi & Hx)%Hmem%elem_of_live.
    destruct (inv_slot ss Hinv i x Hi Hx) as [_ Hs]. by eapply lookup_lt_Some. }
  { lia. }
  simpl. eexists. split; [reflexivity|].
  split; [|split; [done|]]; last first.
  { unfold live at 1. simpl. rewrite <-Hlen. by rewrite take_app_length. }
  split; simpl.
  - unfold Go.len in *. rewrite length_app, length_drop. lia.
  - unfold Go.len. rewrite Hlen'. apply (inv_sparse ss Hinv).
  - intros i x Hi Hx. rewrite lookup_app_l in Hx by lia.
    split; [|by apply Hsp'].
    assert (x ∈ live ss) as (k & Hk & Hxk)%elem_of_live
      by (apply Hmem; by eapply list_elem_of_lookup_2).
    by destruct (inv_slot ss Hinv k x Hk Hxk).
Qed.

End SparseSetSteps.


(** ** Sparse set: the checked properties *)

Module SparseSetClaims.
Import SparseSet SparseSetFacts SparseSetInv SparseSetSteps.

(** The sets obtained from the empty one by any finite sequence of
    operations; the argument of [Respect] is such a set too. *)
Inductive reach_any : t → Prop :=
| ra_new : reach_any NewSparseSet
| ra_insert ss e b ss' :
    reach_any ss → Insert ss e = Some (b, ss') → reach_any ss'
| ra_remove ss e b ss' :
    reach_any ss → Remove ss e = Some (b, ss') → reach_any ss'
| ra_clear ss : reach_any ss → reach_any (Clear ss)
| ra_swap ss i j ss' :
    reach_any ss → Swap ss i j = Some ss' → reach_any ss'
| ra_sort ss less ss' :
    reach_any ss → Sort ss less = Some ss' → reach_any ss'
| ra_respect ss other ss' :
    reach_any ss → reach_any other → Respect ss other = Some ss' → reach_any ss'.

(** The same, with [Insert] called only on entities whose slot holds no
    other generation. *)
Inductive reach : t → Prop :=
| r_new : reach NewSparseSet
| r_insert ss e b ss' :
    reach ss → no_clash ss e → Insert ss e = Some (b, ss') → reach ss'
| r_remove ss e b ss' :
    reach ss → Remove ss e = Some (b, ss') → reach ss'
| r_clear ss : reach ss → reach (Clear ss)
| r_swap ss i j ss' :
    reach ss → Swap ss i j = Some ss' → reach ss'
| r_sort ss less ss' :
    reach ss → Sort ss less = Some ss' → reach ss'
| r_respect ss other ss' :
    reach ss → reach other → Respect ss other = Some ss' → reach ss'.

Lemma reach_inv (ss : t) : reach ss → inv ss.
Proof.
  induction 1 as [|ss e b ss' _ IH Hc Hop|ss e b ss' _ IH Hop|ss _ IH
                 |ss i j ss' _ IH Hop|ss less ss' _ IH Hop
                 |ss other ss' _ IH _ IHo Hop].
  - apply NewSparseSet_inv.
  - destruct (Insert_inv ss e IH Hc) as (b0 & s0 & Heq & ?). congruence.
  - destruct (Remove_inv ss e IH) as (b0 & s0 & Heq & ?). congruence.
  - by apply Clear_inv.
  - destruct (Swap_inv ss i j IH) as (s0 & Heq & ? & _). congruence.
  - destruct (Sort_inv ss less IH) as (s0 & Heq & ? & _). congruence.
  - destruct (Respect_inv ss other IH IHo) as (s0 & Heq & ? & _). congruence.
Qed.

(** No operation faults on a set that satisfies the invariant. *)
Lemma inv_no_panic (ss : t) :
  inv ss →
  (∀ e, is_Some (Contains ss e)) ∧
  (∀ e, no_clash ss e → is_Some (Insert ss e)) ∧
  (∀ e, is_Some (Remove ss e)) ∧
  (∀ i j, is_Some (Swap ss i j)) ∧
  (∀ less, is_Some (Sort ss less)) ∧
  (∀ other, inv other → is_Some (Respect ss other)) ∧
  is_Some (Data ss).
Proof.
  intros Hinv. repeat split.
  - intros e. by apply inv_Contains_total.
  - intros e Hc. destruct (Insert_inv ss e Hinv Hc) as (? & ? & -> & _). eauto.
  - intros e. destruct (Remove_inv ss e Hinv) as (? & ? & -> & _). eauto.
  - intros i j. destruct (Swap_inv ss i j Hinv) as (? & -> & _). eauto.
  - intros less. destruct (Sort_inv ss less Hinv) as (? & -> & _). eauto.
  - intros other Ho. destruct (Respect_inv ss other Hinv Ho) as (? & -> & _). eauto.
  - unfold Data. rewrite GoFacts.slice_to_Some by apply (inv_size ss Hinv). eauto.
Qed.

Definition e50 : Z := Entity.makeEntity 5 0.
Definition e51 : Z := Entity.makeEntity 5 1.
Definition e70 : Z := Entity.makeEntity 7 0.

(** The set after [Insert(5.0)], [Insert(7.0)], [Remove(5.0)]. *)
Definition after_remove : t := mk [-1; -1; -1; -1; -1; -1; -1; 0] [e70; e70] 1.

(** The set after [Insert(5.0)], [Insert(5.1)]: two generations of slot 5. *)
Definition two_generations : t := mk [-1; -1; -1; -1; -1; 1] [e50; e51] 2.

(** The set after [Insert(5.0)], [Insert(5.1)], [Insert(5.0)]: the first
    handle is stored twice. *)
Definition stored_twice : t := mk [-1; -1; -1; -1; -1; 2] [e50; e51; e50] 3.

Lemma reach_after_remove : reach after_remove.
Proof.
  eapply (r_remove _ e50 true); [eapply (r_insert _ e70 true);
    [eapply (r_insert _ e50 true); [apply r_new| |reflexivity]| |reflexivity]|reflexivity].
  - apply (bool_decide_unpack _). exact I.
  - apply (bool_decide_unpack _). exact I.
Defined.

Lemma reach_any_two_generations : reach_any two_generations.
Proof.
  eapply (ra_insert _ e51 true); [eapply (ra_insert _ e50 true); [apply ra_new|]|];
    reflexivity.
Qed.

Lemma reach_any_stored_twice : reach_any stored_twice.
Proof.
  eapply (ra_insert _ e50 true); [apply reach_any_two_generations|reflexivity].
Qed.

(** C3, as stated, fails: after [Insert(5.0)] and [Insert(5.1)] the sparse
    entry of slot 5 points at dense position 1, so position 0 is no longer
    pointed back to; one more [Insert(5.0)] stores a duplicate. *)
Lemma density_fails_without_discipline :
  ¬ (∀ ss, reach_any ss → density ss) ∧
  (reach_any two_generations ∧
   Go.index (dense two_generations) 0 = Some e50 ∧
   Go.index (sparse two_generations) (Entity.Index e50) = Some 1) ∧
  (reach_any stored_twice ∧ ¬ NoDup (live stored_twice)).
Proof.
  split; [|split].
  - intros H. destruct (H _ reach_any_two_generations) as [_ Hd].
    destruct (Hd 0) as (e & He & Hs); [done|].
    injection He as <-. discriminate Hs.
  - split; [apply reach_any_two_generations|]. split; reflexivity.
  - split; [apply reach_any_stored_twice|].
    intros Hnd. apply NoDup_cons in Hnd as [Hnin _]. apply Hnin.
    right. left.
Qed.

(** C3 (amended): after any finite sequence of [Insert], [Remove], [Clear],
    [Swap], [Sort] and [Respect] starting from the empty set, in which
    [Insert(e)] is only called while no other generation of [e]'s index is
    stored, [dense[0..size)] has no duplicates and
    [sparse[dense[i].Index()] == i] for every [0 <= i < size]. *)
Theorem reach_density (ss : t) : reach ss → density ss.
Proof. intros Hr. apply inv_density, reach_inv, Hr. Qed.

Lemma reach_density_witness : density after_remove.
Proof. apply reach_density. exact reach_after_remove. Defined.

Lemma Contains_stale (ss : t) (e e' : Z) :
  holds ss e → Entity.Index e' = Entity.Index e → e' ≠ e →
  Contains ss e' = Some false.
Proof.
  intros (_ & d & Hd & Hr & Hx) Hi Hne. unfold Contains.
  destruct (Entity.IsValid e'); simpl; [|done]. rewrite Hi.
  pose proof (GoFacts.index_lt _ _ _ Hd).
  rewrite bool_decide_eq_false_2 by lia. rewrite Hd. simpl.
  rewrite (bool_decide_eq_true_2 (0 ≤ d)), (bool_decide_eq_true_2 (d < size ss)) by lia.
  simpl. rewrite Hx. simpl. by rewrite bool_decide_eq_false_2 by congruence.
Qed.

(** C7: [Contains(e)] is true exactly when [e] is not the null sentinel,
    [sparse[e.Index()]] is a dense index in [[0, size)] and the dense entry
    there is [e] itself; it is false otherwise (and cannot fault while
    [size] is within [dense]); being [e] itself means having its index and
    its generation; a handle of the same index with another generation is
    reported absent. *)
Theorem Contains_exact (ss : t) (e : Z) :
  (Contains ss e = Some true ↔ holds ss e) ∧
  (size ss ≤ Go.len (dense ss) → ¬ holds ss e → Contains ss e = Some false) ∧
  (∀ x, 0 ≤ x < 2 ^ 32 → 0 ≤ e < 2 ^ 32 →
        x = e ↔ Entity.Index x = Entity.Index e ∧
                Entity.Generation x = Entity.Generation e) ∧
  (∀ e', holds ss e → Entity.Index e' = Entity.Index e →
         Entity.Generation e' ≠ Entity.Generation e →
         Contains ss e' = Some false).
Proof.
  split; [apply Contains_true|]. split; [apply Contains_false|].
  split; [intros x; apply entity_eq_iff|].
  intros e' He Hi Hg. apply (Contains_stale ss e e' He Hi). congruence.
Qed.

(** Slot 5 holds generation 1: the handle of generation 0 is stale. *)
Definition slot5_gen1 : t := mk [-1; -1; -1; -1; -1; 0] [e51] 1.

Lemma Contains_exact_witness :
  Contains slot5_gen1 e51 = Some true ∧ Contains slot5_gen1 e50 = Some false.
Proof.
  destruct (Contains_exact slot5_gen1 e51) as (Hiff & _ & _ & Hstale).
  assert (holds slot5_gen1 e51) as Hh.
  { split; [done|]. exists 0. repeat split; done. }
  split; [by apply Hiff|]. apply Hstale; [done|reflexivity|]. by vm_compute.
Defined.

(** C10: [At(i)] returns [NullEntity] whenever [i < 0] or [i >= size], without
    touching the arrays, and [dense[i]] otherwise; on a set that satisfies the
    invariant an in-range access yields a valid entity, never the sentinel. *)
Theorem At_bounds_safe (ss : t) (i : Z) :
  (i < 0 ∨ size ss ≤ i → At ss i = Some Entity.NullEntity) ∧
  (0 ≤ i < size ss → At ss i = Go.index (dense ss) i) ∧
  (inv ss → 0 ≤ i < size ss →
   ∃ e, At ss i = Some e ∧ dense ss !! Z.to_nat i = Some e ∧
        e ≠ Entity.NullEntity ∧ Entity.IsValid e = true).
Proof.
  split; [apply At_out_of_range|]. split; [apply At_in_range|].
  intros Hinv Hi. rewrite At_in_range by done.
  pose proof (inv_size ss Hinv) as Hsz.
  destruct (lookup_lt_is_Some_2 (dense ss) (Z.to_nat i)) as [e He].
  { unfold Go.len in *. lia. }
  destruct (inv_slot ss Hinv (Z.to_nat i) e) as [Hne _]; [lia|done|].
  exists e. split; [apply GoFacts.index_Some; split; [lia|done]|].
  split; [done|]. split; [done|]. by apply EntityFacts.IsValid_true.
Qed.

Lemma At_bounds_safe_witness :
  At after_remove (-1) = Some Entity.NullEntity ∧
  At after_remove 1 = Some Entity.NullEntity ∧
  At after_remove 0 = Some e70.
Proof.
  split; [apply (At_bounds_safe after_remove (-1)); lia|].
  split; [apply (At_bounds_safe after_remove 1); right; reflexivity|].
  destruct (At_bounds_safe after_remove 0) as (_ & _ & H).
  destruct H as (e & -> & He & _); [exact (reach_inv _ reach_after_remove)|done|].
  simpl in He. by injection He as ->.
Defined.

End SparseSetClaims.

(** ** Component pools: swap-and-pop removal *)

Module PoolFacts.
Import SparseSetFacts SparseSetInv SparseSetSteps.

Section Pool.
Context {T : Type}.
Implicit Types (cp : ComponentPool.t T) (e x : Z).

(** A pool is well formed when its sparse set is and every live dense
    position has a component value. *)
Definition pool_inv cp : Prop :=
  inv (ComponentPool.entities cp) ∧
  SparseSet.size (ComponentPool.entities cp) ≤ Go.len (ComponentPool.components cp).

Lemma NewComponentPool_inv : pool_inv (@ComponentPool.NewComponentPool T).
Proof. split; [apply NewSparseSet_inv|]. unfold Go.len. simpl. lia. Qed.

Lemma Index_member (ss : SparseSet.t) e (k : nat) :
  inv ss → Z.of_nat k < SparseSet.size ss → SparseSet.dense ss !! k = Some e →
  SparseSet.Index ss e = Some (Z.of_nat k).
Proof.
  intros Hinv Hk He. unfold SparseSet.Index. rewrite (inv_Contains ss Hinv).
  rewrite bool_decide_eq_true_2 by (apply elem_of_live; eauto). simpl.
  rewrite index_idx. by destruct (inv_slot ss Hinv k e Hk He).
Qed.

Lemma Contains_member cp e :
  pool_inv cp →
  ComponentPool.Contains cp e = Some true ↔ e ∈ live (ComponentPool.entities cp).
Proof.
  intros [Hinv _]. unfold ComponentPool.Contains.
  rewrite Contains_true. by apply holds_live.
Qed.

(** The value of a member is the one stored at its dense position. *)
Lemma Get_member cp e (k : nat) (v : T) :
  pool_inv cp →
  Z.of_nat k < SparseSet.size (ComponentPool.entities cp) →
  SparseSet.dense (ComponentPool.entities cp) !! k = Some e →
  ComponentPool.components cp !! k = Some v →
  ComponentPool.Get cp e = Some (Some v).
Proof.
  intros [Hinv Hlen] Hk He Hv. unfold ComponentPool.Get.
  rewrite (inv_Contains _ Hinv).
  rewrite bool_decide_eq_true_2 by (apply elem_of_live; eauto). simpl.
  rewrite (Index_member _ e k) by done. simpl.
  by rewrite GoFacts.index_nat, Hv.
Qed.

Lemma Remove_absent_pool cp e :
  ComponentPool.Contains cp e = Some false → ComponentPool.Remove cp e = Some (false, cp).
Proof.
  unfold ComponentPool.Contains, ComponentPool.Remove. by intros ->.
Qed.

(** What it takes for the pool operations not to fault. *)
Definition pool_bounded cp : Prop :=
  bounded (ComponentPool.entities cp) ∧
  SparseSet.size (ComponentPool.entities cp) ≤ Go.len (ComponentPool.components cp).

Lemma pool_inv_bounded cp : pool_inv cp → pool_bounded cp.
Proof. intros [Hinv Hlen]. split; [by apply inv_bounded|done]. Qed.

(** The result of removing a member, in closed form. *)
Lemma Remove_holds_pool cp e :
  pool_bounded cp → holds (ComponentPool.entities cp) e →
  ∃ (d : nat) (le : Z) (lv : T),
    let es := ComponentPool.entities cp in
    Z.of_nat d < SparseSet.size es ∧
    SparseSet.sparse es !! idx e = Some (Z.of_nat d) ∧
    SparseSet.dense es !! d = Some e ∧
    SparseSet.dense es !! Z.to_nat (SparseSet.size es - 1) = Some le ∧
    ComponentPool.components cp !! Z.to_nat (SparseSet.size es - 1) = Some lv ∧
    ComponentPool.Remove cp e
    = Some (true,
            ComponentPool.mk
              (SparseSet.mk (<[idx e := -1]> (<[idx le := Z.of_nat d]> (SparseSet.sparse es)))
                            (<[d := le]> (SparseSet.dense es))
                            (SparseSet.size es - 1))
              (<[d := lv]> (ComponentPool.components cp))).
Proof.
  intros [Hb Hlen] Hh.
  destruct (Remove_holds _ e Hb Hh) as (d & le & Hd & Hse & He & Hle & Hrm).
  destruct Hb as (Hsz & _).
  destruct (lookup_lt_is_Some_2 (ComponentPool.components cp)
              (Z.to_nat (SparseSet.size (ComponentPool.entities cp) - 1))) as [lv Hlv].
  { unfold Go.len in *. lia. }
  exists d, le, lv. simpl. repeat split; [done..|].
  pose proof (proj2 (Contains_true _ e) Hh) as Hc.
  unfold ComponentPool.Remove, SparseSet.Index. rewrite Hc. simpl.
  rewrite index_idx, Hse. simpl. unfold SparseSet.Size.
  destruct (decide (Z.of_nat d = SparseSet.size (ComponentPool.entities cp) - 1))
    as [Heq|Hne].
  - rewrite bool_decide_eq_true_2 by done. simpl. rewrite Hrm. simpl.
    do 3 f_equal. symmetry. apply list_insert_id.
    by replace d with (Z.to_nat (SparseSet.size (ComponentPool.entities cp) - 1)) by lia.
  - rewrite bool_decide_eq_false_2 by done. simpl.
    rewrite (proj2 (GoFacts.index_Some _ _ lv)) by (split; [lia|done]). simpl.
    rewrite GoFacts.store_Some by (unfold Go.len in *; lia). simpl.
    rewrite Hrm. simpl. by rewrite Nat2Z.id.
Qed.

(** [Remove] never faults while the bounds hold, keeps them, and the entity
    is reported absent afterwards. *)
Lemma Remove_post_bounded cp e :
  pool_bounded cp →
  ∃ b cp', ComponentPool.Remove cp e = Some (b, cp') ∧ pool_bounded cp' ∧
           ComponentPool.Contains cp' e = Some false.
Proof.
  intros Hpb. pose proof Hpb as [Hb Hlen]. pose proof Hb as (Hsz & _).
  destruct (Contains_total (ComponentPool.entities cp) e) as [[] Hc]; [lia| |].
  - apply Contains_true in Hc.
    destruct (Remove_holds_pool cp e Hpb Hc)
      as (d & le & lv & Hd & Hse & He & Hle & Hlv & Hrm). simpl in *.
    do 2 eexists. split; [exact Hrm|].
    destruct (Remove_holds_bounded _ e d le Hb Hd Hse Hle) as [Hb' Habs].
    split; [|exact Habs]. split; [exact Hb'|]. simpl.
    unfold Go.len in *. rewrite length_insert. lia.
  - rewrite (Remove_absent_pool cp e Hc). eauto.
Qed.

(** [Insert] never faults while the bounds hold and keeps them, whatever
    the entity (short of [2^31] elements). *)
Lemma Insert_pool_bounded cp e (c : T) :
  pool_bounded cp → SparseSet.size (ComponentPool.entities cp) < 2 ^ 31 →
  ∃ cp', ComponentPool.Insert cp e c = Some cp' ∧ pool_bounded cp'.
Proof.
  intros [Hb Hlen] Hroom. pose proof Hb as (Hsz & _). unfold ComponentPool.Insert.
  destruct (Contains_total (ComponentPool.entities cp) e) as [[] Hc]; [lia| |];
    rewrite Hc; simpl.
  - pose proof Hc as (_ & d & Hd & Hr & _)%Contains_true.
    unfold SparseSet.Index. rewrite Hc. simpl. rewrite Hd. simpl.
    rewrite GoFacts.store_Some by lia. simpl.
    eexists. split; [reflexivity|]. split; [done|]. simpl.
    unfold Go.len in *. by rewrite length_insert.
  - destruct (Insert_bounded _ e Hb Hroom) as (b & es' & -> & Hb' & Hsize).
    simpl. unfold SparseSet.Size. destruct b.
    + destruct (bool_decide_reflect (Go.len (ComponentPool.components cp) ≤ SparseSet.size es' - 1)).
      * eexists. split; [reflexivity|]. split; [done|]. simpl.
        unfold Go.len in *. rewrite length_app. simpl. lia.
      * rewrite GoFacts.store_Some by (unfold Go.len in *; lia). simpl.
        eexists. split; [reflexivity|]. split; [done|]. simpl.
        unfold Go.len in *. rewrite length_insert. lia.
    + eexists. split; [reflexivity|]. split; [done|]. simpl. lia.
Qed.

Lemma Remove_member_pool cp e :
  pool_inv cp → e ∈ live (ComponentPool.entities cp) →
  ∃ (d : nat) (le : Z) (lv : T),
    let es := ComponentPool.entities cp in
    Z.of_nat d < SparseSet.size es ∧
    SparseSet.dense es !! d = Some e ∧
    SparseSet.dense es !! Z.to_nat (SparseSet.size es - 1) = Some le ∧
    ComponentPool.components cp !! Z.to_nat (SparseSet.size es - 1) = Some lv ∧
    ComponentPool.Remove cp e
    = Some (true,
            ComponentPool.mk
              (SparseSet.mk (<[idx e := -1]> (<[idx le := Z.of_nat d]> (SparseSet.sparse es)))
                            (<[d := le]> (SparseSet.dense es))
                            (SparseSet.size es - 1))
              (<[d := lv]> (ComponentPool.components cp))).
Proof.
  intros Hpool Hin. pose proof Hpool as [Hinv _].
  apply (holds_live _ Hinv) in Hin.
  destruct (Remove_holds_pool cp e (pool_inv_bounded cp Hpool) Hin)
    as (d & le & lv & ? & _ & ? & ? & ? & ?).
  exists d, le, lv. simpl. eauto 10.
Qed.

(** The pool left by the removal of a member is well formed and no longer
    holds the entity. *)
Lemma Remove_member_post cp e (d : nat) (le : Z) (lv : T) :
  let es := ComponentPool.entities cp in
  let cp' :=
    ComponentPool.mk
      (SparseSet.mk (<[idx e := -1]> (<[idx le := Z.of_nat d]> (SparseSet.sparse es)))
                    (<[d := le]> (SparseSet.dense es))
                    (SparseSet.size es - 1))
      (<[d := lv]> (ComponentPool.components cp)) in
  pool_inv cp → Z.of_nat d < SparseSet.size es → SparseSet.dense es !! d = Some e →
  SparseSet.dense es !! Z.to_nat (SparseSet.size es - 1) = Some le →
  pool_inv cp' ∧ ComponentPool.Contains cp' e = Some false.
Proof.
  intros es cp' [Hinv Hlen] Hd He Hle.
  pose proof (Remove_member_inv es e d le Hinv Hd He Hle) as Hinv'.
  split.
  - split; [exact Hinv'|]. simpl. unfold Go.len in *. rewrite length_insert.
    fold es in Hlen. lia.
  - unfold ComponentPool.Contains. simpl.
    apply Contains_false; [apply (inv_size _ Hinv')|].
    intros (k & Hk & Hx)%(holds_live _ Hinv')%elem_of_live.
    destruct (inv_slot _ Hinv' k e Hk Hx) as [_ Hs]. simpl in *.
    rewrite list_lookup_insert_eq in Hs.
    + injection Hs. lia.
    + rewrite length_insert.
      destruct (inv_slot es Hinv d e Hd He) as [_ Hse]. by eapply lookup_lt_Some.
Qed.

(** [Insert] never faults on a well-formed pool and keeps it well formed,
    as long as the slot of [e] is not held by another generation. *)
Lemma Insert_pool_post cp e (c : T) :
  pool_inv cp → no_clash (ComponentPool.entities cp) e →
  ∃ cp', ComponentPool.Insert cp e c = Some cp' ∧ pool_inv cp' ∧
         ∀ x, x ∈ live (ComponentPool.entities cp') →
              x = e ∨ x ∈ live (ComponentPool.entities cp).
Proof.
  intros [Hinv Hlen] Hclash. unfold ComponentPool.Insert.
  rewrite (inv_Contains _ Hinv).
  destruct (decide (e ∈ live (ComponentPool.entities cp))) as [Hin|Hnin].
  - rewrite bool_decide_eq_true_2 by done. simpl.
    pose proof Hin as (k & Hk & He)%elem_of_live.
    rewrite (Index_member _ e k) by done. simpl.
    rewrite GoFacts.store_Some by (unfold Go.len in *; lia). simpl.
    eexists. split; [reflexivity|]. split; [|by right].
    split; [done|]. simpl. unfold Go.len in *. by rewrite length_insert.
  - rewrite bool_decide_eq_false_2 by done. simpl.
    destruct (Insert_post _ e Hinv Hclash) as (b & es' & -> & Hinv' & Hsize & Hlive).
    simpl. pose proof (inv_size _ Hinv) as Hsz. unfold SparseSet.Size.
    assert (∀ x, x ∈ live es' → x = e ∨ x ∈ live (ComponentPool.entities cp)) as Hsub.
    { intros x. rewrite Hlive. destruct b; [|by right].
      intros [?| ->%list_elem_of_singleton]%elem_of_app; [by right|by left]. }
    destruct b.
    + destruct (bool_decide_reflect (Go.len (ComponentPool.components cp) ≤ SparseSet.size es' - 1)).
      * eexists. split; [reflexivity|]. split; [|done]. split; [done|]. simpl.
        unfold Go.len in *. rewrite length_app. simpl. lia.
      * rewrite GoFacts.store_Some by (unfold Go.len in *; lia). simpl.
        eexists. split; [reflexivity|]. split; [|done]. split; [done|]. simpl.
        unfold Go.len in *. rewrite length_insert. lia.
    + eexists. split; [reflexivity|]. split; [|done]. split; [done|]. simpl. lia.
Qed.

Lemma Clear_pool_inv cp : pool_inv cp → pool_inv (ComponentPool.Clear cp).
Proof.
  intros [Hinv _]. split; [by apply Clear_inv|]. simpl. unfold Go.len. simpl. lia.
Qed.

(** [Remove] never faults on a well-formed pool, keeps it well formed, and
    the entity is absent afterwards. *)
Lemma Remove_post cp e :
  pool_inv cp →
  ∃ b cp', ComponentPool.Remove cp e = Some (b, cp') ∧ pool_inv cp' ∧
           ComponentPool.Contains cp' e = Some false.
Proof.
  intros Hpool. destruct (decide (e ∈ live (ComponentPool.entities cp))) as [Hin|Hnin].
  - destruct (Remove_member_pool cp e Hpool Hin)
      as (d & le & lv & Hd & He & Hle & Hlv & Hrm). simpl in *.
    do 2 eexists. split; [exact Hrm|]. by apply Remove_member_post.
  - assert (ComponentPool.Contains cp e = Some false) as Hc.
    { unfold ComponentPool.Contains. destruct Hpool as [Hinv _].
      rewrite (inv_Contains _ Hinv). by rewrite bool_decide_eq_false_2. }
    rewrite (Remove_absent_pool cp e Hc). eauto.
Qed.

Lemma Remove_pool_live_subset cp cp' e (b : bool) :
  pool_inv cp → ComponentPool.Remove cp e = Some (b, cp') →
  ∀ x, x ∈ live (ComponentPool.entities cp') → x ∈ live (ComponentPool.entities cp).
Proof.
  intros [Hinv Hlen] Hrm. unfold ComponentPool.Remove in Hrm.
  destruct (SparseSet.Contains _ e) as [[]|]; simpl in Hrm; [| |done].
  - destruct (SparseSet.Index _ e); simpl in Hrm; [|done].
    destruct (if negb _ then _ else _); simpl in Hrm; [|done].
    destruct (SparseSet.Remove _ e) as [[b' es']|] eqn:Hrm'; simpl in Hrm; [|done].
    injection Hrm as _ <-. simpl. by eapply Remove_live_subset.
  - by injection Hrm as _ <-.
Qed.

End Pool.

End PoolFacts.

Module PoolClaims.
Import SparseSetFacts SparseSetInv SparseSetSteps PoolFacts.

(** The pools obtained from the empty one by any finite sequence of
    operations. *)
Inductive made {T : Type} : ComponentPool.t T → Prop :=
| made_new : made ComponentPool.NewComponentPool
| made_insert cp e c cp' :
    made cp → ComponentPool.Insert cp e c = Some cp' → made cp'
| made_remove cp e b cp' :
    made cp → ComponentPool.Remove cp e = Some (b, cp') → made cp'
| made_clear cp : made cp → made (ComponentPool.Clear cp).

Definition e90 : Z := Entity.makeEntity 9 0.

(** The pool after [Insert(9.0, 1)], [Insert(7.0, 2)], [Insert(5.0, 3)],
    [Insert(5.1, 4)], [Remove(9.0)]: slot 5 is held by two generations, and
    the last dense entry is the one that [sparse] does not point at. *)
Definition clash_pool : ComponentPool.t Z :=
  ComponentPool.mk
    (SparseSet.mk [-1; -1; -1; -1; -1; 0; -1; 1; -1; -1]
                  [SparseSetClaims.e51; SparseSetClaims.e70; SparseSetClaims.e50;
                   SparseSetClaims.e51] 3)
    [4; 2; 3; 4].

Lemma made_clash_pool : made clash_pool.
Proof.
  eapply (made_remove _ e90 true);
    [eapply (made_insert _ SparseSetClaims.e51 4);
      [eapply (made_insert _ SparseSetClaims.e50 3);
        [eapply (made_insert _ SparseSetClaims.e70 2);
          [eapply (made_insert _ e90 1); [apply made_new|]|]|]|]|];
    reflexivity.
Qed.

(** C6, as stated, fails on [clash_pool]: [5.1] and [7.0] are members,
    [Remove(7.0)] returns true, and afterwards [5.1] is no longer a member and
    its value cannot be fetched: the last dense entry [5.0] was moved into the
    slot of [7.0] and [sparse[5]] repointed to it. *)
Lemma removal_loses_member_after_clash :
  made clash_pool ∧
  ComponentPool.Contains clash_pool SparseSetClaims.e70 = Some true ∧
  ComponentPool.Contains clash_pool SparseSetClaims.e51 = Some true ∧
  ComponentPool.Get clash_pool SparseSetClaims.e51 = Some (Some 4) ∧
  ∃ cp', ComponentPool.Remove clash_pool SparseSetClaims.e70 = Some (true, cp') ∧
         ComponentPool.Contains cp' SparseSetClaims.e51 = Some false ∧
         ComponentPool.Get cp' SparseSetClaims.e51 = Some None.
Proof.
  split; [apply made_clash_pool|]. do 3 (split; [reflexivity|]).
  eexists. split; [reflexivity|]. split; reflexivity.
Qed.

(** C6 (amended): on a pool that satisfies the sparse-set invariant (so that
    no two stored entities share an index) and has a value for every live
    position, [Remove(e)] of a member returns true, decrements the size,
    makes [e] absent, moves the last dense entity and its value into the slot
    of [e] when [e] was not last (repointing the sparse entry of the moved
    entity), and every other member keeps its value; [Remove] of an absent
    entity returns false and changes nothing. *)
Theorem Remove_swap_and_pop {T : Type} (cp : ComponentPool.t T) (e : Z) :
  pool_inv cp →
  (ComponentPool.Contains cp e = Some true →
   ∃ (cp' : ComponentPool.t T) (d le : Z) (lv : T),
     ComponentPool.Remove cp e = Some (true, cp') ∧
     pool_inv cp' ∧
     ComponentPool.Size cp' = ComponentPool.Size cp - 1 ∧
     ComponentPool.Contains cp' e = Some false ∧
     SparseSet.Index (ComponentPool.entities cp) e = Some d ∧
     Go.index (SparseSet.dense (ComponentPool.entities cp)) (ComponentPool.Size cp - 1)
       = Some le ∧
     Go.index (ComponentPool.components cp) (ComponentPool.Size cp - 1) = Some lv ∧
     (d ≠ ComponentPool.Size cp - 1 →
      Go.index (SparseSet.dense (ComponentPool.entities cp')) d = Some le ∧
      Go.index (ComponentPool.components cp') d = Some lv ∧
      SparseSet.Index (ComponentPool.entities cp') le = Some d) ∧
     (∀ x, x ≠ e → ComponentPool.Contains cp x = Some true →
           ComponentPool.Contains cp' x = Some true ∧
           ∃ v, ComponentPool.Get cp x = Some (Some v) ∧
                ComponentPool.Get cp' x = Some (Some v))) ∧
  (ComponentPool.Contains cp e = Some false →
   ComponentPool.Remove cp e = Some (false, cp)).
Proof.
  intros Hpool. split; [|apply Remove_absent_pool].
  intros Hin%Contains_member; [|done].
  destruct (Remove_member_pool cp e Hpool Hin) as (d & le & lv & Hd & He & Hle & Hlv & Hrm).
  simpl in *. destruct Hpool as [Hinv Hlen].
  set (es := ComponentPool.entities cp) in *.
  set (last := Z.to_nat (SparseSet.size es - 1)) in *.
  pose proof (inv_size es Hinv) as Hsz.
  destruct (Remove_member_post cp e d le lv (conj Hinv Hlen) Hd He Hle) as [Hpool' Habsent].
  pose proof (proj1 Hpool') as Hinv'. simpl in Hinv'. fold es in Hinv'.
  eexists _, (Z.of_nat d), le, lv. split; [exact Hrm|].
  assert (Z.of_nat last = SparseSet.size es - 1) as Hlast by (unfold last; lia).
  unfold ComponentPool.Size, SparseSet.Size. fold es.
  split; [exact Hpool'|]. split; [done|]. split; [exact Habsent|].
  repeat split.
  - by apply Index_member.
  - rewrite <-Hlast, GoFacts.index_nat. exact Hle.
  - rewrite <-Hlast, GoFacts.index_nat. exact Hlv.
  - simpl. rewrite GoFacts.index_nat. apply list_lookup_insert_eq.
    by eapply lookup_lt_Some.
  - simpl. rewrite GoFacts.index_nat. apply list_lookup_insert_eq.
    apply lookup_lt_Some in Hlv. unfold Go.len in *. lia.
  - apply (Index_member _ le d Hinv'); simpl; [lia|].
    apply list_lookup_insert_eq. by eapply lookup_lt_Some.
  - apply Contains_member; [done|]. simpl.
    apply Contains_member in H0 as (k & Hk & Hx)%elem_of_live; [|done]. fold es in Hk, Hx.
    apply elem_of_live. simpl.
    destruct (decide (k = last)) as [->|Hkl].
    + assert (x = le) as -> by congruence.
      assert (d ≠ last) by (intros ->; congruence).
      exists d. split; [lia|]. apply list_lookup_insert_eq. by eapply lookup_lt_Some.
    + exists k. split; [lia|]. rewrite list_lookup_insert_ne; [done|].
      intros ->. congruence.
  - apply Contains_member in H0 as (k & Hk & Hx)%elem_of_live; [|done]. fold es in Hk, Hx.
    destruct (decide (k = last)) as [->|Hkl].
    + assert (x = le) as -> by congruence.
      assert (d ≠ last) by (intros ->; congruence).
      exists lv. split.
      * by apply (Get_member cp le last lv).
      * apply (Get_member _ le d lv Hpool'); simpl; [fold es; lia| |].
        -- apply list_lookup_insert_eq. by eapply lookup_lt_Some.
        -- apply list_lookup_insert_eq. apply lookup_lt_Some in Hlv.
           unfold Go.len in *. lia.
    + assert (k ≠ d) by (intros ->; congruence).
      destruct (lookup_lt_is_Some_2 (ComponentPool.components cp) k) as [v Hv].
      { unfold Go.len in *. lia. }
      exists v. split.
      * by apply (Get_member cp x k v).
      * apply (Get_member _ x k v Hpool'); simpl; [fold es; lia| |];
          by rewrite list_lookup_insert_ne.
Qed.

(** Five entities with one value each. *)
Definition pool5 : ComponentPool.t Z :=
  ComponentPool.mk (SparseSet.mk [0; 1; 2; 3; 4] [0; 1; 2; 3; 4] 5) [10; 11; 12; 13; 14].

Lemma pool5_inv : pool_inv pool5.
Proof.
  split; [|unfold Go.len; simpl; lia].
  split; simpl; [unfold Go.len; simpl; lia..|].
  intros i e Hi He.
  do 5 (destruct i as [|i]; [injection He as <-; split; [done|reflexivity]|]).
  lia.
Defined.

Lemma Remove_swap_and_pop_witness :
  ∃ cp', ComponentPool.Remove pool5 1 = Some (true, cp') ∧
         ComponentPool.Size cp' = 4 ∧
         ComponentPool.Contains cp' 1 = Some false ∧
         ComponentPool.Get cp' 4 = Some (Some 14).
Proof.
  destruct (Remove_swap_and_pop pool5 1 pool5_inv) as [H _].
  destruct H as (cp' & d & le & lv & Hrm & _ & Hsz & Habs & _ & _ & _ & _ & Hrest);
    [reflexivity|].
  exists cp'. split; [exact Hrm|]. split; [exact Hsz|]. split; [exact Habs|].
  destruct (Hrest 4) as [_ (v & Hv & Hv')]; [done|reflexivity|].
  vm_compute in Hv. injection Hv as <-. exact Hv'.
Defined.

End PoolClaims.


(** ** Entity manager *)

Module EntityManagerFacts.
Import EntityManager.

Lemma IsValid_total (em : t) (e : Z) : is_Some (IsValid em e).
Proof.
  unfold IsValid. destruct (Entity.IsValid e); simpl; [|eauto].
  destruct (bool_decide_reflect (Go.uint32 (Go.len (entities em)) ≤ Entity.Index e));
    [eauto|].
  destruct (GoFacts.index_is_Some (entities em) (Entity.Index e)) as [g ->]; [|simpl; eauto].
  pose proof (EntityFacts.Index_range e).
  pose proof (GoFacts.uint32_le (Go.len (entities em))). unfold Go.len in *. lia.
Qed.

(** A handle that [IsValid] accepts is one that [Destroy] accepts. *)
Lemma Destroy_valid (em : t) (e : Z) :
  IsValid em e = Some true → ∃ em', Destroy em e = Some (true, em').
Proof.
  unfold IsValid, Destroy. destruct (Entity.IsValid e); simpl; [|done].
  destruct (bool_decide_reflect (Go.uint32 (Go.len (entities em)) ≤ Entity.Index e));
    [done|].
  destruct (Go.index (entities em) (Entity.Index e)) as [g|] eqn:Hg; simpl; [|done].
  intros [= Hgen]. rewrite Hgen. simpl.
  apply GoFacts.index_lt in Hg.
  destruct (bool_decide (0 ≤ freeHead em)); rewrite GoFacts.store_Some by done;
    simpl; eauto.
Qed.

Lemma Destroy_invalid (em : t) (e : Z) :
  IsValid em e = Some false → Destroy em e = Some (false, em).
Proof.
  unfold IsValid, Destroy. destruct (Entity.IsValid e); simpl; [|done].
  destruct (bool_decide_reflect (Go.uint32 (Go.len (entities em)) ≤ Entity.Index e));
    [done|].
  destruct (Go.index (entities em) (Entity.Index e)) as [g|]; simpl; [|done].
  by intros [= ->].
Qed.

End EntityManagerFacts.

(** ** Registry and world *)

Module RegistryFacts.
Import PoolFacts.

Section Registry.
Context {Val : Type}.
Implicit Types (cr : ComponentRegistry.t Val) (ts : TypedStorage.t Val) (e : Z).

(** Every registered pool is well formed. *)
Definition registry_ok cr : Prop :=
  map_Forall (λ _ ts, pool_inv (TypedStorage.pool ts)) (ComponentRegistry.storages cr).

Lemma NewComponentRegistry_ok : registry_ok (@ComponentRegistry.NewComponentRegistry Val).
Proof. intros id ts Hts. simpl in Hts. by rewrite lookup_empty in Hts. Qed.

(** Every registered pool is within its bounds: no operation faults. *)
Definition registry_bounded cr : Prop :=
  map_Forall (λ _ ts, pool_bounded (TypedStorage.pool ts)) (ComponentRegistry.storages cr).

Lemma registry_ok_bounded cr : registry_ok cr → registry_bounded cr.
Proof. intros Hok id ts Hts. by apply pool_inv_bounded, (Hok id). Qed.

Lemma TypedStorage_Remove_post ts e :
  pool_inv (TypedStorage.pool ts) →
  ∃ b ts', TypedStorage.Remove ts e = Some (b, ts') ∧
           pool_inv (TypedStorage.pool ts').
Proof.
  intros Hp. destruct (Remove_post _ e Hp) as (b & cp' & Hrm & Hp' & Habs).
  unfold TypedStorage.Remove. rewrite Hrm. simpl. eauto.
Qed.

Lemma TypedStorage_Remove_bounded ts e :
  pool_bounded (TypedStorage.pool ts) →
  ∃ b ts', TypedStorage.Remove ts e = Some (b, ts') ∧
           pool_bounded (TypedStorage.pool ts') ∧
           TypedStorage.Contains ts' e = Some false.
Proof.
  intros Hp. destruct (Remove_post_bounded _ e Hp) as (b & cp' & Hrm & Hp' & Habs).
  unfold TypedStorage.Remove. rewrite Hrm. simpl. eauto 10.
Qed.

Lemma RemoveAllComponents_lookup cr cr' e (id : Z) ts' :
  ComponentRegistry.RemoveAllComponents cr e = Some cr' →
  ComponentRegistry.storages cr' !! id = Some ts' →
  ∃ ts (b : bool), ComponentRegistry.storages cr !! id = Some ts ∧
                   TypedStorage.Remove ts e = Some (b, ts').
Proof.
  unfold ComponentRegistry.RemoveAllComponents.
  destruct (bool_decide _); [|done]. intros [= <-]. simpl.
  rewrite lookup_omap, lookup_fmap.
  destruct (ComponentRegistry.storages cr !! id) as [ts|]; simpl; [|done].
  destruct (TypedStorage.Remove ts e) as [[b ts0]|] eqn:Hrm; simpl; [|done].
  intros [= <-]. eauto.
Qed.

(** [RemoveAllComponents] never faults while the pools are within their
    bounds; it keeps the set of registered pools and the type IDs, and leaves
    the entity in none of the pools. *)
Lemma RemoveAllComponents_post cr e :
  registry_bounded cr →
  ∃ cr', ComponentRegistry.RemoveAllComponents cr e = Some cr' ∧
         registry_bounded cr' ∧
         ComponentRegistry.typeToID cr' = ComponentRegistry.typeToID cr ∧
         dom (ComponentRegistry.storages cr') = dom (ComponentRegistry.storages cr) ∧
         ∀ id ts', ComponentRegistry.storages cr' !! id = Some ts' →
                   TypedStorage.Contains ts' e = Some false.
Proof.
  intros Hok.
  assert (∃ cr', ComponentRegistry.RemoveAllComponents cr e = Some cr' ∧
                 ComponentRegistry.typeToID cr' = ComponentRegistry.typeToID cr ∧
                 ComponentRegistry.storages cr'
                 = omap (fmap snd) ((λ ts, TypedStorage.Remove ts e)
                                      <$> ComponentRegistry.storages cr))
    as (cr' & Hall & Hids & Hst).
  { unfold ComponentRegistry.RemoveAllComponents.
    rewrite bool_decide_eq_true_2; [by eexists|].
    apply map_Forall_fmap. intros id ts Hts. simpl.
    destruct (TypedStorage_Remove_bounded ts e (Hok id ts Hts)) as (b & ts' & Hrm & _).
    rewrite Hrm. by eexists. }
  exists cr'. split; [done|].
  split; [|split; [done|split]].
  - intros id ts' (ts & b & Hts & Hrm)%(RemoveAllComponents_lookup _ _ _ _ _ Hall).
    destruct (TypedStorage_Remove_bounded ts e (Hok id ts Hts)) as (b0 & ts0 & Hrm0 & ? & _).
    congruence.
  - rewrite Hst. apply set_eq. intros id. rewrite !elem_of_dom, lookup_omap, lookup_fmap.
    destruct (ComponentRegistry.storages cr !! id) as [ts|] eqn:Hts; simpl.
    + destruct (TypedStorage_Remove_bounded ts e (Hok id ts Hts)) as (b & ts' & -> & _).
      simpl. split; eauto.
    + split; intros [? ?]; done.
  - intros id ts' (ts & b & Hts & Hrm)%(RemoveAllComponents_lookup _ _ _ _ _ Hall).
    destruct (TypedStorage_Remove_bounded ts e (Hok id ts Hts)) as (b0 & ts0 & Hrm0 & _ & ?).
    congruence.
Qed.

Lemma RemoveAllComponents_ok cr cr' e :
  registry_ok cr → ComponentRegistry.RemoveAllComponents cr e = Some cr' →
  registry_ok cr'.
Proof.
  intros Hok Hall id ts' (ts & b & Hts & Hrm)%(RemoveAllComponents_lookup _ _ _ _ _ Hall).
  destruct (TypedStorage_Remove_post ts e (Hok id ts Hts)) as (b0 & ts0 & Hrm0 & ?).
  congruence.
Qed.

(** [Register] adds at most one pool, an empty one. *)
Lemma Register_storages (T : string) cr (id : Z) ts :
  ComponentRegistry.storages (ComponentRegistry.Register T cr).2 !! id = Some ts →
  ComponentRegistry.storages cr !! id = Some ts ∨ ts = TypedStorage.NewTypedStorage T.
Proof.
  unfold ComponentRegistry.Register. destruct (ComponentRegistry.typeToID cr !! T); simpl.
  - by left.
  - intros [[_ <-]|[_ ?]]%lookup_insert_Some; [by right|by left].
Qed.

Lemma GetStorage_lookup (T : string) cr (id : Z) (p : ComponentPool.t Val) :
  ComponentRegistry.GetStorage T cr = Some (id, p) →
  ∃ ts, ComponentRegistry.storages cr !! id = Some ts ∧ TypedStorage.pool ts = p.
Proof.
  unfold ComponentRegistry.GetStorage, ComponentRegistry.GetComponentID.
  destruct (ComponentRegistry.typeToID cr !! T) as [id'|]; simpl; [|done].
  destruct (ComponentRegistry.storages cr !! id') as [ts|] eqn:Hts; simpl; [|done].
  destruct (bool_decide _); [|done]. intros [= <- <-]. eauto.
Qed.

Lemma write_pool_lookup cr (id id' : Z) (p : ComponentPool.t Val) ts' :
  ComponentRegistry.storages (ComponentRegistry.write_pool cr id p) !! id' = Some ts' →
  ComponentRegistry.storages cr !! id' = Some ts' ∨ TypedStorage.pool ts' = p.
Proof.
  unfold ComponentRegistry.write_pool. simpl.
  intros [(-> & ts & _ & ->)|[_ ?]]%lookup_alter_Some; [by right|by left].
Qed.

End Registry.

End RegistryFacts.

Module WorldClaims.
Import PoolFacts RegistryFacts EntityManagerFacts.

Section Cascade.
Context {Val : Type}.

(** C8: on a world whose pools are within their bounds, [DestroyEntity] of
    a valid entity returns true and leaves the entity in no registered pool,
    so [HasComponent] is false for every type; [DestroyEntity] of an invalid
    entity returns false and leaves the world as it was. *)
Theorem DestroyEntity_cascade (w : World.t Val) (e : Z) :
  registry_bounded (World.componentRegistry w) →
  (EntityManager.IsValid (World.entityManager w) e = Some true →
   ∃ w', World.DestroyEntity w e = Some (true, w') ∧
         dom (ComponentRegistry.storages (World.componentRegistry w'))
         = dom (ComponentRegistry.storages (World.componentRegistry w)) ∧
         (∀ id ts', ComponentRegistry.storages (World.componentRegistry w') !! id = Some ts' →
                    TypedStorage.Contains ts' e = Some false) ∧
         (∀ T, World.HasComponent T w' e = Some false)) ∧
  (EntityManager.IsValid (World.entityManager w) e = Some false →
   World.DestroyEntity w e = Some (false, w)).
Proof.
  intros Hok. unfold World.DestroyEntity. split; intros Hv; rewrite Hv; simpl; [|done].
  destruct (RemoveAllComponents_post _ e Hok) as (cr' & -> & Hok' & Hids & Hdom & Habs).
  destruct (Destroy_valid _ e Hv) as (em' & ->). simpl.
  eexists. split; [reflexivity|]. simpl. split; [done|]. split; [done|].
  intros T. unfold World.HasComponent. simpl.
  destruct (IsValid_total em' e) as [[] ->]; simpl; [|done].
  unfold ComponentRegistry.GetStorage, ComponentRegistry.GetComponentID.
  destruct (ComponentRegistry.typeToID cr' !! T) as [id|]; simpl; [|done].
  destruct (ComponentRegistry.storages cr' !! id) as [ts|] eqn:Hts; simpl; [|done].
  destruct (bool_decide (TypedStorage.elem ts = T)); [|done].
  apply (Habs id ts Hts).
Qed.

End Cascade.

End WorldClaims.

(** ** Registration *)

Module RegistryClaims.
Import ComponentRegistry.

Section Register.
Context {Val : Type}.
Implicit Types (cr : ComponentRegistry.t Val) (T : string).

(** A run of [Register] calls: the IDs returned, in call order, and the
    registry left. *)
Definition register_all (ts : list string) cr : list Z * ComponentRegistry.t Val :=
  foldl (λ '(ids, cr) T, let '(id, cr') := Register T cr in (ids ++ [id], cr'))
        ([], cr) ts.

(** The distinct types of a run, in the order of their first registration. *)
Definition first_seen (ts : list string) : list string :=
  foldl (λ seen T, if decide (T ∈ seen) then seen else seen ++ [T]) [] ts.

(** IDs are the positions in the order of first registration. *)
Definition dense_ids (seen : list string) cr : Prop :=
  nextID cr = Go.uint32 (Z.of_nat (length seen)) ∧
  ∀ T id, typeToID cr !! T = Some id ↔ ∃ k : nat, seen !! k = Some T ∧ id = Z.of_nat k.

Lemma Register_twice cr T :
  Register T (Register T cr).2 = ((Register T cr).1, (Register T cr).2).
Proof.
  unfold Register at 2 3 4. destruct (typeToID cr !! T) as [id|] eqn:Hid; simpl.
  - unfold Register. by rewrite Hid.
  - unfold Register. simpl. by rewrite lookup_insert_eq.
Qed.

Lemma Register_stable cr T T' id :
  typeToID cr !! T = Some id →
  typeToID (Register T' cr).2 !! T = Some id ∧ (Register T (Register T' cr).2).1 = id.
Proof.
  intros Hid.
  assert (typeToID (Register T' cr).2 !! T = Some id) as Hid'.
  { unfold Register. destruct (typeToID cr !! T') as [id'|] eqn:Hid'; simpl; [done|].
    rewrite lookup_insert_ne; [done|]. intros ->. congruence. }
  split; [done|]. unfold Register at 1. by rewrite Hid'.
Qed.

Lemma first_seen_snoc (ts : list string) T :
  first_seen (ts ++ [T])
  = if decide (T ∈ first_seen ts) then first_seen ts else first_seen ts ++ [T].
Proof. unfold first_seen. by rewrite foldl_snoc. Qed.

Lemma register_all_snoc (ts : list string) T cr :
  register_all (ts ++ [T]) cr
  = ((register_all ts cr).1 ++ [(Register T (register_all ts cr).2).1],
     (Register T (register_all ts cr).2).2).
Proof.
  unfold register_all. rewrite foldl_snoc.
  destruct (foldl _ _ ts) as [ids cr']. simpl. by destruct (Register T cr').
Qed.

Lemma first_seen_NoDup (ts : list string) : NoDup (first_seen ts).
Proof.
  induction ts as [|T ts IH] using rev_ind; [constructor|].
  rewrite first_seen_snoc. destruct (decide (T ∈ first_seen ts)); [done|].
  apply NoDup_app. split; [done|]. split; [|apply NoDup_singleton].
  intros x Hx ->%list_elem_of_singleton. done.
Qed.

(** The run invariant: as long as fewer than [2^32] types were seen, the
    registry numbers them by first registration. *)
Lemma register_all_dense (ts : list string) :
  Z.of_nat (length (first_seen ts)) ≤ 2 ^ 32 →
  dense_ids (first_seen ts) (register_all ts (@NewComponentRegistry Val)).2 ∧
  ∀ (k : nat) T, ts !! k = Some T →
    ∃ j : nat, first_seen ts !! j = Some T ∧
               (register_all ts (@NewComponentRegistry Val)).1 !! k = Some (Z.of_nat j).
Proof.
  induction ts as [|T ts IH] using rev_ind; intros Hbound.
  - split; [|intros k T Hk; done]. split; [done|].
    intros T id. simpl. rewrite lookup_empty. split; [done|]. intros (k & Hk & _). done.
  - rewrite first_seen_snoc in Hbound |- *. rewrite register_all_snoc. simpl.
    assert (Z.of_nat (length (first_seen ts)) ≤ 2 ^ 32) as Hb.
    { destruct (decide (T ∈ first_seen ts)); [done|].
      rewrite length_app in Hbound. simpl in Hbound. lia. }
    destruct (IH Hb) as [[Hnext Hids] Hret]. clear IH.
    set (cr := (register_all ts NewComponentRegistry).2) in *.
    set (ids := (register_all ts NewComponentRegistry).1) in *.
    assert (length ids = length ts) as Hlen.
    { unfold ids. clear. induction ts as [|T ts IH] using rev_ind; [done|].
      rewrite register_all_snoc. simpl. rewrite !length_app, IH. done. }
    destruct (decide (T ∈ first_seen ts)) as [Hin|Hnin].
    + apply list_elem_of_lookup in Hin as [j Hj].
      assert (typeToID cr !! T = Some (Z.of_nat j)) as Hid by (apply Hids; eauto).
      unfold Register. rewrite Hid. simpl. split; [done|].
      intros k T' [[_ Hk]|[-> <-]]%lookup_snoc_Some.
      * destruct (Hret k T' Hk) as (j' & ? & ?). exists j'. split; [done|].
        by apply lookup_app_l_Some.
      * exists j. split; [done|]. rewrite lookup_app_r by lia.
        by rewrite Hlen, Nat.sub_diag.
    + assert (typeToID cr !! T = None) as Hid.
      { destruct (typeToID cr !! T) as [id|] eqn:Hid; [|done].
        apply Hids in Hid as (k & Hk & _). apply list_elem_of_lookup_2 in Hk. done. }
      rewrite length_app in Hbound. simpl in Hbound.
      unfold Register. rewrite Hid. simpl.
      rewrite Hnext, (GoFacts.uint32_small (Z.of_nat (length (first_seen ts)))) by lia.
      split; [split|].
      * rewrite length_app. simpl. f_equal. lia.
      * intros T' id. simpl. rewrite lookup_insert_Some, Hids. split.
        -- intros [[<- <-]|[Hne (k & Hk & ->)]].
           ++ exists (length (first_seen ts)). split; [|done].
              by rewrite lookup_app_r, Nat.sub_diag by lia.
           ++ exists k. split; [|done]. by apply lookup_app_l_Some.
        -- intros (k & [[_ Hk]|[-> <-]]%lookup_snoc_Some & ->).
           ++ right. split; [|eauto]. intros <-.
              apply list_elem_of_lookup_2 in Hk. done.
           ++ by left.
      * intros k T' [[_ Hk]|[-> <-]]%lookup_snoc_Some.
        -- destruct (Hret k T' Hk) as (j' & ? & ?). exists j'.
           split; by apply lookup_app_l_Some.
        -- exists (length (first_seen ts)).
           split; [by rewrite lookup_app_r, Nat.sub_diag by lia|].
           rewrite lookup_app_r by lia. by rewrite Hlen, Nat.sub_diag.
Qed.

Lemma RemoveAllComponents_typeToID cr cr' (e : Z) :
  RemoveAllComponents cr e = Some cr' → typeToID cr' = typeToID cr.
Proof.
  unfold RemoveAllComponents. destruct (bool_decide _); [|done]. by intros [= <-].
Qed.

(** C9: a second [Register] of a type returns the same ID and changes
    nothing; a registered type keeps its ID whatever is registered later and
    whatever is done to the pools; and in a run from the empty registry the
    types get the IDs 0, 1, 2, ... in the order of their first
    registration. *)
Theorem Register_idempotent_dense :
  (∀ cr T, Register T (Register T cr).2 = ((Register T cr).1, (Register T cr).2)) ∧
  (∀ cr T T' id, typeToID cr !! T = Some id →
     typeToID (Register T' cr).2 !! T = Some id ∧
     (Register T (Register T' cr).2).1 = id) ∧
  (∀ cr cr' e, RemoveAllComponents cr e = Some cr' → typeToID cr' = typeToID cr) ∧
  (∀ cr id p, typeToID (write_pool cr id p) = typeToID cr) ∧
  (∀ ts : list string,
     Z.of_nat (length (first_seen ts)) ≤ 2 ^ 32 →
     let run := register_all ts (@NewComponentRegistry Val) in
     NoDup (first_seen ts) ∧
     (∀ T id, typeToID run.2 !! T = Some id ↔
              ∃ k : nat, first_seen ts !! k = Some T ∧ id = Z.of_nat k) ∧
     (∀ (k : nat) T, ts !! k = Some T →
        ∃ j : nat, first_seen ts !! j = Some T ∧ run.1 !! k = Some (Z.of_nat j))).
Proof.
  split; [apply Register_twice|]. split; [apply Register_stable|].
  split; [apply RemoveAllComponents_typeToID|]. split; [done|].
  intros ts Hbound. simpl. split; [apply first_seen_NoDup|].
  destruct (register_all_dense ts Hbound) as [[_ Hids] Hret]. by split.
Qed.

End Register.

Lemma Register_idempotent_dense_witness :
  ∃ j : nat,
    first_seen ["P"; "V"; "P"; "N"; "V"]%string !! j = Some "N"%string ∧
    (register_all ["P"; "V"; "P"; "N"; "V"]%string (@NewComponentRegistry Z)).1 !! 3%nat
    = Some (Z.of_nat j).
Proof.
  destruct (@Register_idempotent_dense Z) as (_ & _ & _ & _ & Hrun).
  destruct (Hrun ["P"; "V"; "P"; "N"; "V"]%string) as (_ & _ & Hret).
  { vm_compute. discriminate. }
  exact (Hret 3%nat "N"%string eq_refl).
Defined.

Example register_all_ids :
  (register_all ["P"; "V"; "P"; "N"; "V"]%string (@NewComponentRegistry Z)).1
  = [0; 1; 0; 2; 1].
Proof. reflexivity. Qed.

End RegistryClaims.

(** ** Queries *)

Module QueryFacts.
Import SparseSetFacts SparseSetInv PoolFacts RegistryFacts.

Section Query.
Context {Val : Type}.
Implicit Types (cr : ComponentRegistry.t Val) (w : World.t Val) (q : Query.t) (e : Z).

(** [e] is contained in the pool registered under [id]; there is no such
    pool for an unregistered ID. *)
Definition in_pool cr e (id : Z) : Prop :=
  ∃ ts, ComponentRegistry.storages cr !! id = Some ts ∧
        TypedStorage.Contains ts e = Some true.

(** The filter as the specification words it. *)
Definition matches_spec cr q e : Prop :=
  Forall (in_pool cr e) (Query.include q) ∧
  Forall (λ id, ¬ in_pool cr e id) (Query.exclude q) ∧
  (Query.includeAny q ≠ [] → Exists (in_pool cr e) (Query.includeAny q)) ∧
  Forall (λ id, ¬ in_pool cr e id) (Query.excludeAny q).

Section WithRegistry.
Context (cr : ComponentRegistry.t Val) (Hok : registry_bounded cr).

Lemma storage_Contains_total (id : Z) (ts : TypedStorage.t Val) e :
  ComponentRegistry.storages cr !! id = Some ts →
  ∃ b : bool, TypedStorage.Contains ts e = Some b.
Proof.
  intros Hts. destruct (Hok id ts Hts) as [(Hsz & _) _].
  unfold TypedStorage.Contains, ComponentPool.Contains.
  apply Contains_total. lia.
Qed.

Lemma in_pool_registered e (id : Z) (ts : TypedStorage.t Val) :
  ComponentRegistry.storages cr !! id = Some ts →
  in_pool cr e id ↔ TypedStorage.Contains ts e = Some true.
Proof.
  intros Hts. unfold in_pool. split; [|by eauto].
  intros (ts' & Hts' & Hc). congruence.
Qed.

(** An entity that a pool contains is among its live dense entries. *)
Lemma in_pool_live e (id : Z) (ts : TypedStorage.t Val) :
  ComponentRegistry.storages cr !! id = Some ts →
  in_pool cr e id → e ∈ live (TypedStorage.Entities ts).
Proof.
  intros Hts Hin%(in_pool_registered e id ts Hts).
  by apply holds_in_live, Contains_true.
Qed.

Lemma in_pool_unregistered e (id : Z) :
  ComponentRegistry.storages cr !! id = None → ¬ in_pool cr e id.
Proof. intros Hn (ts & Hts & _). congruence. Qed.

Lemma has_all_spec e (ids : list Z) :
  ∃ b : bool, Query.has_all cr e ids = Some b ∧ (b = true ↔ Forall (in_pool cr e) ids).
Proof.
  induction ids as [|id ids (b & IH & Hb)]; simpl.
  - exists true. split; [done|]. split; [constructor|done].
  - unfold ComponentRegistry.GetStorageByID.
    destruct (ComponentRegistry.storages cr !! id) as [ts|] eqn:Hts.
    + destruct (storage_Contains_total id ts e Hts) as [c Hc]. rewrite Hc. simpl.
      pose proof (in_pool_registered e id ts Hts) as Hin. rewrite Hc in Hin.
      destruct c; simpl.
      * exists b. split; [done|]. rewrite Forall_cons, Hin, Hb. tauto.
      * exists false. split; [done|]. rewrite Forall_cons, Hin. split; [done|].
        by intros [? _].
    + exists false. split; [done|]. rewrite Forall_cons. split; [done|].
      intros [Hin _]. by apply in_pool_unregistered in Hin.
Qed.

Lemma has_none_spec e (ids : list Z) :
  ∃ b : bool, Query.has_none cr e ids = Some b ∧
              (b = true ↔ Forall (λ id, ¬ in_pool cr e id) ids).
Proof.
  induction ids as [|id ids (b & IH & Hb)]; simpl.
  - exists true. split; [done|]. split; [constructor|done].
  - unfold ComponentRegistry.GetStorageByID.
    destruct (ComponentRegistry.storages cr !! id) as [ts|] eqn:Hts.
    + destruct (storage_Contains_total id ts e Hts) as [c Hc]. rewrite Hc. simpl.
      pose proof (in_pool_registered e id ts Hts) as Hin. rewrite Hc in Hin.
      destruct c; simpl.
      * exists false. split; [done|]. rewrite Forall_cons, Hin. split; [done|].
        intros [Hn _]. by destruct Hn.
      * exists b. split; [done|]. rewrite Forall_cons, Hin, Hb.
        split; [|by intros [_ ?]]. intros ?. split; [|done]. by intros [= ?].
    + exists b. split; [done|]. rewrite Forall_cons, Hb.
      pose proof (in_pool_unregistered e id Hts). tauto.
Qed.

Lemma has_any_spec e (ids : list Z) :
  ∃ b : bool, Query.has_any cr e ids = Some b ∧ (b = true ↔ Exists (in_pool cr e) ids).
Proof.
  induction ids as [|id ids (b & IH & Hb)]; simpl.
  - exists false. split; [done|]. split; [done|]. intros H. by apply Exists_nil in H.
  - unfold ComponentRegistry.GetStorageByID.
    destruct (ComponentRegistry.storages cr !! id) as [ts|] eqn:Hts.
    + destruct (storage_Contains_total id ts e Hts) as [c Hc]. rewrite Hc. simpl.
      pose proof (in_pool_registered e id ts Hts) as Hin. rewrite Hc in Hin.
      destruct c; simpl.
      * exists true. split; [done|]. rewrite Exists_cons, Hin. split; [by left|done].
      * exists b. split; [done|]. rewrite Exists_cons, Hin, Hb.
        split; [by right|]. by intros [[= ?]|?].
    + exists b. split; [done|]. rewrite Exists_cons, Hb.
      pose proof (in_pool_unregistered e id Hts). tauto.
Qed.

End WithRegistry.

(** [matchesEntity] decides the filter. *)
Lemma matchesEntity_spec w q e :
  registry_bounded (World.componentRegistry w) →
  ∃ b : bool, Query.matchesEntity w q e = Some b ∧
              (b = true ↔ matches_spec (World.componentRegistry w) q e).
Proof.
  intros Hok. unfold Query.matchesEntity, matches_spec.
  set (cr := World.componentRegistry w) in *.
  destruct (has_all_spec cr Hok e (Query.include q)) as (b1 & -> & H1).
  destruct (has_none_spec cr Hok e (Query.exclude q)) as (b2 & -> & H2).
  destruct (has_any_spec cr Hok e (Query.includeAny q)) as (b3 & H3e & H3).
  destruct (has_none_spec cr Hok e (Query.excludeAny q)) as (b4 & -> & H4).
  simpl.
  assert (∃ b3' : bool,
            (if bool_decide (0 < Go.len (Query.includeAny q))
             then Query.has_any cr e (Query.includeAny q) else Some true) = Some b3' ∧
            (b3' = true ↔
             (Query.includeAny q ≠ [] → Exists (in_pool cr e) (Query.includeAny q))))
    as (b3' & -> & H3').
  { destruct (Query.includeAny q) as [|id ids] eqn:Hany.
    - exists true. split; [done|]. split; [done|]. done.
    - rewrite bool_decide_eq_true_2 by (unfold Go.len; simpl; lia).
      exists b3. split; [done|]. rewrite H3. split; [done|]. intros H. by apply H. }
  destruct b1; simpl.
  2: { exists false. split; [done|]. split; [done|]. intros [? _]. by apply H1. }
  destruct b2; simpl.
  2: { exists false. split; [done|]. split; [done|]. intros (_ & ? & _). by apply H2. }
  destruct b3'; simpl.
  2: { exists false. split; [done|]. split; [done|]. intros (_ & _ & ? & _). by apply H3'. }
  destruct b4; simpl.
  2: { exists false. split; [done|]. split; [done|]. intros (_ & _ & _ & ?). by apply H4. }
  exists true. split; [done|]. split; [|done]. intros _.
  split; [by apply H1|]. split; [by apply H2|]. split; [by apply H3'|by apply H4].
Qed.

(** The filter loop keeps the matching candidates, in order. *)
Lemma keep_matching_spec w q (candidates : list Z) :
  registry_bounded (World.componentRegistry w) →
  ∃ result, Query.keep_matching w q candidates = Some result ∧
            sublist result candidates ∧
            ∀ e, e ∈ result ↔
                 e ∈ candidates ∧ matches_spec (World.componentRegistry w) q e.
Proof.
  intros Hok. induction candidates as [|x l (result & IH & Hsub & Hres)]; simpl.
  - exists []. split; [done|]. split; [constructor|]. intros e.
    split; [intros H|intros [H _]]; by apply elem_of_nil in H.
  - destruct (matchesEntity_spec w q x Hok) as (b & -> & Hb). simpl. rewrite IH. simpl.
    eexists. split; [reflexivity|]. destruct b.
    + split; [by constructor|]. intros e. rewrite !elem_of_cons, Hres. split.
      * intros [->|[? ?]]; [|by auto]. split; [by left|]. by apply Hb.
      * intros [[->|?] ?]; [by left|by right].
    + split; [by constructor|]. intros e. rewrite elem_of_cons, Hres. split.
      * intros [? ?]. by auto.
      * intros [[->|?] Hm]; [|done]. apply Hb in Hm. done.
Qed.

Lemma len_nil {A} (l : list A) : Go.len l = 0 ↔ l = [].
Proof.
  unfold Go.len. destruct l; simpl; split; try done; lia.
Qed.

Lemma storage_Data cr (id : Z) (ts : TypedStorage.t Val) :
  registry_bounded cr → ComponentRegistry.storages cr !! id = Some ts →
  SparseSet.Data (TypedStorage.Entities ts) = Some (live (TypedStorage.Entities ts)).
Proof.
  intros Hok Hts. destruct (Hok id ts Hts) as [(Hsz & _) _].
  unfold SparseSet.Data. by rewrite GoFacts.slice_to_Some.
Qed.

(** The scan finds a registered [include] pool whenever there is one. *)
Lemma smallest_spec cr (ids : list Z) :
  registry_bounded cr →
  match Query.smallest cr ids with
  | (sz, Some st) => ∃ id, id ∈ ids ∧ ComponentRegistry.storages cr !! id = Some st
  | (sz, None) => sz = Go.MaxInt ∧
                  ∀ id, id ∈ ids → ComponentRegistry.storages cr !! id = None
  end.
Proof.
  intros Hok. unfold Query.smallest.
  induction ids as [|id ids IH] using rev_ind; simpl.
  - split; [done|]. intros id Hid. by apply elem_of_nil in Hid.
  - rewrite foldl_snoc. destruct (foldl _ _ ids) as [sz st].
    unfold ComponentRegistry.GetStorageByID.
    destruct (ComponentRegistry.storages cr !! id) as [ts|] eqn:Hts.
    + assert (TypedStorage.Size ts < Go.MaxInt) as Hsmall.
      { destruct (Hok id ts Hts) as [(_ & Hs & _) _].
        unfold TypedStorage.Size, ComponentPool.Size, SparseSet.Size, Go.MaxInt. lia. }
      destruct (bool_decide_reflect (TypedStorage.Size ts < sz)).
      * exists id. split; [|done]. apply elem_of_app. right. left.
      * destruct st as [st|].
        -- destruct IH as (id' & Hin & Hst). exists id'. split; [|done].
           apply elem_of_app. by left.
        -- destruct IH as [-> _]. lia.
    + destruct st as [st|].
      * destruct IH as (id' & Hin & Hst). exists id'. split; [|done].
        apply elem_of_app. by left.
      * destruct IH as [-> Hnone]. split; [done|].
        intros id' [Hin| ->%list_elem_of_singleton]%elem_of_app; [by apply Hnone|done].
Qed.

(** The gathered set holds every entity of every registered [includeAny]
    pool. *)
Lemma gather_spec cr (ids : list Z) :
  registry_bounded cr →
  ∃ entitySet : gset Z,
    Query.gather cr ids = Some entitySet ∧
    ∀ e, Exists (in_pool cr e) ids → e ∈ entitySet.
Proof.
  intros Hok. unfold Query.gather.
  assert (∀ acc : gset Z,
            ∃ entitySet : gset Z,
              Go.for_each
                (λ entitySet id,
                   match ComponentRegistry.GetStorageByID cr id with
                   | Some storage =>
                       entities ← SparseSet.Data (TypedStorage.Entities storage);
                       Some (entitySet ∪ list_to_set entities)
                   | None => Some entitySet
                   end) ids acc = Some entitySet ∧
              ∀ e, e ∈ acc ∨ Exists (in_pool cr e) ids → e ∈ entitySet) as Hgen.
  { induction ids as [|id ids IH]; intros acc; simpl.
    - exists acc. split; [done|]. intros e [?|H]; [done|]. by apply Exists_nil in H.
    - destruct (ComponentRegistry.GetStorageByID cr id) as [ts|] eqn:Hts;
        unfold ComponentRegistry.GetStorageByID in Hts.
      + rewrite (storage_Data cr id ts Hok Hts). simpl.
        destruct (IH (acc ∪ list_to_set (live (TypedStorage.Entities ts))))
          as (set' & -> & Hset).
        exists set'. split; [done|]. intros e He. apply Hset.
        rewrite elem_of_union, elem_of_list_to_set.
        destruct He as [?|[Hin|?]%Exists_cons]; [by auto| |by auto].
        left. right. by apply (in_pool_live cr e id ts Hts).
      + simpl. destruct (IH acc) as (set' & -> & Hset). exists set'. split; [done|].
        intros e He. apply Hset.
        destruct He as [?|[Hin|?]%Exists_cons]; [by auto| |by auto].
        by apply (in_pool_unregistered cr e id Hts) in Hin. }
  destruct (Hgen ∅) as (entitySet & -> & Hset). exists entitySet. split; [done|].
  intros e He. apply Hset. by right.
Qed.

End Query.

End QueryFacts.

Module QueryClaims.
Import SparseSetInv PoolFacts RegistryFacts QueryFacts.

Section Build.
Context {Val : Type}.

(** C2: on a world whose pools are within their bounds, whatever the order
    in which Go ranges over the entity set, [Build] of a query with a
    non-empty [include] or [includeAny] list returns exactly the entities
    that are in every [include] pool (an unregistered ID has no pool, so
    nothing is in it), in no [exclude] pool, in at least one [includeAny]
    pool when that list is non-empty, and in no [excludeAny] pool; with both
    lists empty it returns the empty result.  When the pools satisfy the
    sparse-set invariant, each entity is returned once. *)
Theorem Build_filter_semantics
    (range_order : gset Z → list Z) (w : World.t Val) (q : Query.t) :
  (∀ s, range_order s ≡ₚ elements s) →
  registry_bounded (World.componentRegistry w) →
  ∃ result,
    Query.Build range_order w q = Some result ∧
    (Query.include q ≠ [] ∨ Query.includeAny q ≠ [] →
     ∀ e, e ∈ result ↔ matches_spec (World.componentRegistry w) q e) ∧
    (Query.include q = [] ∧ Query.includeAny q = [] → result = []) ∧
    (registry_ok (World.componentRegistry w) → NoDup result).
Proof.
  intros Hrange Hok. unfold Query.Build. set (cr := World.componentRegistry w) in *.
  destruct (decide (Query.include q = [])) as [Hinc|Hinc].
  - destruct (decide (Query.includeAny q = [])) as [Hany|Hany].
    + rewrite Hinc, Hany. simpl. exists []. split; [done|].
      split; [intros [?|?]; done|]. split; [done|]. intros _. constructor.
    + assert (Go.len (Query.includeAny q) ≠ 0) as Hlen by (by rewrite len_nil).
      assert (0 < Go.len (Query.includeAny q)) as Hpos by (unfold Go.len in *; lia).
      rewrite (bool_decide_eq_false_2 (Go.len (Query.includeAny q) = 0)) by done.
      rewrite andb_false_r.
      rewrite (bool_decide_eq_false_2 (0 < Go.len (Query.include q)))
        by (rewrite Hinc; unfold Go.len; simpl; lia).
      rewrite (bool_decide_eq_true_2 (0 < Go.len (Query.includeAny q))) by done.
      destruct (gather_spec cr (Query.includeAny q) Hok) as (entitySet & -> & Hset).
      simpl.
      destruct (keep_matching_spec w q (range_order entitySet) Hok)
        as (result & -> & Hsub & Hres).
      exists result. split; [done|].
      split; [|split; [by intros [_ ?]|]].
      * intros _ e. rewrite Hres. fold cr.
        split; [by intros [_ ?]|]. intros Hm. split; [|done].
        rewrite Hrange. apply elem_of_elements, Hset.
        destruct Hm as (_ & _ & Hex & _). by apply Hex.
      * intros _. eapply sublist_NoDup; [|exact Hsub].
        rewrite Hrange. apply NoDup_elements.
  - assert (Go.len (Query.include q) ≠ 0) as Hlen by (by rewrite len_nil).
    assert (0 < Go.len (Query.include q)) as Hpos by (unfold Go.len in *; lia).
    rewrite (bool_decide_eq_false_2 (Go.len (Query.include q) = 0)) by done.
    rewrite andb_false_l.
    rewrite (bool_decide_eq_true_2 (0 < Go.len (Query.include q))) by done.
    pose proof (smallest_spec cr (Query.include q) Hok) as Hsm.
    destruct (Query.smallest cr (Query.include q)) as [sz [st|]]; simpl.
    + destruct Hsm as (id & Hin & Hst).
      rewrite (storage_Data cr id st Hok Hst). simpl.
      destruct (keep_matching_spec w q (live (TypedStorage.Entities st)) Hok)
        as (result & -> & Hsub & Hres).
      exists result. split; [done|].
      split; [|split; [by intros [? _]|]].
      * intros _ e. rewrite Hres. fold cr.
        split; [by intros [_ ?]|]. intros Hm. split; [|done].
        destruct Hm as (Hall & _). rewrite Forall_forall in Hall.
        by apply (in_pool_live cr e id st Hst), Hall.
      * intros Hinv. eapply sublist_NoDup; [|exact Hsub].
        destruct (Hinv id st Hst) as [Hi _]. by apply live_NoDup.
    + destruct Hsm as [_ Hnone]. exists []. split; [done|].
      split; [|split; [by intros [? _]|intros _; constructor]].
      intros _ e. split.
      * intros H. by apply elem_of_nil in H.
      * intros (Hall & _). destruct (Query.include q) as [|id ids]; [done|].
        apply Forall_cons in Hall as [(ts & Hts & _) _].
        rewrite Hnone in Hts; [done|left].
Qed.

End Build.

End QueryClaims.

(** ** A handcrafted world *)

Module Demo.
Import SparseSetInv PoolFacts RegistryFacts QueryFacts.

(** Entities A, B, C, D are the handles 0, 1, 2, 3; A, B, C have [P];
    B, C have [V]; C, D have [N]. *)
Definition poolP : ComponentPool.t Z :=
  ComponentPool.mk (SparseSet.mk [0; 1; 2] [0; 1; 2] 3) [1; 2; 3].
Definition poolV : ComponentPool.t Z :=
  ComponentPool.mk (SparseSet.mk [-1; 0; 1] [1; 2] 2) [4; 5].
Definition poolN : ComponentPool.t Z :=
  ComponentPool.mk (SparseSet.mk [-1; -1; 0; 1] [2; 3] 2) [6; 7].

Definition registry : ComponentRegistry.t Z :=
  ComponentRegistry.mk 3
    (<["P"%string := 0]> (<["V"%string := 1]> (<["N"%string := 2]> ∅)))
    (<[0 := "P"%string]> (<[1 := "V"%string]> (<[2 := "N"%string]> ∅)))
    (<[0 := TypedStorage.mk "P" poolP "P"]>
       (<[1 := TypedStorage.mk "V" poolV "V"]>
          (<[2 := TypedStorage.mk "N" poolN "N"]> ∅)))
    (<[0 := "P"%string]> (<[1 := "V"%string]> (<[2 := "N"%string]> ∅))).

Definition world : World.t Z := World.mk (EntityManager.mk [0; 0; 0; 0] (-1)) registry.

(** The world is the one the facade builds. *)
Example world_built :
  (let w := World.NewWorld in
   '(a, w) ← World.CreateEntity w;
   '(b, w) ← World.CreateEntity w;
   '(c, w) ← World.CreateEntity w;
   '(d, w) ← World.CreateEntity w;
   w ← World.AddComponent "P" w a 1;
   w ← World.AddComponent "P" w b 2;
   w ← World.AddComponent "P" w c 3;
   w ← World.AddComponent "V" w b 4;
   w ← World.AddComponent "V" w c 5;
   w ← World.AddComponent "N" w c 6;
   w ← World.AddComponent "N" w d 7;
   Some ([a; b; c; d], w)) = Some ([0; 1; 2; 3], world).
Proof. vm_compute. reflexivity. Qed.

Ltac concrete_pool_inv :=
  split;
  [ split; simpl;
    [ unfold Go.len; simpl; lia ..
    | intros i e Hi He;
      repeat (destruct i as [|i]; [injection He as <-; split; [done|reflexivity]|]);
      simpl in Hi; lia ]
  | unfold Go.len; simpl; lia ].

Lemma poolP_inv : pool_inv poolP.
Proof. concrete_pool_inv. Defined.

Lemma poolV_inv : pool_inv poolV.
Proof. concrete_pool_inv. Defined.

Lemma poolN_inv : pool_inv poolN.
Proof. concrete_pool_inv. Defined.

Lemma registry_is_ok : registry_ok registry.
Proof.
  unfold registry_ok, registry. simpl.
  repeat (apply map_Forall_insert_2; [first [exact poolP_inv|exact poolV_inv|exact poolN_inv]|]).
  apply map_Forall_empty.
Defined.

(** [With(P), Without(V)] and [WithAny(V), WithAny(N)]. *)
Definition q_P_without_V : Query.t := Query.mk [0] [1] [] [].
Definition q_any_V_N : Query.t := Query.mk [] [] [1; 2] [].

Example queries_built :
  (Query.Without "V" (Query.With "P" (world, Query.NewQuery))).2 = q_P_without_V ∧
  (Query.WithAny "N" (Query.WithAny "V" (world, Query.NewQuery))).2 = q_any_V_N.
Proof. split; vm_compute; reflexivity. Qed.

Example build_P_without_V : Query.Build elements world q_P_without_V = Some [0].
Proof. vm_compute. reflexivity. Qed.

Example build_any_V_N :
  ∃ result, Query.Build elements world q_any_V_N = Some result ∧ result ≡ₚ [1; 2; 3].
Proof.
  eexists. split; [vm_compute; reflexivity|].
  apply NoDup_Permutation.
  - apply (bool_decide_unpack _). by vm_compute.
  - apply (bool_decide_unpack _). by vm_compute.
  - intros x. rewrite !elem_of_cons. rewrite !elem_of_nil. tauto.
Qed.

Example build_no_positive_criterion :
  Query.Build elements world (Query.mk [] [1] [] [2]) = Some [].
Proof. reflexivity. Qed.

End Demo.

Module DemoWitnesses.
Import RegistryFacts QueryFacts.

Lemma Build_filter_semantics_witness :
  ∃ result,
    Query.Build elements Demo.world Demo.q_P_without_V = Some result ∧
    ∀ e, e ∈ result ↔ matches_spec Demo.registry Demo.q_P_without_V e.
Proof.
  destruct (QueryClaims.Build_filter_semantics elements Demo.world Demo.q_P_without_V)
    as (result & Hbuild & Hmem & _).
  - intros s. reflexivity.
  - exact (registry_ok_bounded _ Demo.registry_is_ok).
  - exists result. split; [exact Hbuild|]. apply Hmem. left. discriminate.
Defined.

Lemma DestroyEntity_cascade_witness :
  ∃ w', World.DestroyEntity Demo.world 1 = Some (true, w') ∧
        ∀ T, World.HasComponent T w' 1 = Some false.
Proof.
  destruct (WorldClaims.DestroyEntity_cascade Demo.world 1
              (registry_ok_bounded _ Demo.registry_is_ok)) as [H _].
  destruct H as (w' & Hd & _ & _ & Hhas); [reflexivity|].
  exists w'. split; [exact Hd|exact Hhas].
Defined.

End DemoWitnesses.

(** ** Worlds built through the facade *)

Module Facade.
Import SparseSetInv PoolFacts RegistryFacts.

(** The handles of generation 0, which are the ones [Create] makes. *)
Definition issued (e : Z) : Prop := 0 ≤ e < 2 ^ 20.

Lemma makeEntity_gen0 (index : Z) : issued (Entity.makeEntity index 0).
Proof.
  unfold issued, Entity.makeEntity. rewrite Z.land_0_l, Z.shiftl_0_l, Z.lor_0_l.
  apply EntityFacts.Index_range.
Qed.

Lemma Create_issued (em em' : EntityManager.t) (e : Z) :
  EntityManager.Create em = Some (e, em') → issued e.
Proof.
  unfold EntityManager.Create. destruct (bool_decide (0 ≤ EntityManager.freeHead em)).
  - destruct (Go.index _ _) as [stored|]; simpl; [|done].
    destruct (bool_decide (stored = _)); simpl;
      destruct (Go.store _ _ _); simpl; [|done| |done];
      intros [= <- _]; apply makeEntity_gen0.
  - intros [= <- _]. apply makeEntity_gen0.
Qed.

Lemma issued_Index (e : Z) : issued e → Entity.Index e = e.
Proof. intros He. rewrite EntityFacts.Index_mod. by apply Z.mod_small. Qed.

(** Handles of generation 0 cannot clash: their slot determines them. *)
Lemma issued_no_clash (ss : SparseSet.t) (e : Z) :
  Forall issued (live ss) → issued e → no_clash ss e.
Proof.
  intros Hall He. unfold no_clash. eapply Forall_impl; [exact Hall|].
  intros x Hx. simpl. by rewrite !issued_Index.
Qed.

Section Built.
Context {Val : Type}.
Implicit Types (w : World.t Val) (cr : ComponentRegistry.t Val).

(** The worlds obtained from [NewWorld] through the facade, components being
    added only to handles that [CreateEntity] can have returned. *)
Inductive built : World.t Val → Prop :=
| built_new : built World.NewWorld
| built_create w e w' :
    built w → World.CreateEntity w = Some (e, w') → built w'
| built_destroy w e b w' :
    built w → World.DestroyEntity w e = Some (b, w') → built w'
| built_add T w e c w' :
    built w → issued e → World.AddComponent T w e c = Some w' → built w'
| built_remove T w e b w' :
    built w → World.RemoveComponent T w e = Some (b, w') → built w'.

(** Every pool is well formed and holds handles of generation 0 only. *)
Definition registry_good cr : Prop :=
  map_Forall (λ _ ts, pool_inv (TypedStorage.pool ts) ∧
                      Forall issued (live (TypedStorage.Entities ts)))
             (ComponentRegistry.storages cr).

Lemma registry_good_ok cr : registry_good cr → registry_ok cr.
Proof. intros Hg id ts Hts. by destruct (Hg id ts Hts). Qed.

Lemma Register_good (T : string) cr :
  registry_good cr → registry_good (ComponentRegistry.Register T cr).2.
Proof.
  intros Hg id ts [Hts| ->]%Register_storages; [by apply (Hg id)|].
  split; [apply NewComponentPool_inv|constructor].
Qed.

Lemma AddComponent_good (T : string) w (e : Z) (c : Val) :
  registry_good (World.componentRegistry w) → issued e →
  ∃ w', World.AddComponent T w e c = Some w' ∧
        registry_good (World.componentRegistry w').
Proof.
  intros Hg He. unfold World.AddComponent.
  destruct (EntityManagerFacts.IsValid_total (World.entityManager w) e) as [[] ->];
    simpl; [|eauto].
  pose proof (Register_good T _ Hg) as Hg'.
  destruct (ComponentRegistry.Register T (World.componentRegistry w)) as [rid cr].
  simpl in Hg'.
  destruct (ComponentRegistry.GetStorage T cr) as [[id p]|] eqn:Hget; [|eauto].
  destruct (GetStorage_lookup T cr id p Hget) as (ts & Hts & <-).
  destruct (Hg' id ts Hts) as [Hp Hiss].
  destruct (Insert_pool_post _ e c Hp (issued_no_clash _ e Hiss He)) as (p' & -> & Hp' & Hsub).
  simpl. eexists. split; [reflexivity|]. simpl.
  intros id' ts' [Hts'|Heq]%write_pool_lookup; [by apply (Hg' id')|].
  unfold TypedStorage.Entities, ComponentPool.Entities. rewrite Heq.
  split; [done|]. apply Forall_forall. intros x [->|Hx]%Hsub; [done|].
  by apply (proj1 (Forall_forall _ _) Hiss).
Qed.

Lemma RemoveComponent_good (T : string) w (e : Z) :
  registry_good (World.componentRegistry w) →
  ∃ b w', World.RemoveComponent T w e = Some (b, w') ∧
          registry_good (World.componentRegistry w').
Proof.
  intros Hg. unfold World.RemoveComponent.
  destruct (EntityManagerFacts.IsValid_total (World.entityManager w) e) as [[] ->];
    simpl; [|eauto].
  destruct (ComponentRegistry.GetStorage T _) as [[id p]|] eqn:Hget; [|eauto].
  destruct (GetStorage_lookup T _ id p Hget) as (ts & Hts & <-).
  destruct (Hg id ts Hts) as [Hp Hiss].
  destruct (Remove_post _ e Hp) as (b & p' & Hrm & Hp' & _). rewrite Hrm. simpl.
  do 2 eexists. split; [reflexivity|]. simpl.
  intros id' ts' [Hts'|Heq]%write_pool_lookup; [by apply (Hg id')|].
  unfold TypedStorage.Entities, ComponentPool.Entities. rewrite Heq.
  split; [done|]. apply Forall_forall. intros x Hx.
  apply (proj1 (Forall_forall _ _) Hiss).
  by apply (Remove_pool_live_subset _ _ e b Hp Hrm).
Qed.

Lemma DestroyEntity_good w (e : Z) :
  registry_good (World.componentRegistry w) →
  ∃ b w', World.DestroyEntity w e = Some (b, w') ∧
          registry_good (World.componentRegistry w').
Proof.
  intros Hg. unfold World.DestroyEntity.
  destruct (EntityManagerFacts.IsValid_total (World.entityManager w) e) as [[] Hv];
    rewrite Hv; simpl; [|eauto].
  destruct (RemoveAllComponents_post _ e (registry_ok_bounded _ (registry_good_ok _ Hg)))
    as (cr' & Hall & _).
  pose proof (RemoveAllComponents_ok _ _ e (registry_good_ok _ Hg) Hall) as Hok'.
  rewrite Hall. simpl.
  destruct (EntityManagerFacts.Destroy_valid _ e Hv) as (em' & ->). simpl.
  do 2 eexists. split; [reflexivity|]. simpl.
  intros id ts' Hts'. split; [by apply (Hok' id)|].
  destruct (RemoveAllComponents_lookup _ _ e id ts' Hall Hts') as (ts & b & Hts & Hrm).
  destruct (Hg id ts Hts) as [Hp Hiss].
  unfold TypedStorage.Remove in Hrm.
  destruct (ComponentPool.Remove _ e) as [[b' p']|] eqn:Hrm'; simpl in Hrm; [|done].
  injection Hrm as _ <-. simpl.
  apply Forall_forall. intros x Hx. apply (proj1 (Forall_forall _ _) Hiss).
  by apply (Remove_pool_live_subset _ _ e b' Hp Hrm').
Qed.

(** The pools of a world built through the facade are well formed: the
    hypothesis of the query and cascade theorems holds for them. *)
Lemma built_registry_ok w : built w → registry_ok (World.componentRegistry w).
Proof.
  intros Hr. apply registry_good_ok.
  induction Hr as [|w e w' _ IH Hop|w e b w' _ IH Hop|T w e c w' _ IH He Hop
                  |T w e b w' _ IH Hop].
  - intros id ts Hts. simpl in Hts. by rewrite lookup_empty in Hts.
  - unfold World.CreateEntity in Hop.
    destruct (EntityManager.Create _) as [[e0 em]|]; simpl in Hop; [|done].
    by injection Hop as _ <-.
  - destruct (DestroyEntity_good w e IH) as (b0 & w0 & Heq & ?).
    rewrite Heq in Hop. by injection Hop as _ <-.
  - destruct (AddComponent_good T w e c IH He) as (w0 & Heq & ?).
    rewrite Heq in Hop. by injection Hop as <-.
  - destruct (RemoveComponent_good T w e IH) as (b0 & w0 & Heq & ?).
    rewrite Heq in Hop. by injection Hop as _ <-.
Qed.


(** The same with any handles whatever, forged ones included, as long as no
    pool has [2^31] entries when a component is added. *)
Definition registry_room cr : Prop :=
  map_Forall (λ _ ts, TypedStorage.Size ts < 2 ^ 31) (ComponentRegistry.storages cr).

Inductive built_any : World.t Val → Prop :=
| any_new : built_any World.NewWorld
| any_create w e w' :
    built_any w → World.CreateEntity w = Some (e, w') → built_any w'
| any_destroy w e b w' :
    built_any w → World.DestroyEntity w e = Some (b, w') → built_any w'
| any_add T w e c w' :
    built_any w → registry_room (World.componentRegistry w) →
    World.AddComponent T w e c = Some w' → built_any w'
| any_remove T w e b w' :
    built_any w → World.RemoveComponent T w e = Some (b, w') → built_any w'.

Lemma AddComponent_bounded (T : string) w (e : Z) (c : Val) :
  registry_bounded (World.componentRegistry w) →
  registry_room (World.componentRegistry w) →
  ∃ w', World.AddComponent T w e c = Some w' ∧
        registry_bounded (World.componentRegistry w').
Proof.
  intros Hb Hroom. unfold World.AddComponent.
  destruct (EntityManagerFacts.IsValid_total (World.entityManager w) e) as [[] ->];
    simpl; [|eauto].
  assert (∀ id ts,
            ComponentRegistry.storages
              (ComponentRegistry.Register T (World.componentRegistry w)).2 !! id = Some ts →
            pool_bounded (TypedStorage.pool ts) ∧ TypedStorage.Size ts < 2 ^ 31) as Hreg.
  { intros id ts [Hts| ->]%Register_storages.
    - split; [by apply (Hb id)|by apply (Hroom id)].
    - split; [apply pool_inv_bounded, NewComponentPool_inv|done]. }
  destruct (ComponentRegistry.Register T (World.componentRegistry w)) as [rid cr].
  simpl in Hreg.
  destruct (ComponentRegistry.GetStorage T cr) as [[id p]|] eqn:Hget.
  - destruct (GetStorage_lookup T cr id p Hget) as (ts & Hts & <-).
    destruct (Hreg id ts Hts) as [Hp Hsize].
    destruct (Insert_pool_bounded _ e c Hp Hsize) as (p' & -> & Hp').
    simpl. eexists. split; [reflexivity|]. simpl.
    intros id' ts' [Hts'|Heq]%write_pool_lookup; [by apply (Hreg id')|].
    simpl. by rewrite Heq.
  - eexists. split; [reflexivity|]. intros id ts Hts. by apply (Hreg id).
Qed.

Lemma RemoveComponent_bounded (T : string) w (e : Z) :
  registry_bounded (World.componentRegistry w) →
  ∃ b w', World.RemoveComponent T w e = Some (b, w') ∧
          registry_bounded (World.componentRegistry w').
Proof.
  intros Hb. unfold World.RemoveComponent.
  destruct (EntityManagerFacts.IsValid_total (World.entityManager w) e) as [[] ->];
    simpl; [|eauto].
  destruct (ComponentRegistry.GetStorage T _) as [[id p]|] eqn:Hget; [|eauto].
  destruct (GetStorage_lookup T _ id p Hget) as (ts & Hts & <-).
  destruct (Remove_post_bounded _ e (Hb id ts Hts)) as (b & p' & -> & Hp' & _). simpl.
  do 2 eexists. split; [reflexivity|]. simpl.
  intros id' ts' [Hts'|Heq]%write_pool_lookup; [by apply (Hb id')|].
  simpl. by rewrite Heq.
Qed.

Lemma DestroyEntity_bounded w (e : Z) :
  registry_bounded (World.componentRegistry w) →
  ∃ b w', World.DestroyEntity w e = Some (b, w') ∧
          registry_bounded (World.componentRegistry w').
Proof.
  intros Hb. unfold World.DestroyEntity.
  destruct (EntityManagerFacts.IsValid_total (World.entityManager w) e) as [[] Hv];
    rewrite Hv; simpl; [|eauto].
  destruct (RemoveAllComponents_post _ e Hb) as (cr' & -> & Hb' & _). simpl.
  destruct (EntityManagerFacts.Destroy_valid _ e Hv) as (em' & ->). simpl.
  do 2 eexists. split; [reflexivity|done].
Qed.

(** The pools of any world built through the facade are within their
    bounds: the hypothesis of the query and cascade theorems holds for it. *)
Lemma built_any_bounded w : built_any w → registry_bounded (World.componentRegistry w).
Proof.
  induction 1 as [|w e w' _ IH Hop|w e b w' _ IH Hop|T w e c w' _ IH Hroom Hop
                 |T w e b w' _ IH Hop].
  - intros id ts Hts. simpl in Hts. by rewrite lookup_empty in Hts.
  - unfold World.CreateEntity in Hop.
    destruct (EntityManager.Create _) as [[e0 em]|]; simpl in Hop; [|done].
    by injection Hop as _ <-.
  - destruct (DestroyEntity_bounded w e IH) as (b0 & w0 & Heq & ?).
    rewrite Heq in Hop. by injection Hop as _ <-.
  - destruct (AddComponent_bounded T w e c IH Hroom) as (w0 & Heq & ?).
    rewrite Heq in Hop. by injection Hop as <-.
  - destruct (RemoveComponent_bounded T w e IH) as (b0 & w0 & Heq & ?).
    rewrite Heq in Hop. by injection Hop as _ <-.
Qed.

End Built.

End Facade.

(** ** Recycling: what the entity manager does with a destroyed handle *)

Module Recycling.
Import EntityManager.

(** [Create] only ever makes handles of generation 0: both branches set
    [generation = 0]. *)
Lemma Create_generation_zero (em em' : t) (e : Z) :
  Create em = Some (e, em') → ∃ index, e = Entity.makeEntity index 0.
Proof.
  unfold Create. destruct (bool_decide (0 ≤ freeHead em)).
  - destruct (Go.index _ _) as [stored|]; simpl; [|done].
    destruct (bool_decide (stored = _)); simpl;
      destruct (Go.store _ _ _); simpl; [|done| |done]; intros [= <- _]; eauto.
  - intros [= <- _]. eauto.
Qed.

(** Invalid handles are turned away by the facade before any pool or the
    registry is touched. *)
Lemma invalid_handle_guard {Val : Type} (T : string) (w : World.t Val) (e : Z) (c : Val) :
  IsValid (World.entityManager w) e = Some false →
  World.AddComponent T w e c = Some w ∧
  World.RemoveComponent T w e = Some (false, w) ∧
  World.GetComponent T w e = Some None ∧
  World.HasComponent T w e = Some false ∧
  World.DestroyEntity w e = Some (false, w).
Proof.
  intros Hv. unfold World.AddComponent, World.RemoveComponent, World.GetComponent,
    World.HasComponent, World.DestroyEntity. rewrite Hv. simpl. done.
Qed.

Lemma null_is_invalid (em : t) : IsValid em Entity.NullEntity = Some false.
Proof. reflexivity. Qed.

Lemma issued_Generation (e : Z) : Facade.issued e → Entity.Generation e = 0.
Proof.
  intros He. unfold Entity.Generation. change Entity.EntityIndexBits with 20.
  rewrite Z.shiftr_div_pow2, Z.div_small by (unfold Facade.issued in He; lia).
  apply Z.land_0_l.
Qed.

(** The defect is systematic: whenever a handle that [Create] can have made
    is destroyed and the next [Create] follows, that [Create] returns the
    very same handle, and the destroyed handle is valid again. *)
Lemma reuse_returns_same_handle (em em1 em2 : t) (e e' : Z) :
  Facade.issued e →
  Destroy em e = Some (true, em1) → Create em1 = Some (e', em2) →
  e' = e ∧ IsValid em2 e = Some true.
Proof.
  intros He Hd Hc. pose proof (Facade.issued_Index e He) as Hidx.
  pose proof (issued_Generation e He) as Hgen.
  unfold Destroy in Hd. unfold IsValid.
  destruct (Entity.IsValid e); simpl in *; [|done].
  rewrite Hidx, Hgen in *.
  destruct (bool_decide_reflect (Go.uint32 (Go.len (entities em)) ≤ e)) as [|Hlen];
    [done|].
  destruct (Go.index (entities em) e) as [g|]; simpl in Hd; [|done].
  destruct (bool_decide (g = 0)); simpl in Hd; [|done].
  assert (∃ link, Go.store (entities em) e link = Some (entities em1) ∧
                  freeHead em1 = Go.int32 e) as (link & Hst & Hfh).
  { destruct (bool_decide (0 ≤ freeHead em));
      destruct (Go.store _ _ _) as [ents|] eqn:Hst; simpl in Hd; try done;
      injection Hd as <-; eauto. }
  apply GoFacts.store_inv in Hst as [Hrange Hents].
  unfold Facade.issued in He.
  rewrite GoFacts.int32_small in Hfh by lia.
  unfold Create in Hc. rewrite Hfh in Hc.
  rewrite bool_decide_eq_true_2 in Hc by lia.
  rewrite GoFacts.uint32_small in Hc by lia.
  assert (Go.len (entities em1) = Go.len (entities em)) as Hlen1.
  { unfold Go.len. by rewrite Hents, length_insert. }
  destruct (Go.index (entities em1) e) as [stored|] eqn:Hstored; simpl in Hc.
  2: { destruct (GoFacts.index_is_Some (entities em1) e) as [? ?]; [lia|congruence]. }
  assert (∃ head, Go.store (entities em1) e 0 ≫= (λ ents,
                    Some (Entity.makeEntity e 0, mk ents head)) = Some (e', em2))
    as (head & Hc').
  { destruct (bool_decide (stored = e)); eauto. }
  rewrite GoFacts.store_Some in Hc' by lia. simpl in Hc'.
  injection Hc' as <- <-. simpl.
  assert (Entity.makeEntity e 0 = e) as Hme.
  { unfold Entity.makeEntity. rewrite Z.land_0_l, Z.shiftl_0_l, Z.lor_0_l.
    fold (Entity.Index e). exact Hidx. }
  split; [done|].
  assert (Go.len (<[Z.to_nat e := 0]> (entities em1)) = Go.len (entities em)) as Hlen2.
  { rewrite <-Hlen1. unfold Go.len. by rewrite length_insert. }
  rewrite Hlen2, bool_decide_eq_false_2 by done.
  rewrite (proj2 (GoFacts.index_Some _ _ 0)); [done|].
  split; [lia|]. apply list_lookup_insert_eq. unfold Go.len in *. lia.
Qed.

(** C1 at its failing input.  On a fresh manager: [e := Create()],
    [Destroy(e)] succeeds, the next [Create()] reuses index 0 and returns a
    handle equal to [e], and [IsValid(e)] is true afterwards. *)
Theorem recycled_handle_equals_destroyed :
  (let em0 := NewEntityManager in
   '(e, em1) ← Create em0;
   '(destroyed, em2) ← Destroy em1 e;
   '(e', em3) ← Create em2;
   valid ← IsValid em3 e;
   Some (e, destroyed, e', Entity.Index e', bool_decide (e' = e), valid))
  = Some (0, true, 0, 0, true, true).
Proof. vm_compute. reflexivity. Qed.

(** C4 at its failing inputs.  On a fresh manager a second [Destroy(e0)]
    returns true; with two entities, after [Destroy(e0)], [Destroy(e1)], a
    second [Destroy(e1)] returns true and rewrites the free-list link of
    slot 1, which drops slot 0 from the free list. *)
Theorem double_destroy_accepted :
  (let em0 := NewEntityManager in
   '(e0, em1) ← Create em0;
   '(first, em2) ← Destroy em1 e0;
   '(second, em3) ← Destroy em2 e0;
   Some (first, second))
  = Some (true, true) ∧
  (let em0 := NewEntityManager in
   '(e0, em1) ← Create em0;
   '(e1, em2) ← Create em1;
   '(_, em3) ← Destroy em2 e0;
   '(first, em4) ← Destroy em3 e1;
   '(second, em5) ← Destroy em4 e1;
   Some (first, em4, second, em5))
  = Some (true, mk [0; 0] 1, true, mk [0; 1] 1).
Proof. split; vm_compute; reflexivity. Qed.

(** C5 at its failing input.  In a fresh world, after [e := CreateEntity()]
    and a successful [DestroyEntity(e)], the destroyed handle still passes
    [IsValid]: [AddComponent] registers the type and stores the value,
    [GetComponent] finds it and [RemoveComponent] returns true. *)
Theorem destroyed_handle_still_mutates :
  (let w0 : World.t Z := World.NewWorld in
   '(e, w1) ← World.CreateEntity w0;
   '(destroyed, w2) ← World.DestroyEntity w1 e;
   valid ← World.IsValidEntity w2 e;
   w3 ← World.AddComponent "P" w2 e 42;
   got ← World.GetComponent "P" w3 e;
   '(removed, w4) ← World.RemoveComponent "P" w3 e;
   Some (destroyed, valid,
         size (ComponentRegistry.storages (World.componentRegistry w2)),
         TypedStorage.pool <$> ComponentRegistry.storages (World.componentRegistry w3) !! 0,
         got, removed))
  = Some (true, true, 0%nat,
          Some (ComponentPool.mk (SparseSet.mk [0] [0] 1) [42]),
          Some 42, true).
Proof. vm_compute. reflexivity. Qed.

End Recycling.

(** ** Handle layout: index and generation fields *)

Module HandleLayout.

Lemma makeEntity_sum (index generation : Z) :
  Entity.makeEntity index generation
  = generation mod 2 ^ 12 * 2 ^ 20 + index mod 2 ^ 20.
Proof.
  unfold Entity.makeEntity.
  change Entity.EntityGenerationMask with (Z.ones 12).
  change Entity.EntityIndexMask with (Z.ones 20).
  change Entity.EntityIndexBits with 20.
  rewrite !Z.land_ones by lia.
  rewrite <-Z.lxor_lor, <-Z.add_nocarry_lxor, Z.shiftl_mul_pow2; try lia.
  all: apply Z.bits_inj'; intros n Hn; rewrite Z.land_spec, Z.bits_0;
    destruct (decide (n < 20));
    [ rewrite Z.shiftl_spec_low by lia; done
    | rewrite (Z.mod_pow2_bits_high index) by lia; apply andb_false_r ].
Qed.

Lemma makeEntity_fields (index generation : Z) :
  Entity.Index (Entity.makeEntity index generation) = index mod 2 ^ 20 ∧
  Entity.Generation (Entity.makeEntity index generation) = generation mod 2 ^ 12 ∧
  0 ≤ Entity.makeEntity index generation < 2 ^ 32.
Proof.
  pose proof (Z.mod_pos_bound index (2 ^ 20) ltac:(lia)) as Hi.
  pose proof (Z.mod_pos_bound generation (2 ^ 12) ltac:(lia)) as Hg.
  rewrite EntityFacts.Index_mod. unfold Entity.Generation.
  change Entity.EntityGenerationMask with (Z.ones 12).
  change Entity.EntityIndexBits with 20.
  rewrite Z.land_ones, Z.shiftr_div_pow2 by lia.
  rewrite makeEntity_sum.
  rewrite Z.add_comm, Z.mod_add, Z.div_add by lia.
  rewrite (Z.mod_small (index mod 2 ^ 20)), (Z.div_small (index mod 2 ^ 20)) by lia.
  rewrite Z.add_0_l, Z.mod_mod by lia.
  repeat split; lia.
Qed.

(** X1: the two fields of a handle.  [makeEntity] keeps the low 20 bits of
    the index and the low 12 bits of the generation, [Index] and
    [Generation] read them back, and a 32-bit handle is rebuilt from its
    fields.  The handle made from the last index and the last generation is
    the null sentinel, and no other one is. *)
Theorem makeEntity_round_trip :
  (∀ index generation,
     Entity.Index (Entity.makeEntity index generation) = index mod 2 ^ 20 ∧
     Entity.Generation (Entity.makeEntity index generation) = generation mod 2 ^ 12 ∧
     0 ≤ Entity.makeEntity index generation < 2 ^ 32) ∧
  (∀ e, 0 ≤ e < 2 ^ 32 →
     Entity.makeEntity (Entity.Index e) (Entity.Generation e) = e) ∧
  (∀ index generation,
     Entity.IsValid (Entity.makeEntity index generation) = false ↔
     index mod 2 ^ 20 = 2 ^ 20 - 1 ∧ generation mod 2 ^ 12 = 2 ^ 12 - 1).
Proof.
  split; [exact makeEntity_fields|]. split.
  - intros e He.
    destruct (makeEntity_fields (Entity.Index e) (Entity.Generation e))
      as (Hi & Hg & Hr).
    apply SparseSetFacts.entity_eq_iff; [done..|].
    rewrite Hi, Hg. split.
    + apply Z.mod_small, EntityFacts.Index_range.
    + apply Z.mod_small. unfold Entity.Generation.
      change Entity.EntityGenerationMask with (Z.ones 12).
      rewrite Z.land_ones by lia. apply Z.mod_pos_bound. lia.
  - intros index generation.
    pose proof (Z.mod_pos_bound index (2 ^ 20) ltac:(lia)) as Hi.
    pose proof (Z.mod_pos_bound generation (2 ^ 12) ltac:(lia)) as Hg.
    unfold Entity.IsValid. rewrite makeEntity_sum. unfold Entity.NullEntity.
    destruct (bool_decide_reflect
                (generation mod 2 ^ 12 * 2 ^ 20 + index mod 2 ^ 20 = 4294967295));
      simpl; split; try done; lia.
Qed.

Lemma makeEntity_round_trip_witness :
  Entity.makeEntity (Entity.Index 3145733) (Entity.Generation 3145733) = 3145733.
Proof. apply (proj1 (proj2 makeEntity_round_trip) 3145733). lia. Defined.

End HandleLayout.

(** ** Entity manager: slots and the free list *)

Module ManagerProps.

Import EntityManager.

(** What every manager built through its methods satisfies: the free head
    and every stored value (a generation or a free-list link) lie below the
    number of slots. *)
Definition em_ok (em : t) : Prop :=
  freeHead em < Go.len (entities em) ∧
  Forall (λ v, 0 ≤ v < Go.len (entities em)) (entities em).

(** Managers built from [NewEntityManager]; [Destroy] is given any handle. *)
Inductive em_reach : t → Prop :=
| em_new : em_reach NewEntityManager
| em_create em e em' : em_reach em → Create em = Some (e, em') → em_reach em'
| em_destroy em e b em' : em_reach em → Destroy em e = Some (b, em') → em_reach em'
| em_clear em : em_reach em → em_reach (Clear em).

Lemma int32_le (z : Z) : 0 ≤ z → Go.int32 z ≤ z.
Proof.
  intros Hz. unfold Go.int32.
  pose proof (Z.mod_le (z + 2 ^ 31) (2 ^ 32)). lia.
Qed.

Lemma Create_fresh (em : t) :
  freeHead em < 0 →
  Create em = Some (Entity.makeEntity (Go.uint32 (Go.len (entities em))) 0,
                    mk (entities em ++ [0]) (freeHead em)).
Proof. intros Hfh. unfold Create. by rewrite bool_decide_eq_false_2 by lia. Qed.

Lemma Create_reuse (em : t) (stored : Z) :
  0 ≤ freeHead em →
  Go.index (entities em) (Go.uint32 (freeHead em)) = Some stored →
  Create em
  = Some (Entity.makeEntity (Go.uint32 (freeHead em)) 0,
          mk (<[Z.to_nat (Go.uint32 (freeHead em)) := 0]> (entities em))
             (if bool_decide (stored = Go.uint32 (freeHead em))
              then -1 else Go.int32 stored)).
Proof.
  intros Hfh Hst. unfold Create. rewrite bool_decide_eq_true_2 by done.
  rewrite Hst. simpl. apply GoFacts.index_lt in Hst.
  destruct (bool_decide (stored = Go.uint32 (freeHead em)));
    by rewrite GoFacts.store_Some.
Qed.

Lemma Create_ok (em : t) :
  em_ok em → ∃ e em', Create em = Some (e, em') ∧ em_ok em'.
Proof.
  intros [Hfh Hall]. destruct (decide (0 ≤ freeHead em)) as [Hpos|Hneg].
  - pose proof (GoFacts.uint32_le (freeHead em) Hpos) as Hu.
    destruct (GoFacts.index_is_Some (entities em) (Go.uint32 (freeHead em)))
      as [stored Hst]; [lia|].
    rewrite (Create_reuse em stored Hpos Hst). do 2 eexists. split; [done|].
    apply GoFacts.index_Some in Hst as [_ Hst].
    pose proof (proj1 (Forall_lookup _ _) Hall _ _ Hst) as Hs. simpl in Hs.
    split; simpl; unfold Go.len in *; rewrite length_insert.
    + destruct (bool_decide _); [lia|]. pose proof (int32_le stored). lia.
    + apply Forall_insert; [done|lia].
  - rewrite Create_fresh by lia. do 2 eexists. split; [done|].
    split; simpl; unfold Go.len in *; rewrite length_app; simpl; [lia|].
    apply Forall_app. split.
    + eapply Forall_impl; [exact Hall|]. simpl. intros; lia.
    + apply Forall_singleton. lia.
Qed.

Lemma Destroy_spec (em : t) (e : Z) :
  ∃ (b : bool) em',
    Destroy em e = Some (b, em') ∧ IsValid em e = Some b ∧
    (b = false → em' = em) ∧
    (b = true →
     Entity.Index e < Go.len (entities em) ∧
     em' = mk (<[Z.to_nat (Entity.Index e) :=
                 if bool_decide (0 ≤ freeHead em) then Go.uint32 (freeHead em)
                 else Entity.Index e]> (entities em))
              (Entity.Index e)).
Proof.
  unfold Destroy, IsValid. destruct (Entity.IsValid e); simpl.
  2: { exists false, em. done. }
  pose proof (EntityFacts.Index_range e) as Hidx.
  pose proof (GoFacts.uint32_le (Go.len (entities em))) as Hu.
  destruct (bool_decide_reflect (Go.uint32 (Go.len (entities em)) ≤ Entity.Index e))
    as [|Hlt].
  { exists false, em. done. }
  assert (0 ≤ Entity.Index e < Go.len (entities em)) as Hin
    by (unfold Go.len in *; lia).
  destruct (GoFacts.index_is_Some (entities em) (Entity.Index e) Hin) as [g ->].
  simpl. destruct (bool_decide_reflect (g = Entity.Generation e)); simpl.
  2: { exists false, em. done. }
  exists true. rewrite GoFacts.int32_small by lia.
  destruct (bool_decide (0 ≤ freeHead em)); rewrite GoFacts.store_Some by done;
    simpl; eexists; repeat split; try done; lia.
Qed.

Lemma Destroy_ok (em : t) (e : Z) :
  em_ok em → ∃ b em', Destroy em e = Some (b, em') ∧ em_ok em'.
Proof.
  intros [Hfh Hall].
  destruct (Destroy_spec em e) as (b & em' & Hd & _ & Hf & Ht).
  exists b, em'. split; [done|]. destruct b.
  - destruct (Ht eq_refl) as [Hlt ->].
    pose proof (EntityFacts.Index_range e) as Hidx.
    split; simpl; unfold Go.len in *; rewrite length_insert; [done|].
    apply Forall_insert; [done|].
    destruct (bool_decide_reflect (0 ≤ freeHead em)); [|lia].
    pose proof (GoFacts.uint32_le (freeHead em)). lia.
  - by rewrite (Hf eq_refl).
Qed.

Lemma em_reach_ok (em : t) : em_reach em → em_ok em.
Proof.
  induction 1 as [|em e em' _ IH Hc|em e b em' _ IH Hd|em _ _].
  - split; [done|constructor].
  - destruct (Create_ok em IH) as (? & ? & Hc' & Hok). congruence.
  - destruct (Destroy_ok em e IH) as (? & ? & Hd' & Hok). congruence.
  - split; [done|constructor].
Qed.

(** X2: no operation of the entity manager indexes its slot array out of
    range.  On every manager built from [NewEntityManager] by [Create],
    [Destroy] (of any handle whatever) and [Clear], the three operations
    return, and the free head stays below the number of slots. *)
Theorem manager_never_faults (em : t) :
  em_reach em →
  is_Some (Create em) ∧
  (∀ e, is_Some (Destroy em e)) ∧
  (∀ e, is_Some (IsValid em e)) ∧
  freeHead em < Size em.
Proof.
  intros Hr. pose proof (em_reach_ok em Hr) as Hok. repeat split.
  - destruct (Create_ok em Hok) as (? & ? & -> & _). by eexists.
  - intros e. destruct (Destroy_spec em e) as (? & ? & -> & _). by eexists.
  - intros e. apply EntityManagerFacts.IsValid_total.
  - apply Hok.
Qed.

(** A manager in which a double [Destroy] has left slot 1 linked to
    itself while slot 0 is live again. *)
Definition after_double_destroy : t := mk [0; 1] 1.

Lemma em_reach_after_double_destroy : em_reach after_double_destroy.
Proof.
  apply (em_destroy (mk [0; 0] 1) 1 true); [|reflexivity].
  apply (em_destroy (mk [0; 0] 0) 1 true); [|reflexivity].
  apply (em_destroy (mk [0; 0] (-1)) 0 true); [|reflexivity].
  apply (em_create (mk [0] (-1)) 1); [|reflexivity].
  apply (em_create NewEntityManager 0); [|reflexivity].
  apply em_new.
Defined.

Lemma manager_never_faults_witness :
  is_Some (Create after_double_destroy) ∧
  is_Some (Destroy after_double_destroy 1) ∧
  is_Some (IsValid after_double_destroy 1) ∧
  freeHead after_double_destroy < Size after_double_destroy.
Proof.
  destruct (manager_never_faults _ em_reach_after_double_destroy)
    as (Hc & Hd & Hv & Hfh).
  exact (conj Hc (conj (Hd 1) (conj (Hv 1) Hfh))).
Defined.

Lemma issued_handle (index : Z) :
  0 ≤ index < 2 ^ 20 → Entity.makeEntity index 0 = index.
Proof.
  intros Hi. rewrite HandleLayout.makeEntity_sum.
  rewrite (Z.mod_small index) by lia. by rewrite Z.mod_0_l by lia.
Qed.

Lemma IsValid_slot (em : t) (e : Z) (g : Z) :
  0 ≤ e < 2 ^ 20 → e < Go.len (entities em) → Go.len (entities em) < 2 ^ 32 →
  entities em !! Z.to_nat e = Some g →
  IsValid em e = Some (bool_decide (g = 0)).
Proof.
  intros He Hlen Hsmall Hg. unfold IsValid.
  assert (Entity.IsValid e = true) as ->.
  { apply EntityFacts.IsValid_true. unfold Entity.NullEntity. lia. }
  simpl. rewrite (Facade.issued_Index e), (Recycling.issued_Generation e) by done.
  rewrite GoFacts.uint32_small by (unfold Go.len in *; lia).
  rewrite bool_decide_eq_false_2 by lia.
  by rewrite (proj2 (GoFacts.index_Some (entities em) e g)) by (split; [lia|done]).
Qed.

(** X3: a handle is valid as soon as it is issued.  While fewer than 2^20
    slots exist, [Create] returns a handle of generation 0 that [IsValid]
    accepts at once; it takes the slot at the head of the free list and
    leaves the number of slots alone, or, with no free slot, appends a slot
    and returns its index. *)
Theorem Create_issues_valid_handle (em : t) :
  em_reach em → Size em < 2 ^ 20 →
  ∃ e em',
    Create em = Some (e, em') ∧ IsValid em' e = Some true ∧
    Entity.Generation e = 0 ∧
    (freeHead em < 0 →
     Entity.Index e = Size em ∧ Size em' = Size em + 1 ∧ freeHead em' = freeHead em) ∧
    (0 ≤ freeHead em → Entity.Index e = freeHead em ∧ Size em' = Size em).
Proof.
  intros Hr Hsz. destruct (em_reach_ok em Hr) as [Hfh Hall]. unfold Size in *.
  destruct (decide (0 ≤ freeHead em)) as [Hpos|Hneg].
  - destruct (GoFacts.index_is_Some (entities em) (Go.uint32 (freeHead em)))
      as [stored Hst]; [rewrite GoFacts.uint32_small by lia; lia|].
    rewrite (Create_reuse em stored Hpos Hst).
    rewrite (GoFacts.uint32_small (freeHead em)) by lia.
    rewrite issued_handle by lia. do 2 eexists. split; [done|].
    split; [|split; [|split]].
    + rewrite (IsValid_slot _ _ 0); [done|lia|..]; simpl; unfold Go.len in *;
        rewrite ?length_insert; try lia.
      apply list_lookup_insert_eq. lia.
    + apply Recycling.issued_Generation. unfold Facade.issued. lia.
    + lia.
    + intros _. simpl. unfold Go.len. rewrite length_insert.
      split; [|done]. apply Facade.issued_Index. unfold Facade.issued. lia.
  - rewrite Create_fresh by lia.
    rewrite GoFacts.uint32_small by (unfold Go.len in *; lia).
    rewrite issued_handle by (unfold Go.len in *; lia).
    do 2 eexists. split; [done|]. split; [|split; [|split]].
    + rewrite (IsValid_slot _ _ 0); [done|..]; simpl; unfold Go.len in *;
        rewrite ?length_app; simpl; try lia.
      rewrite Nat2Z.id. by rewrite lookup_app_r, Nat.sub_diag.
    + apply Recycling.issued_Generation. unfold Facade.issued, Go.len in *. lia.
    + intros _. simpl. unfold Go.len in *. rewrite length_app. simpl.
      split; [|split; [lia|done]].
      apply Facade.issued_Index. unfold Facade.issued. lia.
    + lia.
Qed.

Lemma Create_issues_valid_handle_witness :
  ∃ e em',
    Create after_double_destroy = Some (e, em') ∧ IsValid em' e = Some true ∧
    Entity.Index e = 1.
Proof.
  destruct (Create_issues_valid_handle _ em_reach_after_double_destroy)
    as (e & em' & Hc & Hv & _ & _ & Hre); [by vm_compute|].
  exists e, em'. split; [done|]. split; [done|]. apply Hre. by vm_compute.
Defined.

(** X4: [Create] has no capacity check.  With the free list empty and 2^20
    slots or more, the new slot's index no longer fits the 20 index bits:
    the handle returned carries the index reduced modulo 2^20, which is the
    handle of a slot that exists already. *)
Theorem Create_wraps_past_index_space (em : t) :
  freeHead em < 0 → 2 ^ 20 ≤ Size em < 2 ^ 32 - 1 →
  ∃ e em',
    Create em = Some (e, em') ∧ Size em' = Size em + 1 ∧
    e = Size em mod 2 ^ 20 ∧ Entity.Index e + 2 ^ 20 ≤ Size em ∧
    IsValid em' e = IsValid em e.
Proof.
  intros Hfh Hsz. unfold Size in *. rewrite Create_fresh by done.
  rewrite GoFacts.uint32_small by lia.
  rewrite HandleLayout.makeEntity_sum, Z.mod_0_l, Z.mul_0_l, Z.add_0_l by lia.
  pose proof (Z.mod_pos_bound (Go.len (entities em)) (2 ^ 20) ltac:(lia)) as Hm.
  pose proof (Z.div_mod (Go.len (entities em)) (2 ^ 20) ltac:(lia)) as Hdm.
  assert (1 ≤ Go.len (entities em) / 2 ^ 20) as Hq
    by (apply Z.div_le_lower_bound; lia).
  set (e := Go.len (entities em) mod 2 ^ 20) in *.
  assert (Entity.Index e = e) as Hidx
    by (apply Facade.issued_Index; unfold Facade.issued; lia).
  do 2 eexists. split; [done|]. simpl.
  split; [unfold Go.len; rewrite length_app; simpl; lia|].
  split; [done|]. split; [lia|].
  destruct (lookup_lt_is_Some_2 (entities em) (Z.to_nat e)) as [g Hg];
    [unfold Go.len in *; lia|].
  unfold IsValid. rewrite Hidx. simpl.
  destruct (negb (Entity.IsValid e)); [done|].
  assert (Go.uint32 (Go.len (entities em ++ [0])) ≤ e
          ↔ Go.uint32 (Go.len (entities em)) ≤ e) as Hiff.
  { unfold Go.len in *. rewrite length_app. simpl.
    rewrite !GoFacts.uint32_small by lia. lia. }
  rewrite (bool_decide_ext _ _ Hiff).
  destruct (bool_decide _); [done|].
  rewrite !(proj2 (GoFacts.index_Some _ e g)); [done|split; [lia|done]|].
  split; [lia|]. by apply lookup_app_l_Some.
Qed.

(** A manager whose 2^20 slots are all live. *)
Definition full_index_space : t := mk (replicate (Z.to_nat (2 ^ 20)) 0) (-1).

Lemma Create_wraps_past_index_space_witness :
  ∃ e em',
    Create full_index_space = Some (e, em') ∧
    Size em' = Size full_index_space + 1 ∧
    e = Size full_index_space mod 2 ^ 20 ∧
    Entity.Index e + 2 ^ 20 ≤ Size full_index_space ∧
    IsValid em' e = IsValid full_index_space e.
Proof.
  apply Create_wraps_past_index_space.
  - change (freeHead full_index_space) with (-1). lia.
  - unfold Size, Go.len.
    change (entities full_index_space) with (replicate (Z.to_nat (2 ^ 20)) 0).
    rewrite length_replicate, Z2Nat.id; lia.
Defined.

(** X5: [Destroy] accepts exactly the handles [IsValid] accepts.  A handle
    it turns away (the null handle, an index beyond the slots, a stored
    value that differs from the handle's generation) leaves the manager as
    it was; an accepted one makes its slot the head of the free list,
    keeps the number of slots and touches no other slot. *)
Theorem Destroy_agrees_with_IsValid (em : t) (e : Z) :
  ∃ (b : bool) em',
    Destroy em e = Some (b, em') ∧ IsValid em e = Some b ∧
    (b = false → em' = em) ∧
    (b = true →
     freeHead em' = Entity.Index e ∧ Size em' = Size em ∧
     ∀ i, i ≠ Entity.Index e →
          Go.index (entities em') i = Go.index (entities em) i).
Proof.
  destruct (Destroy_spec em e) as (b & em' & Hd & Hv & Hf & Ht).
  exists b, em'. do 3 (split; [done|]). intros Hb.
  destruct (Ht Hb) as [Hlt ->]. simpl. split; [done|].
  pose proof (EntityFacts.Index_range e) as Hidx.
  split; [unfold Size, Go.len; simpl; by rewrite length_insert|].
  intros i Hi. unfold Go.index. destruct (bool_decide_reflect (0 ≤ i)); [|done].
  apply list_lookup_insert_ne. lia.
Qed.

Lemma Destroy_agrees_with_IsValid_witness :
  ∃ (b : bool) em',
    Destroy after_double_destroy 0 = Some (b, em') ∧
    IsValid after_double_destroy 0 = Some b ∧ freeHead em' = 0.
Proof.
  destruct (Destroy_agrees_with_IsValid after_double_destroy 0)
    as (b & em' & Hd & Hv & _ & Ht).
  exists b, em'. split; [done|]. split; [done|].
  apply Ht. vm_compute in Hv. by injection Hv as <-.
Defined.

(** X6: the free list hands a slot straight back.  When a valid handle of
    generation 0 is destroyed and [Create] is called next, [Create] returns
    that very handle and the manager is again what it was before the
    [Destroy]. *)
Theorem Destroy_then_Create_restores (em : t) (e : Z) :
  Facade.issued e → IsValid em e = Some true →
  -1 ≤ freeHead em < 2 ^ 31 → freeHead em ≠ e →
  ∃ em1, Destroy em e = Some (true, em1) ∧ Create em1 = Some (e, em).
Proof.
  intros He Hv Hfh Hne. pose proof He as He'. unfold Facade.issued in He'.
  destruct (Destroy_spec em e) as (b & em1 & Hd & Hv' & _ & Ht).
  assert (b = true) as -> by congruence.
  rewrite (Facade.issued_Index e He) in Ht.
  destruct (Ht eq_refl) as [Hlt Heq]. clear Ht. exists em1. split; [exact Hd|].
  rewrite Heq. clear Hd Heq em1.
  assert (entities em !! Z.to_nat e = Some 0) as Hslot.
  { destruct (lookup_lt_is_Some_2 (entities em) (Z.to_nat e)) as [g Hg];
      [unfold Go.len in *; lia|].
    revert Hv. unfold IsValid.
    destruct (negb (Entity.IsValid e)); simpl; [done|].
    rewrite (Facade.issued_Index e He), (Recycling.issued_Generation e He).
    destruct (bool_decide _); [done|].
    rewrite (proj2 (GoFacts.index_Some _ e g)) by (split; [lia|done]). simpl.
    intros [= Hg0%bool_decide_eq_true]. by subst. }
  set (link := if bool_decide (0 ≤ freeHead em) then Go.uint32 (freeHead em) else e).
  rewrite (Create_reuse _ link); simpl; rewrite ?GoFacts.uint32_small by lia;
    [|lia|].
  2: { apply GoFacts.index_Some. split; [lia|].
       apply list_lookup_insert_eq. unfold Go.len in *. lia. }
  rewrite issued_handle by lia.
  rewrite list_insert_insert_eq, (list_insert_id _ _ _ Hslot).
  f_equal. f_equal. destruct em as [ents fh]. simpl in *. f_equal.
  subst link. destruct (bool_decide_reflect (0 ≤ fh)).
  - rewrite GoFacts.uint32_small by lia.
    rewrite bool_decide_eq_false_2 by done. apply GoFacts.int32_small. lia.
  - rewrite bool_decide_eq_true_2 by done. lia.
Qed.

Lemma Destroy_then_Create_restores_witness :
  ∃ em1, Destroy (mk [0; 0; 1] 2) 1 = Some (true, em1) ∧
         Create em1 = Some (1, mk [0; 0; 1] 2).
Proof.
  apply Destroy_then_Create_restores;
    [unfold Facade.issued; lia|reflexivity|simpl; lia|simpl; lia].
Defined.

End ManagerProps.

(** ** Sparse set: what each operation does to the live entities *)

Module SetProps.

Import SparseSet SparseSetFacts SparseSetInv SparseSetSteps.

Lemma ensureCapacity_id (ss : t) (e : Z) :
  (idx e < length (sparse ss))%nat → ensureCapacity ss (Entity.Index e) = ss.
Proof.
  intros Hlt. unfold ensureCapacity.
  pose proof (EntityFacts.Index_range e). unfold idx, Go.len in *.
  by rewrite bool_decide_eq_false_2 by lia.
Qed.

Lemma member_slot (ss : t) (e : Z) :
  inv ss → e ∈ live ss →
  ∃ k : nat, Z.of_nat k < size ss ∧ dense ss !! k = Some e ∧
             sparse ss !! idx e = Some (Z.of_nat k) ∧ e ≠ Entity.NullEntity.
Proof.
  intros Hinv (k & Hk & He)%elem_of_live.
  destruct (inv_slot ss Hinv k e Hk He) as [Hn Hs]. by exists k.
Qed.

Lemma Index_absent (ss : t) (e : Z) :
  inv ss → e ∉ live ss → Index ss e = Some (-1).
Proof.
  intros Hinv Hnin. unfold Index. rewrite (inv_Contains ss Hinv).
  by rewrite (bool_decide_eq_false_2 (e ∈ live ss)).
Qed.

Lemma At_member (ss : t) (k : nat) (e : Z) :
  Z.of_nat k < size ss → dense ss !! k = Some e → At ss (Z.of_nat k) = Some e.
Proof.
  intros Hk He. rewrite At_in_range by lia. by rewrite GoFacts.index_nat.
Qed.

Lemma Insert_new (ss : t) (e : Z) :
  inv ss → no_clash ss e → e ≠ Entity.NullEntity → e ∉ live ss →
  ∃ ss', Insert ss e = Some (true, ss') ∧ inv ss' ∧
         size ss' = size ss + 1 ∧ live ss' = live ss ++ [e].
Proof.
  intros Hinv Hclash Hn Hnin.
  destruct (Insert_post ss e Hinv Hclash) as (b & ss' & Hins & Hinv' & Hsz & Hlive).
  assert (b = true) as ->; [|by exists ss'].
  revert Hins. unfold Insert.
  rewrite (proj2 (EntityFacts.IsValid_true e) Hn). simpl.
  rewrite (inv_Contains _ (ensureCapacity_inv ss e Hinv)), ensureCapacity_live.
  rewrite (bool_decide_eq_false_2 (e ∈ live ss)) by done. simpl.
  intros (sp & _ & Hins)%bind_Some. apply bind_Some in Hins as (dn & _ & Hins).
  by injection Hins as <- _.
Qed.

Lemma Insert_old (ss : t) (e : Z) :
  inv ss → e = Entity.NullEntity ∨ e ∈ live ss → Insert ss e = Some (false, ss).
Proof.
  intros Hinv [->|Hin]; [done|].
  destruct (member_slot ss e Hinv Hin) as (k & Hk & He & Hs & Hn).
  unfold Insert. rewrite (proj2 (EntityFacts.IsValid_true e) Hn). simpl.
  rewrite ensureCapacity_id by (by eapply lookup_lt_Some).
  rewrite (inv_Contains ss Hinv).
  by rewrite (bool_decide_eq_true_2 (e ∈ live ss)).
Qed.

(** X7: [Insert] adds an entity once, at the end.  On a set that keeps its
    invariant, inserting a non-null entity that is not stored appends it to
    the dense order, after which [Contains] finds it and [Index] is the old
    size; inserting the null handle or an entity already stored returns
    false and changes nothing. *)
Theorem Insert_appends_once (ss : t) (e : Z) :
  inv ss → no_clash ss e →
  (e ≠ Entity.NullEntity → e ∉ live ss →
   ∃ ss', Insert ss e = Some (true, ss') ∧ inv ss' ∧
          live ss' = live ss ++ [e] ∧ Size ss' = Size ss + 1 ∧
          Contains ss' e = Some true ∧ Index ss' e = Some (Size ss)) ∧
  (e = Entity.NullEntity ∨ e ∈ live ss → Insert ss e = Some (false, ss)).
Proof.
  intros Hinv Hclash. split; [|by apply Insert_old].
  intros Hn Hnin.
  destruct (Insert_new ss e Hinv Hclash Hn Hnin) as (ss' & Hins & Hinv' & Hsz & Hlive).
  exists ss'. do 4 (split; [done|]).
  assert (live ss' !! Z.to_nat (size ss) = Some e) as Hlast.
  { rewrite Hlive, lookup_app_r by (rewrite live_length by done; lia).
    by rewrite live_length, Nat.sub_diag by done. }
  apply live_lookup in Hlast as [Hk Hd].
  pose proof (inv_size ss Hinv) as Hsize. split.
  - rewrite (inv_Contains ss' Hinv'). apply f_equal, bool_decide_eq_true_2.
    rewrite Hlive, elem_of_app, list_elem_of_singleton. by right.
  - unfold Size. rewrite <-(Z2Nat.id (size ss)) by lia.
    by apply PoolFacts.Index_member.
Qed.

Lemma Insert_appends_once_witness :
  ∃ ss', Insert SparseSetClaims.after_remove SparseSetClaims.e50 = Some (true, ss') ∧
         live ss' = [SparseSetClaims.e70; SparseSetClaims.e50] ∧
         Index ss' SparseSetClaims.e50 = Some 1.
Proof.
  destruct (Insert_appends_once SparseSetClaims.after_remove SparseSetClaims.e50)
    as [Hnew _].
  - exact (SparseSetClaims.reach_inv _ SparseSetClaims.reach_after_remove).
  - apply (bool_decide_unpack _). exact I.
  - destruct Hnew as (ss' & Hins & _ & Hlive & _ & _ & Hidx).
    + by vm_compute.
    + apply (bool_decide_unpack _). by vm_compute.
    + by exists ss'.
Defined.

Lemma Remove_live (ss : t) (e : Z) (d : nat) (le : Z) :
  inv ss → Z.of_nat d < size ss → dense ss !! d = Some e →
  dense ss !! Z.to_nat (size ss - 1) = Some le →
  let ss' := mk (<[idx e := -1]> (<[idx le := Z.of_nat d]> (sparse ss)))
                (<[d := le]> (dense ss)) (size ss - 1) in
  ∀ x, x ∈ live ss' ↔ x ∈ live ss ∧ x ≠ e.
Proof.
  intros Hinv Hd He Hle ss' x.
  pose proof (Remove_member_inv ss e d le Hinv Hd He Hle) as Hinv'. fold ss' in Hinv'.
  pose proof (inv_size ss Hinv) as Hsz.
  assert (e ∉ live ss') as Hgone.
  { intros (k & Hk & Hx)%elem_of_live. simpl in Hk, Hx.
    destruct (inv_slot ss' Hinv' k e Hk Hx) as [_ Hs]. simpl in Hs.
    rewrite list_lookup_insert_eq in Hs; [by injection Hs; lia|].
    rewrite length_insert.
    destruct (inv_slot ss Hinv d e Hd He) as [_ Hs0]. by eapply lookup_lt_Some. }
  split.
  - intros Hx. split; [|by intros ->].
    apply elem_of_live in Hx as (k & Hk & Hx). simpl in Hk, Hx.
    apply elem_of_live. destruct (decide (k = d)) as [->|Hkd].
    + rewrite list_lookup_insert_eq in Hx by (by eapply lookup_lt_Some).
      injection Hx as <-. exists (Z.to_nat (size ss - 1)). split; [lia|done].
    + rewrite list_lookup_insert_ne in Hx by done. exists k. split; [lia|done].
  - intros [(k & Hk & Hx)%elem_of_live Hne]. apply elem_of_live. simpl.
    destruct (decide (k = Z.to_nat (size ss - 1))) as [->|Hlast].
    + assert (x = le) as -> by congruence.
      exists d. split.
      * destruct (decide (d = Z.to_nat (size ss - 1))) as [->|]; [congruence|lia].
      * apply list_lookup_insert_eq. by eapply lookup_lt_Some.
    + exists k. split; [lia|]. rewrite list_lookup_insert_ne; [done|].
      intros ->. congruence.
Qed.

(** X8: [Remove] takes out exactly the entity it is given.  On a set that
    keeps its invariant, removing a stored entity returns true, lowers the
    size by one and leaves every other stored entity stored; removing an
    entity that is not stored returns false and changes nothing. *)
Theorem Remove_takes_exactly_one (ss : t) (e : Z) :
  inv ss →
  (e ∈ live ss →
   ∃ ss', Remove ss e = Some (true, ss') ∧ inv ss' ∧ Size ss' = Size ss - 1 ∧
          Contains ss' e = Some false ∧
          ∀ x, x ∈ live ss' ↔ x ∈ live ss ∧ x ≠ e) ∧
  (e ∉ live ss → Remove ss e = Some (false, ss)).
Proof.
  intros Hinv. split; [|by apply Remove_absent].
  intros Hin. destruct (Remove_member ss e Hinv Hin) as (d & le & Hd & He & Hle & ->).
  pose proof (Remove_member_inv ss e d le Hinv Hd He Hle) as Hinv'.
  pose proof (Remove_live ss e d le Hinv Hd He Hle) as Hlive. simpl in Hlive.
  eexists. split; [done|]. split; [done|]. split; [done|]. split; [|done].
  rewrite (inv_Contains _ Hinv'). apply f_equal, bool_decide_eq_false_2.
  intros Hx. by apply Hlive in Hx as [_ ?].
Qed.

Lemma Remove_takes_exactly_one_witness :
  ∃ ss', Remove SparseSetClaims.after_remove SparseSetClaims.e70 = Some (true, ss') ∧
         Size ss' = 0 ∧ Contains ss' SparseSetClaims.e70 = Some false.
Proof.
  destruct (Remove_takes_exactly_one SparseSetClaims.after_remove SparseSetClaims.e70)
    as [Hrm _].
  - exact (SparseSetClaims.reach_inv _ SparseSetClaims.reach_after_remove).
  - destruct Hrm as (ss' & Hr & _ & Hsz & Hc & _).
    + apply (bool_decide_unpack _). by vm_compute.
    + by exists ss'.
Defined.



Lemma Contains_Clear (ss : t) (e : Z) : Contains (Clear ss) e = Some false.
Proof.
  unfold Contains. destruct (negb (Entity.IsValid e)); [done|].
  destruct (bool_decide_reflect (Go.len (sparse (Clear ss)) ≤ Entity.Index e))
    as [|Hlt]; [done|].
  pose proof (EntityFacts.Index_range e) as Hidx.
  unfold Clear, Go.len in *. simpl in *. rewrite length_fmap in Hlt.
  rewrite index_idx, list_lookup_fmap.
  destruct (lookup_lt_is_Some_2 (sparse ss) (idx e)) as [v ->]; [unfold idx; lia|].
  done.
Qed.

(** X10: [Clear] empties any set.  Afterwards the size is 0, no entity is
    contained, [Data] is empty and [At] answers the null handle everywhere;
    the arrays keep their lengths. *)
Theorem Clear_empties (ss : t) :
  Size (Clear ss) = 0 ∧ Empty (Clear ss) = true ∧
  (∀ e, Contains (Clear ss) e = Some false) ∧
  (∀ e, Index (Clear ss) e = Some (-1)) ∧
  (∀ i, At (Clear ss) i = Some Entity.NullEntity) ∧
  Data (Clear ss) = Some [] ∧
  Go.len (sparse (Clear ss)) = Go.len (sparse ss) ∧ dense (Clear ss) = dense ss.
Proof.
  pose proof (Contains_Clear ss) as Hc.
  split; [done|]. split; [done|]. split; [done|]. split.
  { intros e. unfold Index. by rewrite Hc. }
  split.
  { intros i. apply At_out_of_range. simpl. lia. }
  split.
  { unfold Data, Go.slice_to. simpl. rewrite bool_decide_eq_true_2; [done|].
    unfold Go.len. lia. }
  split; [|done]. unfold Go.len. simpl. by rewrite length_fmap.
Qed.

(** X11: [Index] and [At] are inverse on the live range.  On a set that
    keeps its invariant, [At(i)] for a position below the size is an entity
    whose [Index] is [i], every stored entity has an [Index] below the size
    at which [At] finds it, and [Index] of an entity that is not stored is
    -1. *)
Theorem Index_At_inverse (ss : t) :
  inv ss →
  (∀ i, 0 ≤ i < Size ss → ∃ e, At ss i = Some e ∧ Index ss e = Some i) ∧
  (∀ e, e ∈ live ss →
        ∃ i, Index ss e = Some i ∧ 0 ≤ i < Size ss ∧ At ss i = Some e) ∧
  (∀ e, e ∉ live ss → Index ss e = Some (-1)).
Proof.
  intros Hinv. pose proof (inv_size ss Hinv) as Hsz. unfold Size.
  split; [|split; [|intros e; by apply Index_absent]].
  - intros i Hi.
    destruct (lookup_lt_is_Some_2 (dense ss) (Z.to_nat i)) as [e He];
      [unfold Go.len in *; lia|].
    exists e. rewrite <-(Z2Nat.id i) by lia.
    split; [apply At_member; [lia|done]|apply PoolFacts.Index_member; [done|lia|done]].
  - intros e Hin. destruct (member_slot ss e Hinv Hin) as (k & Hk & He & _).
    exists (Z.of_nat k). split; [by apply PoolFacts.Index_member|].
    split; [lia|by apply At_member].
Qed.

Lemma Index_At_inverse_witness :
  ∃ e, At SparseSetClaims.after_remove 0 = Some e ∧
       Index SparseSetClaims.after_remove e = Some 0.
Proof.
  destruct (Index_At_inverse SparseSetClaims.after_remove) as [Hat _].
  - exact (SparseSetClaims.reach_inv _ SparseSetClaims.reach_after_remove).
  - apply (Hat 0). by vm_compute.
Defined.

Lemma Swap_dense (ss : t) (i j : Z) (a b : Z) :
  inv ss → 0 ≤ i < size ss → 0 ≤ j < size ss →
  dense ss !! Z.to_nat i = Some a → dense ss !! Z.to_nat j = Some b →
  ∃ ss', Swap ss i j = Some ss' ∧ inv ss' ∧ size ss' = size ss ∧
         dense ss' = <[Z.to_nat j := a]> (<[Z.to_nat i := b]> (dense ss)).
Proof.
  intros Hinv Hi Hj Ha Hb.
  destruct (Swap_inv ss i j Hinv) as (ss' & HS & Hinv' & Hsz).
  exists ss'. do 3 (split; [done|]). revert HS. unfold Swap.
  rewrite (bool_decide_eq_false_2 (i < 0)), (bool_decide_eq_false_2 (size ss ≤ i)),
    (bool_decide_eq_false_2 (j < 0)), (bool_decide_eq_false_2 (size ss ≤ j)) by lia.
  simpl.
  rewrite (proj2 (GoFacts.index_Some (dense ss) i a)) by (split; [lia|done]). simpl.
  rewrite (proj2 (GoFacts.index_Some (dense ss) j b)) by (split; [lia|done]). simpl.
  pose proof (inv_size ss Hinv) as Hsize.
  rewrite (GoFacts.store_Some (dense ss)) by lia. simpl.
  rewrite (GoFacts.store_Some (<[_ := _]> (dense ss)))
    by (unfold Go.len in *; rewrite length_insert; lia).
  simpl. intros (sp1 & _ & HS)%bind_Some. apply bind_Some in HS as (sp2 & _ & HS).
  by injection HS as <-.
Qed.

(** X12: [Swap] exchanges two live positions and nothing else.  With both
    positions below the size, the entities at [i] and [j] change places,
    their [Index] follows them and every other position keeps its entity;
    with a position out of range nothing happens. *)
Theorem Swap_exchanges (ss : t) (i j : Z) :
  (inv ss → 0 ≤ i < Size ss → 0 ≤ j < Size ss →
   ∃ ss' a b,
     Swap ss i j = Some ss' ∧ inv ss' ∧ Size ss' = Size ss ∧
     At ss i = Some a ∧ At ss j = Some b ∧
     At ss' i = Some b ∧ At ss' j = Some a ∧
     Index ss' a = Some j ∧ Index ss' b = Some i ∧
     ∀ k, k ≠ i → k ≠ j → At ss' k = At ss k) ∧
  (i < 0 ∨ Size ss ≤ i ∨ j < 0 ∨ Size ss ≤ j → Swap ss i j = Some ss).
Proof.
  unfold Size. split.
  - intros Hinv Hi Hj. pose proof (inv_size ss Hinv) as Hsize.
    destruct (lookup_lt_is_Some_2 (dense ss) (Z.to_nat i)) as [a Ha];
      [unfold Go.len in *; lia|].
    destruct (lookup_lt_is_Some_2 (dense ss) (Z.to_nat j)) as [b Hb];
      [unfold Go.len in *; lia|].
    destruct (Swap_dense ss i j a b Hinv Hi Hj Ha Hb) as (ss' & HS & Hinv' & Hsz & Hdn).
    assert (dense ss' !! Z.to_nat j = Some a) as Hja.
    { rewrite Hdn. apply list_lookup_insert_eq. rewrite length_insert.
      by eapply lookup_lt_Some. }
    assert (dense ss' !! Z.to_nat i = Some b) as Hib.
    { destruct (decide (Z.to_nat i = Z.to_nat j)) as [Heq|Hne].
      - rewrite Heq, Hja. rewrite Heq in Ha. congruence.
      - rewrite Hdn, list_lookup_insert_ne by done.
        apply list_lookup_insert_eq. by eapply lookup_lt_Some. }
    exists ss', a, b. do 3 (split; [done|]).
    rewrite !At_in_range by lia. unfold Go.index.
    rewrite !bool_decide_eq_true_2 by lia.
    do 4 (split; [done|]).
    split; [|split].
    + rewrite <-(Z2Nat.id j) by lia. apply PoolFacts.Index_member; [done|lia|done].
    + rewrite <-(Z2Nat.id i) by lia. apply PoolFacts.Index_member; [done|lia|done].
    + intros k Hki Hkj. unfold At. rewrite Hsz.
      destruct (bool_decide (k < 0) || bool_decide (size ss ≤ k)) eqn:Hrange; [done|].
      apply orb_false_iff in Hrange as [Hk1%bool_decide_eq_false Hk2%bool_decide_eq_false].
      unfold Go.index. rewrite bool_decide_eq_true_2 by lia.
      rewrite Hdn, !list_lookup_insert_ne by lia. done.
  - intros Hout. unfold Swap.
    destruct (bool_decide_reflect (i < 0)); [done|].
    destruct (bool_decide_reflect (size ss ≤ i)); [done|].
    destruct (bool_decide_reflect (j < 0)); [done|].
    destruct (bool_decide_reflect (size ss ≤ j)); [done|]. lia.
Qed.

(** The set after [Insert(2.0)], [Insert(0.0)], [Insert(1.0)]. *)
Definition unsorted : t := mk [1; 2; 0] [2; 0; 1] 3.

Lemma unsorted_inv : inv unsorted.
Proof.
  split; simpl.
  - unfold Go.len. simpl. lia.
  - unfold Go.len. simpl. lia.
  - intros i e Hi He.
    repeat (destruct i as [|i]; [injection He as <-; split; [done|reflexivity]|]).
    simpl in Hi. lia.
Defined.

Lemma Swap_exchanges_witness :
  ∃ ss' a b,
    Swap unsorted 0 2 = Some ss' ∧ At unsorted 0 = Some a ∧ At unsorted 2 = Some b ∧
    At ss' 0 = Some b ∧ At ss' 2 = Some a ∧
    Index ss' a = Some 2 ∧ Index ss' b = Some 0.
Proof.
  destruct (proj1 (Swap_exchanges unsorted 0 2) unsorted_inv)
    as (ss' & a & b & HS & _ & _ & Ha & Hb & Ha' & Hb' & Hia & Hib & _);
    [by vm_compute..|].
  by exists ss', a, b.
Defined.

(** *** The bubble sort on the dense order *)

(** One comparison of the inner loop, on the list of live entities. *)
Definition bubble (lt : Z → Z → bool) (l : list Z) (j : nat) : list Z :=
  match l !! j, l !! S j with
  | Some b, Some a => if lt a b then <[S j := b]> (<[j := a]> l) else l
  | _, _ => l
  end.

(** The two loops of [Sort], on the list of live entities. *)
Definition sort_list (lt : Z → Z → bool) (l : list Z) : list Z :=
  let n := length l in
  foldl (λ l i, foldl (bubble lt) l (seq 0 (n - i - 1))) l (seq 0 (n - 1)).

Lemma bubble_length lt (l : list Z) (j : nat) : length (bubble lt l j) = length l.
Proof.
  unfold bubble. destruct (l !! j), (l !! S j); try done.
  destruct (lt _ _); [|done]. by rewrite !length_insert.
Qed.

Lemma swap_perm (l : list Z) (j : nat) (a b : Z) :
  l !! j = Some b → l !! S j = Some a → <[S j := b]> (<[j := a]> l) ≡ₚ l.
Proof.
  revert l. induction j as [|j IH]; intros [|x [|y l]] Hb Ha; simplify_eq/=.
  - apply perm_swap.
  - constructor. by apply (IH (y :: l)).
Qed.

Lemma bubble_perm lt (l : list Z) (j : nat) : bubble lt l j ≡ₚ l.
Proof.
  unfold bubble. destruct (l !! j) eqn:Hb, (l !! S j) eqn:Ha; try done.
  destruct (lt _ _); [|done]. by apply swap_perm.
Qed.

Lemma foldl_perm {A} (f : list Z → A → list Z) (js : list A) (l : list Z) :
  (∀ l j, f l j ≡ₚ l) → foldl f l js ≡ₚ l.
Proof.
  intros Hf. revert l. induction js as [|j js IH]; intros l; simpl; [done|].
  by rewrite IH.
Qed.

Lemma foldl_bubble_length lt (js : list nat) (l : list Z) :
  length (foldl (bubble lt) l js) = length l.
Proof. apply Permutation_length, foldl_perm. intros. apply bubble_perm. Qed.

Lemma sort_list_perm lt (l : list Z) : sort_list lt l ≡ₚ l.
Proof.
  unfold sort_list. simpl. apply foldl_perm. intros l' i.
  apply foldl_perm. intros. apply bubble_perm.
Qed.

Section BubbleSort.
Context (lt : Z → Z → bool).
Hypothesis lt_asym : ∀ a b, lt a b = true → lt b a = false.
Hypothesis lt_ntrans : ∀ a b c, lt b a = false → lt c b = false → lt c a = false.

Lemma lt_irrefl (a : Z) : lt a a = false.
Proof. destruct (lt a a) eqn:H; [|done]. by rewrite (lt_asym a a H) in H. Qed.

(** Position [k] holds a greatest element of the positions up to [k]. *)
Definition top_at (l : list Z) (k : nat) : Prop :=
  ∀ p x y, (p ≤ k)%nat → l !! p = Some x → l !! k = Some y → lt y x = false.

(** From position [m] on, every element is in its final place: nothing
    before it is greater. *)
Definition final_from (l : list Z) (m : nat) : Prop :=
  ∀ p q x y, (p < q)%nat → (m ≤ q)%nat →
             l !! p = Some x → l !! q = Some y → lt y x = false.

Lemma bubble_step (l : list Z) (k m : nat) :
  (S k < m)%nat → (S k < length l)%nat → top_at l k → final_from l m →
  top_at (bubble lt l k) (S k) ∧ final_from (bubble lt l k) m.
Proof.
  intros Hkm Hlen Htop Hfin.
  destruct (lookup_lt_is_Some_2 l k) as [b Hb]; [lia|].
  destruct (lookup_lt_is_Some_2 l (S k)) as [a Ha]; [lia|].
  unfold bubble. rewrite Hb, Ha. destruct (lt a b) eqn:Hab.
  - assert (∀ p, <[S k := b]> (<[k := a]> l) !! p
                 = if decide (p = S k) then Some b
                   else if decide (p = k) then Some a else l !! p) as Hlook.
    { intros p. destruct (decide (p = S k)) as [->|Hp1].
      - apply list_lookup_insert_eq. by rewrite length_insert.
      - rewrite list_lookup_insert_ne by done.
        destruct (decide (p = k)) as [->|Hp2].
        + apply list_lookup_insert_eq. lia.
        + by rewrite list_lookup_insert_ne. }
    split.
    + intros p x y Hp Hx Hy. rewrite Hlook in Hx, Hy.
      rewrite decide_True in Hy by done. injection Hy as <-.
      destruct (decide (p = S k)); [injection Hx as <-; apply lt_irrefl|].
      destruct (decide (p = k)); [injection Hx as <-; by apply lt_asym|].
      apply (Htop p x b); [lia|done..].
    + intros p q x y Hpq Hq Hx Hy. rewrite Hlook in Hx, Hy.
      rewrite !decide_False in Hy by lia.
      destruct (decide (p = S k)); [injection Hx as <-; apply (Hfin k q); [lia|done..]|].
      destruct (decide (p = k)); [injection Hx as <-; apply (Hfin (S k) q); [lia|done..]|].
      by apply (Hfin p q).
  - split; [|done]. intros p x y Hp Hx Hy.
    assert (y = a) as -> by congruence.
    destruct (decide (p = S k)) as [->|Hne].
    + assert (x = a) as -> by congruence. apply lt_irrefl.
    + apply (lt_ntrans x b a); [|done]. apply (Htop p x b); [lia|done..].
Qed.

Lemma pass_top (k m : nat) (l : list Z) :
  (k < m)%nat → (m ≤ length l)%nat → final_from l m →
  top_at (foldl (bubble lt) l (seq 0 k)) k ∧
  final_from (foldl (bubble lt) l (seq 0 k)) m.
Proof.
  intros Hkm Hlen Hfin. induction k as [|k IH].
  - split; [|done]. intros p x y Hp Hx Hy.
    assert (p = 0%nat) as -> by lia. assert (x = y) as -> by congruence.
    apply lt_irrefl.
  - rewrite seq_S, foldl_app. simpl.
    destruct IH as [Htop Hfin']; [lia|].
    apply bubble_step; [lia| |done..]. rewrite foldl_bubble_length. lia.
Qed.

Lemma pass_final (m : nat) (l : list Z) :
  (1 ≤ m)%nat → (m ≤ length l)%nat → final_from l m →
  final_from (foldl (bubble lt) l (seq 0 (m - 1))) (m - 1).
Proof.
  intros Hm Hlen Hfin.
  destruct (pass_top (m - 1) m l) as [Htop Hfin']; [lia|done..|].
  intros p q x y Hpq Hq Hx Hy.
  destruct (decide (q = (m - 1)%nat)) as [->|Hne].
  - apply (Htop p x y); [lia|done..].
  - apply (Hfin' p q x y); [done|lia|done..].
Qed.

Lemma passes_final (n i : nat) (l : list Z) :
  length l = n → (i ≤ n - 1)%nat →
  final_from (foldl (λ l i, foldl (bubble lt) l (seq 0 (n - i - 1))) l (seq 0 i))
             (n - i).
Proof.
  intros Hn Hi. induction i as [|i IH].
  - simpl. intros p q x y _ Hq _ Hy. apply lookup_lt_Some in Hy. lia.
  - rewrite seq_S, foldl_app. simpl.
    set (l' := foldl _ l (seq 0 i)) in *.
    assert (length l' = n) as Hlen'.
    { subst l'. rewrite <-Hn. apply Permutation_length, foldl_perm.
      intros l0 j. apply foldl_perm. intros. apply bubble_perm. }
    replace (n - S i)%nat with (n - i - 1)%nat by lia.
    apply pass_final; [lia|lia|]. apply IH. lia.
Qed.

Lemma sort_list_sorted (l : list Z) (p q : nat) (x y : Z) :
  (p < q)%nat → sort_list lt l !! p = Some x → sort_list lt l !! q = Some y →
  lt y x = false.
Proof.
  intros Hpq Hx Hy.
  pose proof (passes_final (length l) (length l - 1) l eq_refl ltac:(lia)) as Hfin.
  apply (Hfin p q x y); [done| |done..].
  apply lookup_lt_Some in Hy. rewrite (Permutation_length (sort_list_perm lt l)) in Hy.
  lia.
Qed.

End BubbleSort.

Lemma sort_step_live lt (ss : t) (j : nat) :
  inv ss → Z.of_nat j + 1 < size ss →
  ∃ ss', sort_step (λ _, lt) ss (Z.of_nat j) = Some ss' ∧ inv ss' ∧
         size ss' = size ss ∧ live ss' = bubble lt (live ss) j.
Proof.
  intros Hinv Hj. pose proof (inv_size ss Hinv) as Hsize.
  destruct (lookup_lt_is_Some_2 (dense ss) j) as [b Hb]; [unfold Go.len in *; lia|].
  destruct (lookup_lt_is_Some_2 (dense ss) (S j)) as [a Ha]; [unfold Go.len in *; lia|].
  unfold sort_step, bubble.
  replace (Z.of_nat j + 1) with (Z.of_nat (S j)) by lia.
  rewrite !GoFacts.index_nat, Ha, Hb. simpl.
  rewrite (proj2 (live_lookup ss j b)), (proj2 (live_lookup ss (S j) a))
    by (split; [lia|done]).
  destruct (lt a b); [|by exists ss].
  destruct (Swap_dense ss (Z.of_nat j) (Z.of_nat (S j)) b a Hinv)
    as (ss' & HS & Hinv' & Hsz & Hdn); [lia|lia|by rewrite Nat2Z.id..|].
  exists ss'. do 3 (split; [done|]).
  rewrite !Nat2Z.id in Hdn. destruct ss' as [sp' dn' sz']. simpl in *. subst.
  unfold live. simpl. by rewrite !take_insert_lt by lia.
Qed.

Lemma pass_live lt (k : nat) (ss : t) :
  inv ss → Z.of_nat k < size ss ∨ k = 0%nat →
  ∃ ss', Go.for_each (sort_step (λ _, lt)) (seqZ 0 (Z.of_nat k)) ss = Some ss' ∧
         inv ss' ∧ size ss' = size ss ∧
         live ss' = foldl (bubble lt) (live ss) (seq 0 k).
Proof.
  intros Hinv Hk. induction k as [|k IH]; [by exists ss|].
  destruct Hk as [Hk|]; [|done].
  destruct IH as (ss1 & Hrun & Hinv1 & Hsz1 & Hlive1); [lia|].
  rewrite seq_S, foldl_app, <-Hlive1.
  rewrite seqZ_S, Z.add_0_l, GoFacts.for_each_app, Hrun. simpl.
  destruct (sort_step_live lt ss1 k Hinv1) as (ss2 & Hstep & Hinv2 & Hsz2 & Hlive2);
    [lia|].
  rewrite Hstep. simpl. exists ss2. split; [done|]. split; [done|].
  split; [lia|done].
Qed.

Lemma Sort_live lt (ss : t) :
  inv ss →
  ∃ ss', Sort ss (λ _, lt) = Some ss' ∧ inv ss' ∧ size ss' = size ss ∧
         live ss' = sort_list lt (live ss).
Proof.
  intros Hinv. pose proof (inv_size ss Hinv) as Hsize.
  unfold Sort, sort_list. simpl. rewrite (live_length ss Hinv).
  set (n := Z.to_nat (size ss)).
  assert (∀ i : nat, (i ≤ n - 1)%nat →
    ∃ ss', Go.for_each
             (λ ss i, Go.for_each (sort_step (λ _, lt)) (seqZ 0 (size ss - i - 1)) ss)
             (seqZ 0 (Z.of_nat i)) ss = Some ss' ∧
           inv ss' ∧ size ss' = size ss ∧
           live ss' = foldl (λ l i, foldl (bubble lt) l (seq 0 (n - i - 1)))
                            (live ss) (seq 0 i)) as Hpasses.
  { induction i as [|i IH]; intros Hi; [by exists ss|].
    destruct IH as (ss1 & Hrun & Hinv1 & Hsz1 & Hlive1); [lia|].
    rewrite seq_S, foldl_app, <-Hlive1.
    rewrite seqZ_S, Z.add_0_l, GoFacts.for_each_app, Hrun. simpl.
    destruct (pass_live lt (n - i - 1) ss1 Hinv1) as (ss2 & Hpass & Hinv2 & Hsz2 & Hlive2);
      [left; lia|].
    replace (size ss1 - Z.of_nat i - 1) with (Z.of_nat (n - i - 1)) by lia.
    rewrite Hpass. simpl. exists ss2. split; [done|]. split; [done|].
    split; [lia|done]. }
  destruct (Hpasses (n - 1)%nat) as (ss' & Hrun & Hinv' & Hsz & Hlive); [lia|].
  exists ss'. split; [|done].
  rewrite <-Hrun. f_equal. destruct (decide (size ss ≤ 0)).
  - replace (n - 1)%nat with 0%nat by lia. simpl. by rewrite seqZ_nil by lia.
  - f_equal. lia.
Qed.

(** X13: [Sort] sorts the dense order.  For a comparison that reads only
    its two arguments and is a strict weak order, [Sort] returns on a set
    that keeps its invariant, keeps the invariant and the stored entities,
    and leaves them ordered: no entity is less than one placed before
    it. *)
Theorem Sort_orders_dense (lt : Z → Z → bool) (ss : t) :
  inv ss →
  (∀ a b, lt a b = true → lt b a = false) →
  (∀ a b c, lt b a = false → lt c b = false → lt c a = false) →
  ∃ ss', Sort ss (λ _, lt) = Some ss' ∧ inv ss' ∧ Size ss' = Size ss ∧
         live ss' ≡ₚ live ss ∧
         ∀ (p q : nat) x y, (p < q)%nat →
           live ss' !! p = Some x → live ss' !! q = Some y → lt y x = false.
Proof.
  intros Hinv Hasym Htrans.
  destruct (Sort_live lt ss Hinv) as (ss' & HS & Hinv' & Hsz & Hlive).
  exists ss'. do 3 (split; [done|]). rewrite Hlive.
  split; [apply sort_list_perm|]. intros p q x y.
  by apply sort_list_sorted.
Qed.

Lemma Sort_orders_dense_witness :
  ∃ ss', Sort unsorted (λ _, Z.ltb) = Some ss' ∧ live ss' ≡ₚ live unsorted ∧
         ∀ (p q : nat) x y, (p < q)%nat →
           live ss' !! p = Some x → live ss' !! q = Some y → (y <? x) = false.
Proof.
  destruct (Sort_orders_dense Z.ltb unsorted unsorted_inv)
    as (ss' & HS & _ & _ & Hperm & Hsorted).
  - intros a b. rewrite Z.ltb_lt, Z.ltb_ge. lia.
  - intros a b c. rewrite !Z.ltb_ge. lia.
  - by exists ss'.
Defined.

Example Sort_unsorted : (Sort unsorted (λ _, Z.ltb)) ≫= Data = Some [0; 1; 2].
Proof. reflexivity. Qed.

Lemma Respect_live (ss other : t) :
  inv ss → inv other → size other ≠ 0 →
  ∃ ss', Respect ss other = Some ss' ∧ inv ss' ∧ size ss' = size ss ∧
         live ss' = filter (λ e, e ∈ live ss) (live other)
                    ++ filter (λ e, e ∉ live other) (live ss).
Proof.
  intros Hinv Hother Hne.
  destruct (Respect_inv ss other Hinv Hother) as (ss' & HR & Hinv' & Hsz & Hperm).
  exists ss'. do 3 (split; [done|]). revert HR. unfold Respect.
  rewrite bool_decide_eq_false_2 by done.
  rewrite (respect_present_filter ss other Hinv (inv_size other Hother)). simpl.
  rewrite (respect_rest_filter ss _ Hinv). simpl.
  set (nd1 := filter (λ e, e ∈ live ss) (live other)).
  rewrite (filter_ext_elem (λ e, e ∉ nd1) (λ e, e ∉ live other) (live ss)).
  2: { intros x Hx. unfold nd1. rewrite list_elem_of_filter. tauto. }
  set (nd2 := nd1 ++ filter (λ e, e ∉ live other) (live ss)).
  intros (pre & _ & HR)%bind_Some. apply bind_Some in HR as (sp & _ & HR).
  injection HR as <-.
  assert (length nd2 = Z.to_nat (size ss)) as Hlen.
  { assert (NoDup nd2) as Hnd.
    { apply NoDup_app. split; [apply NoDup_filter, live_NoDup, Hother|].
      split; [|apply NoDup_filter, live_NoDup, Hinv].
      intros x [_ Hx]%list_elem_of_filter [Hnx _]%list_elem_of_filter. done. }
    assert (nd2 ≡ₚ live ss) as Hp2.
    { apply NoDup_Permutation; [done|by apply live_NoDup|].
      intros x. unfold nd2, nd1.
      rewrite elem_of_app, !list_elem_of_filter.
      destruct (decide (x ∈ live other)); tauto. }
    by rewrite Hp2, live_length. }
  unfold live at 1. simpl. rewrite <-Hlen. by rewrite take_app_length.
Qed.

(** X14: [Respect] puts the entities shared with the other set first, in
    the other set's order, and the rest after them in their old order.  No
    entity is added or lost.  With an empty other set nothing happens. *)
Theorem Respect_follows_other (ss other : t) :
  (inv ss → inv other → Size other ≠ 0 →
   ∃ ss', Respect ss other = Some ss' ∧ inv ss' ∧ Size ss' = Size ss ∧
          live ss' = filter (λ e, e ∈ live ss) (live other)
                     ++ filter (λ e, e ∉ live other) (live ss)) ∧
  (Size other = 0 → Respect ss other = Some ss).
Proof.
  split; [apply Respect_live|].
  unfold Size, Respect. intros ->. done.
Qed.

(** The set after [Insert(1.0)], [Insert(3.0)], [Insert(2.0)]. *)
Definition leader : t := mk [-1; 0; 2; 1] [1; 3; 2] 3.

Lemma leader_inv : inv leader.
Proof.
  split; simpl.
  - unfold Go.len. simpl. lia.
  - unfold Go.len. simpl. lia.
  - intros i e Hi He.
    repeat (destruct i as [|i]; [injection He as <-; split; [done|reflexivity]|]).
    simpl in Hi. lia.
Defined.

Lemma Respect_follows_other_witness :
  ∃ ss', Respect unsorted leader = Some ss' ∧
         live ss' = filter (λ e, e ∈ live unsorted) (live leader)
                    ++ filter (λ e, e ∉ live leader) (live unsorted).
Proof.
  destruct (proj1 (Respect_follows_other unsorted leader) unsorted_inv leader_inv)
    as (ss' & HR & _ & _ & Hlive); [by vm_compute|].
  by exists ss'.
Defined.

Example Respect_unsorted_leader : Respect unsorted leader ≫= Data = Some [1; 2; 0].
Proof. reflexivity. Qed.

End SetProps.

(** ** Component pools: values follow their entities *)

Module PoolProps.

Import SparseSetFacts SparseSetInv SparseSetSteps PoolFacts.

Section Pool.
Context {T : Type}.
Implicit Types cp : ComponentPool.t T.

Lemma Get_at cp (e : Z) (k : nat) :
  pool_inv cp → live (ComponentPool.entities cp) !! k = Some e →
  ComponentPool.Get cp e = Some (ComponentPool.components cp !! k) ∧
  is_Some (ComponentPool.components cp !! k).
Proof.
  intros [Hinv Hlen] [Hk Hd]%live_lookup.
  destruct (lookup_lt_is_Some_2 (ComponentPool.components cp) k) as [v Hv];
    [unfold Go.len in *; lia|].
  split; [|by eexists]. rewrite Hv. by eapply Get_member.
Qed.

Lemma Get_absent cp (e : Z) :
  pool_inv cp → e ∉ live (ComponentPool.entities cp) →
  ComponentPool.Get cp e = Some None.
Proof.
  intros [Hinv _] Hnin. unfold ComponentPool.Get.
  rewrite (inv_Contains _ Hinv).
  by rewrite (bool_decide_eq_false_2 (e ∈ live (ComponentPool.entities cp))).
Qed.

Lemma live_position_inj (ss : SparseSet.t) (e : Z) (k k' : nat) :
  inv ss → live ss !! k = Some e → live ss !! k' = Some e → k = k'.
Proof.
  intros Hinv Hk Hk'. by eapply NoDup_lookup; [apply live_NoDup|..].
Qed.

Lemma Insert_present cp (e : Z) (c : T) (k : nat) :
  pool_inv cp → live (ComponentPool.entities cp) !! k = Some e →
  ComponentPool.Insert cp e c
  = Some (ComponentPool.mk (ComponentPool.entities cp)
                           (<[k := c]> (ComponentPool.components cp))).
Proof.
  intros [Hinv Hlen] Hlk. pose proof Hlk as [Hk Hd]%live_lookup.
  unfold ComponentPool.Insert. rewrite (inv_Contains _ Hinv).
  rewrite (bool_decide_eq_true_2 (e ∈ live _)) by (by eapply list_elem_of_lookup_2).
  simpl. rewrite (Index_member _ e k) by done. simpl.
  rewrite GoFacts.store_Some by lia. simpl. by rewrite Nat2Z.id.
Qed.

Lemma Insert_absent cp (e : Z) (c : T) :
  pool_inv cp → no_clash (ComponentPool.entities cp) e →
  e ≠ Entity.NullEntity → e ∉ live (ComponentPool.entities cp) →
  ∃ es comps,
    ComponentPool.Insert cp e c = Some (ComponentPool.mk es comps) ∧
    inv es ∧ SparseSet.size es = SparseSet.size (ComponentPool.entities cp) + 1 ∧
    live es = live (ComponentPool.entities cp) ++ [e] ∧
    SparseSet.size es ≤ Go.len comps ∧
    comps !! Z.to_nat (SparseSet.size (ComponentPool.entities cp)) = Some c ∧
    ∀ k : nat, Z.of_nat k < SparseSet.size (ComponentPool.entities cp) →
               comps !! k = ComponentPool.components cp !! k.
Proof.
  intros [Hinv Hlen] Hclash Hn Hnin. pose proof (inv_size _ Hinv) as Hsz.
  destruct (SetProps.Insert_new _ e Hinv Hclash Hn Hnin)
    as (es & Hins & Hinv' & Hsz' & Hlive').
  unfold ComponentPool.Insert. rewrite (inv_Contains _ Hinv).
  rewrite (bool_decide_eq_false_2 (e ∈ live _)) by done. simpl.
  rewrite Hins. simpl. unfold SparseSet.Size. rewrite Hsz'.
  replace (SparseSet.size (ComponentPool.entities cp) + 1 - 1)
    with (SparseSet.size (ComponentPool.entities cp)) by lia.
  destruct (bool_decide_reflect
              (Go.len (ComponentPool.components cp)
               ≤ SparseSet.size (ComponentPool.entities cp))) as [Hle|Hgt].
  - assert (Z.to_nat (SparseSet.size (ComponentPool.entities cp))
            = length (ComponentPool.components cp)) as Heq
      by (unfold Go.len in *; lia).
    do 2 eexists. split; [done|]. do 3 (split; [done|]).
    unfold Go.len in *. rewrite length_app. simpl. split; [lia|]. split.
    + by rewrite Heq, lookup_app_r, Nat.sub_diag.
    + intros k Hk. apply lookup_app_l. lia.
  - rewrite GoFacts.store_Some by lia. simpl.
    do 2 eexists. split; [done|]. do 3 (split; [done|]).
    unfold Go.len in *. rewrite length_insert. split; [lia|]. split.
    + apply list_lookup_insert_eq. lia.
    + intros k Hk. apply list_lookup_insert_ne. lia.
Qed.

Lemma Contains_by_Get cp (x : Z) :
  pool_inv cp →
  ComponentPool.Contains cp x
  = Some (match ComponentPool.Get cp x with Some (Some _) => true | _ => false end).
Proof.
  intros Hpool. pose proof Hpool as [Hinv _].
  unfold ComponentPool.Contains. rewrite (inv_Contains _ Hinv). f_equal.
  destruct (decide (x ∈ live (ComponentPool.entities cp))) as [Hin|Hout].
  - rewrite (bool_decide_eq_true_2 (x ∈ live _)) by done.
    apply list_elem_of_lookup in Hin as [k Hk].
    by destruct (Get_at cp x k Hpool Hk) as [-> [v ->]].
  - rewrite (bool_decide_eq_false_2 (x ∈ live _)) by done.
    by rewrite (Get_absent cp x Hpool Hout).
Qed.

(** The value [Insert] leaves for its entity, and the values it leaves
    alone. *)
Lemma Insert_values cp (e : Z) (c : T) :
  pool_inv cp → no_clash (ComponentPool.entities cp) e → e ≠ Entity.NullEntity →
  ∃ cp',
    ComponentPool.Insert cp e c = Some cp' ∧ pool_inv cp' ∧
    ComponentPool.Get cp' e = Some (Some c) ∧
    ∀ x, x ≠ e → ComponentPool.Get cp' x = ComponentPool.Get cp x.
Proof.
  intros Hpool Hclash Hn. pose proof Hpool as [Hinv Hlen].
  pose proof (inv_size _ Hinv) as Hsz.
  destruct (decide (e ∈ live (ComponentPool.entities cp))) as [Hin|Hnin].
  - apply list_elem_of_lookup in Hin as Hk. destruct Hk as [k Hlk].
    pose proof Hlk as [Hk Hd]%live_lookup.
    rewrite (Insert_present cp e c k Hpool Hlk).
    set (cp' := ComponentPool.mk _ _).
    assert (pool_inv cp') as Hpool'.
    { split; [done|]. simpl. unfold Go.len in *. by rewrite length_insert. }
    exists cp'. split; [done|]. split; [done|]. split.
    + destruct (Get_at cp' e k Hpool' Hlk) as [-> _]. simpl.
      f_equal. apply list_lookup_insert_eq. unfold Go.len in *. lia.
    + intros x Hx. destruct (decide (x ∈ live (ComponentPool.entities cp))) as [Hxin|Hxout].
      * apply list_elem_of_lookup in Hxin as [k' Hlk'].
        destruct (Get_at cp' x k' Hpool' Hlk') as [-> _].
        destruct (Get_at cp x k' Hpool Hlk') as [-> _]. simpl.
        f_equal. apply list_lookup_insert_ne. intros ->. congruence.
      * by rewrite (Get_absent cp' x Hpool' Hxout), (Get_absent cp x Hpool Hxout).
  - destruct (Insert_absent cp e c Hpool Hclash Hn Hnin)
      as (es & comps & -> & Hinv' & Hsz' & Hlive' & Hlen' & Hnew & Hold).
    set (cp' := ComponentPool.mk es comps).
    assert (pool_inv cp') as Hpool' by done.
    assert (live es !! Z.to_nat (SparseSet.size (ComponentPool.entities cp)) = Some e)
      as Hlast.
    { rewrite Hlive', lookup_app_r by (rewrite live_length by done; lia).
      by rewrite live_length, Nat.sub_diag by done. }
    exists cp'. split; [done|]. split; [done|]. split.
    + destruct (Get_at cp' e _ Hpool' Hlast) as [-> _]. simpl. by f_equal.
    + intros x Hx. destruct (decide (x ∈ live (ComponentPool.entities cp))) as [Hxin|Hxout].
      * apply list_elem_of_lookup in Hxin as [k' Hlk'].
        pose proof Hlk' as [Hk' _]%live_lookup.
        assert (live es !! k' = Some x) as Hlk''.
        { rewrite Hlive'. by apply lookup_app_l_Some. }
        destruct (Get_at cp' x k' Hpool' Hlk'') as [-> _].
        destruct (Get_at cp x k' Hpool Hlk') as [-> _]. simpl.
        f_equal. by apply Hold.
      * rewrite (Get_absent cp x Hpool Hxout). apply Get_absent; [done|].
        simpl. rewrite Hlive', elem_of_app, list_elem_of_singleton. tauto.
Qed.


End Pool.


Section Iteration.
Context {T : Type}.
Implicit Types cp : ComponentPool.t T.

(** What one round of [ForEach] does to the callback's state and to the
    values written so far. *)
Definition visit {St : Type} (fn : St → Z → T → St * T)
    (acc : St * list T) (ev : Z * T) : St * list T :=
  let '(s', v') := fn acc.1 ev.1 ev.2 in (s', acc.2 ++ [v']).

Lemma ForEach_loop {St : Type} (fn : St → Z → T → St * T) (l : list Z) :
  ∀ (k : nat) (s : St) (vs rest : list T),
    length vs = k → (length l ≤ length rest)%nat →
    Go.for_each
      (λ '(s, comps) '(i, entity),
         v ← Go.index comps (Z.of_nat i);
         let '(s', v') := fn s entity v in
         comps' ← Go.store comps (Z.of_nat i) v';
         Some (s', comps'))
      (imap (λ i entity, ((k + i)%nat, entity)) l) (s, vs ++ rest)
    = Some ((foldl (visit fn) (s, vs) (zip l rest)).1,
            (foldl (visit fn) (s, vs) (zip l rest)).2 ++ drop (length l) rest).
Proof.
  induction l as [|e l IH]; intros k s vs rest Hk Hlen; [done|].
  destruct rest as [|v rest]; [simpl in Hlen; lia|]. simpl in Hlen.
  cbn [imap Go.for_each zip zip_with foldl length drop].
  rewrite Nat.add_0_r, GoFacts.index_nat.
  rewrite lookup_app_r, Hk, Nat.sub_diag by lia. simpl.
  unfold visit at 2 4. simpl. destruct (fn s e v) as [s' v'] eqn:Hfn.
  rewrite GoFacts.store_Some by (unfold Go.len; rewrite length_app; simpl; lia).
  simpl. rewrite Nat2Z.id.
  replace (<[k := v']> (vs ++ v :: rest)) with ((vs ++ [v']) ++ rest).
  2: { rewrite <-Hk, insert_app_r_alt, Nat.sub_diag by lia. simpl.
       by rewrite <-app_assoc. }
  rewrite <-(IH (S k) s' (vs ++ [v']) rest);
    [|rewrite length_app; simpl; lia|lia].
  f_equal. apply imap_ext. intros i x _. simpl. f_equal. lia.
Qed.

Lemma foldl_visit_update (f : Z → T → T) (l : list (Z * T)) (vs : list T) :
  foldl (visit (λ (s : unit) e v, (s, f e v))) (tt, vs) l
  = (tt, vs ++ ((λ ev, f ev.1 ev.2) <$> l)).
Proof.
  revert vs. induction l as [|[e v] l IH]; intros vs; simpl.
  - by rewrite app_nil_r.
  - unfold visit at 2. simpl. by rewrite IH, <-app_assoc.
Qed.

Lemma foldl_visit_read {St : Type} (g : St → Z → T → St) (l : list (Z * T))
    (s : St) (vs : list T) :
  foldl (visit (λ s e v, (g s e v, v))) (s, vs) l
  = (foldl (λ s ev, g s ev.1 ev.2) s l, vs ++ l.*2).
Proof.
  revert s vs. induction l as [|[e v] l IH]; intros s vs; simpl.
  - by rewrite app_nil_r.
  - unfold visit at 2. simpl. by rewrite IH, <-app_assoc.
Qed.

Lemma snd_zip_take (l : list Z) (k : list T) :
  (length l ≤ length k)%nat → (zip l k).*2 = take (length l) k.
Proof.
  intros Hlen. rewrite <-(zip_with_take_r pair l k).
  apply snd_zip. rewrite length_take. lia.
Qed.

Lemma ForEach_run {St : Type} cp (fn : St → Z → T → St * T) (s : St) :
  pool_inv cp →
  let es := ComponentPool.entities cp in
  let r := foldl (visit fn) (s, []) (zip (live es) (ComponentPool.components cp)) in
  PoolAccess.ForEach cp fn s
  = Some (r.1, ComponentPool.mk es
                 (r.2 ++ drop (Z.to_nat (SparseSet.size es))
                              (ComponentPool.components cp))).
Proof.
  intros [Hinv Hlen] es r. pose proof (inv_size _ Hinv) as Hsz. subst es r.
  unfold PoolAccess.ForEach, SparseSet.Data.
  rewrite GoFacts.slice_to_Some by done. simpl.
  fold (live (ComponentPool.entities cp)).
  pose proof (ForEach_loop fn (live (ComponentPool.entities cp)) 0 s []
                (ComponentPool.components cp) eq_refl) as Hloop.
  simpl in Hloop. rewrite Hloop; [|rewrite live_length by done; unfold Go.len in *; lia].
  simpl. by rewrite live_length.
Qed.

Lemma ForEach_update cp (f : Z → T → T) :
  pool_inv cp →
  ∃ cp', PoolAccess.ForEach cp (λ (s : unit) e v, (s, f e v)) tt = Some (tt, cp') ∧
         pool_inv cp' ∧
         ComponentPool.entities cp' = ComponentPool.entities cp ∧
         ∀ e v, ComponentPool.Get cp e = Some (Some v) →
                ComponentPool.Get cp' e = Some (Some (f e v)).
Proof.
  intros Hpool. pose proof Hpool as [Hinv Hlen].
  pose proof (inv_size _ Hinv) as Hsz.
  assert (length (live (ComponentPool.entities cp))
          ≤ length (ComponentPool.components cp))%nat as Hll
    by (rewrite live_length by done; unfold Go.len in *; lia).
  rewrite (ForEach_run cp _ tt Hpool). simpl.
  rewrite foldl_visit_update. simpl.
  set (vs := (λ ev : Z * T, f ev.1 ev.2) <$> _).
  assert (length vs = Z.to_nat (SparseSet.size (ComponentPool.entities cp))) as Hvs.
  { unfold vs. rewrite length_fmap, length_zip, live_length by done.
    rewrite live_length in Hll by done. lia. }
  set (cp' := ComponentPool.mk _ _).
  assert (pool_inv cp') as Hpool'.
  { split; [done|]. simpl. unfold Go.len in *.
    rewrite length_app, length_drop. lia. }
  exists cp'. do 3 (split; [done|]). intros e v Hget.
  destruct (decide (e ∈ live (ComponentPool.entities cp))) as [Hin|Hout];
    [|by rewrite (Get_absent cp e Hpool Hout) in Hget].
  apply list_elem_of_lookup in Hin as [k Hk].
  destruct (Get_at cp e k Hpool Hk) as [Hg _]. rewrite Hg in Hget.
  injection Hget as Hv.
  destruct (Get_at cp' e k Hpool' Hk) as [-> _]. simpl. f_equal.
  rewrite lookup_app_l by (rewrite Hvs; apply live_lookup in Hk; lia).
  unfold vs. rewrite list_lookup_fmap.
  by rewrite (proj2 (lookup_zip_Some _ _ k e v) (conj Hk Hv)).
Qed.

(** X16: [ForEach] visits every member once, in dense order, with its own
    component.  On a pool that keeps its invariant it returns; a callback
    that only reads sees the pairs of entity and value in dense order and
    leaves the pool as it was; a callback that writes [f e v] through the
    pointer leaves every member [e] with [f e v] for its old value [v],
    and the entities untouched. *)
Theorem ForEach_visits_members cp :
  pool_inv cp →
  (∀ (St : Type) (g : St → Z → T → St) (s : St),
     PoolAccess.ForEach cp (λ s e v, (g s e v, v)) s
     = Some (foldl (λ s ev, g s ev.1 ev.2) s
                   (zip (live (ComponentPool.entities cp))
                        (ComponentPool.components cp)),
             cp)) ∧
  (∀ f : Z → T → T,
     ∃ cp', PoolAccess.ForEach cp (λ (s : unit) e v, (s, f e v)) tt = Some (tt, cp') ∧
            pool_inv cp' ∧
            ComponentPool.entities cp' = ComponentPool.entities cp ∧
            ∀ e v, ComponentPool.Get cp e = Some (Some v) →
                   ComponentPool.Get cp' e = Some (Some (f e v))).
Proof.
  intros Hpool. pose proof Hpool as [Hinv Hlen].
  pose proof (inv_size _ Hinv) as Hsz.
  assert (length (live (ComponentPool.entities cp))
          ≤ length (ComponentPool.components cp))%nat as Hll
    by (rewrite live_length by done; unfold Go.len in *; lia).
  split.
  - intros St g s. rewrite (ForEach_run cp _ s Hpool). simpl.
    rewrite foldl_visit_read. simpl. do 2 f_equal.
    rewrite snd_zip_take by done. rewrite live_length by done.
    rewrite take_drop. by destruct cp.
  - intros f. by apply ForEach_update.
Qed.

End Iteration.

Lemma ForEach_visits_members_witness :
  PoolAccess.ForEach PoolClaims.pool5 (λ s e v, (s + v, v)) 0
  = Some (foldl (λ s ev, s + ev.2) 0
                (zip (live (ComponentPool.entities PoolClaims.pool5))
                     (ComponentPool.components PoolClaims.pool5)),
          PoolClaims.pool5).
Proof.
  exact (proj1 (ForEach_visits_members PoolClaims.pool5 PoolClaims.pool5_inv)
               Z (λ s _ v, s + v) 0).
Defined.

Section Reordering.
Context {T : Type}.
Implicit Types cp : ComponentPool.t T.

Lemma pool_sort_step (less : Z → T → Z → T → bool) (comps : list T)
    (ss : SparseSet.t) (j : nat) :
  inv ss → SparseSet.size ss ≤ Go.len comps → Z.of_nat j + 1 < SparseSet.size ss →
  ∃ ss', PoolAccess.sort_step less comps ss (Z.of_nat j) = Some ss' ∧ inv ss' ∧
         SparseSet.size ss' = SparseSet.size ss ∧ live ss' ≡ₚ live ss.
Proof.
  intros Hinv Hlen Hj. pose proof (inv_size ss Hinv) as Hsize.
  destruct (lookup_lt_is_Some_2 (SparseSet.dense ss) j) as [b Hb];
    [unfold Go.len in *; lia|].
  destruct (lookup_lt_is_Some_2 (SparseSet.dense ss) (S j)) as [a Ha];
    [unfold Go.len in *; lia|].
  destruct (lookup_lt_is_Some_2 comps j) as [vb Hvb]; [unfold Go.len in *; lia|].
  destruct (lookup_lt_is_Some_2 comps (S j)) as [va Hva]; [unfold Go.len in *; lia|].
  unfold PoolAccess.sort_step.
  replace (Z.of_nat j + 1) with (Z.of_nat (S j)) by lia.
  rewrite !GoFacts.index_nat, Ha, Hb. simpl.
  rewrite (Index_member ss a (S j)), (Index_member ss b j) by (done || lia). simpl.
  rewrite !GoFacts.index_nat, Hva, Hvb. simpl.
  destruct (less a va b vb); [|by exists ss].
  destruct (SetProps.Swap_dense ss (Z.of_nat j) (Z.of_nat (S j)) b a Hinv)
    as (ss' & HS & Hinv' & Hsz & Hdn); [lia|lia|by rewrite Nat2Z.id..|].
  exists ss'. do 3 (split; [done|]).
  rewrite !Nat2Z.id in Hdn. unfold live. rewrite Hsz, Hdn.
  rewrite !take_insert_lt by lia. apply SetProps.swap_perm.
  - rewrite lookup_take_lt by lia. done.
  - rewrite lookup_take_lt by lia. done.
Qed.

Lemma pool_Sort cp (less : Z → T → Z → T → bool) :
  pool_inv cp →
  ∃ es, PoolAccess.Sort cp less
        = Some (ComponentPool.mk es (ComponentPool.components cp)) ∧
        inv es ∧ SparseSet.size es = SparseSet.size (ComponentPool.entities cp) ∧
        live es ≡ₚ live (ComponentPool.entities cp).
Proof.
  intros [Hinv Hlen]. unfold PoolAccess.Sort.
  set (P := λ s : SparseSet.t,
         inv s ∧ SparseSet.size s = SparseSet.size (ComponentPool.entities cp) ∧
         live s ≡ₚ live (ComponentPool.entities cp)).
  destruct (GoFacts.for_each_preserves P
              (λ ss i, Go.for_each
                 (PoolAccess.sort_step less (ComponentPool.components cp))
                 (seqZ 0 (SparseSet.size ss - i - 1)) ss)
              (seqZ 0 (SparseSet.size (ComponentPool.entities cp) - 1)))
    with (s := ComponentPool.entities cp) as (es & -> & Hes); [|done|by exists es].
  intros s i [Hi _]%elem_of_seqZ (Hs & Hsize & Hperm).
  apply (GoFacts.for_each_preserves P); [|done].
  intros s' j [Hj Hj']%elem_of_seqZ (Hs' & Hsize' & Hperm').
  destruct (pool_sort_step less (ComponentPool.components cp) s' (Z.to_nat j) Hs')
    as (s'' & Hstep & ? & ? & ?); [lia..|].
  rewrite Z2Nat.id in Hstep by lia.
  exists s''. split; [done|]. split; [done|]. split; [congruence|].
  by etrans.
Qed.

(** X17: [ComponentPool.Sort] reorders the entities only.  On a pool that
    keeps its invariant it returns, the stored entities are the same up to
    order and the component slice is untouched: the entity that ends at
    dense position [k] now reads the value of the entity that was at
    position [k] before. *)
Theorem Sort_leaves_values_in_place cp (less : Z → T → Z → T → bool) :
  pool_inv cp →
  ∃ cp', PoolAccess.Sort cp less = Some cp' ∧ pool_inv cp' ∧
         ComponentPool.components cp' = ComponentPool.components cp ∧
         live (ComponentPool.entities cp') ≡ₚ live (ComponentPool.entities cp) ∧
         ∀ (k : nat) e e0,
           live (ComponentPool.entities cp') !! k = Some e →
           live (ComponentPool.entities cp) !! k = Some e0 →
           ComponentPool.Get cp' e = ComponentPool.Get cp e0.
Proof.
  intros Hpool. destruct (pool_Sort cp less Hpool) as (es & -> & Hinv & Hsz & Hperm).
  set (cp' := ComponentPool.mk es _).
  assert (pool_inv cp') as Hpool'.
  { split; [done|]. simpl. rewrite Hsz. apply Hpool. }
  exists cp'. do 4 (split; [done|]). intros k e e0 Hk Hk0.
  destruct (Get_at cp' e k Hpool' Hk) as [-> _].
  by destruct (Get_at cp e0 k Hpool Hk0) as [-> _].
Qed.

End Reordering.

(** The pool after [Insert(2.0, 20)], [Insert(0.0, 0)], [Insert(1.0, 10)]. *)
Definition tens : ComponentPool.t Z := ComponentPool.mk SetProps.unsorted [20; 0; 10].

Lemma tens_inv : pool_inv tens.
Proof. split; [exact SetProps.unsorted_inv|]. unfold Go.len. simpl. lia. Defined.

Lemma Sort_leaves_values_in_place_witness :
  ∃ cp', PoolAccess.Sort tens (λ a _ b _, a <? b) = Some cp' ∧
         ComponentPool.components cp' = ComponentPool.components tens ∧
         ∀ (k : nat) e e0,
           live (ComponentPool.entities cp') !! k = Some e →
           live (ComponentPool.entities tens) !! k = Some e0 →
           ComponentPool.Get cp' e = ComponentPool.Get tens e0.
Proof.
  destruct (Sort_leaves_values_in_place tens (λ a _ b _, a <? b) tens_inv)
    as (cp' & HS & _ & Hc & _ & Hget).
  by exists cp'.
Defined.

(** Sorted by entity, entity 0 sits where entity 2 was and reads its
    value. *)
Example Sort_tens :
  (cp' ← PoolAccess.Sort tens (λ a _ b _, a <? b);
   es ← SparseSet.Data (ComponentPool.entities cp');
   v0 ← ComponentPool.Get cp' 0;
   Some (es, ComponentPool.components cp', ComponentPool.Get tens 0, v0))
  = Some ([0; 1; 2], [20; 0; 10], Some (Some 0), Some 20).
Proof. reflexivity. Qed.

Lemma for_each_ext {S A} (f g : S → A → option S) (l : list A) (s : S) :
  (∀ s x, x ∈ l → f s x = g s x) → Go.for_each f l s = Go.for_each g l s.
Proof.
  revert s. induction l as [|x l IH]; intros s Hfg; [done|]. simpl.
  rewrite Hfg by apply list_elem_of_here.
  destruct (g s x) as [s'|]; [|done]. simpl. apply IH.
  intros s0 y Hy. apply Hfg. by apply list_elem_of_further.
Qed.

(** A loop over the live positions of a set that reads [At(i)] is a loop
    over its live entities. *)
Lemma for_each_At {S} (f : S → Z → option S) (other : SparseSet.t) (s : S) :
  0 ≤ SparseSet.size other ≤ Go.len (SparseSet.dense other) →
  Go.for_each (λ s i, x ← SparseSet.At other i; f s x)
              (seqZ 0 (SparseSet.Size other)) s
  = Go.for_each f (live other) s.
Proof.
  intros Hsz. unfold SparseSet.Size, live.
  rewrite <-(GoFacts.for_each_indexed f (SparseSet.dense other))
    by (unfold Go.len in *; lia).
  rewrite Z2Nat.id by lia. apply for_each_ext.
  intros s0 i [Hi Hi']%elem_of_seqZ. by rewrite At_in_range by lia.
Qed.

Lemma found_in_spec (other : SparseSet.t) (e : Z) :
  0 ≤ SparseSet.size other ≤ Go.len (SparseSet.dense other) →
  PoolAccess.found_in other e = Some (bool_decide (e ∈ live other)).
Proof.
  intros Hsz. unfold PoolAccess.found_in.
  rewrite (for_each_ext _
             (λ (found : bool) j,
                x ← SparseSet.At other j;
                (λ (found : bool) x,
                   if found then Some true else Some (bool_decide (x = e))) found x)).
  2: { intros found j [Hj Hj']%elem_of_seqZ. unfold SparseSet.Size in *.
       rewrite At_in_range by lia.
       destruct (GoFacts.index_is_Some (SparseSet.dense other) j) as [x ->]; [lia|].
       done. }
  rewrite (for_each_At _ other false Hsz).
  assert (∀ (l : list Z) (found : bool),
            Go.for_each (λ (found : bool) x,
                           if found then Some true else Some (bool_decide (x = e)))
                        l found
            = Some (found || bool_decide (e ∈ l))) as Hloop.
  { induction l as [|x l IH]; intros found; cbn [Go.for_each].
    - rewrite (bool_decide_eq_false_2 (e ∈ [])) by apply not_elem_of_nil.
      by rewrite orb_false_r.
    - destruct found; cbn [mbind option_bind]; rewrite IH; simpl; [done|]. f_equal.
      destruct (bool_decide_reflect (x = e)) as [->|Hne]; simpl.
      + symmetry. apply bool_decide_eq_true_2, list_elem_of_here.
      + apply bool_decide_ext. rewrite elem_of_cons. split; [tauto|]. intros [->|?]; done. }
  by rewrite Hloop.
Qed.

Section Respecting.
Context {T : Type}.
Implicit Types cp : ComponentPool.t T.

(** [v] is the value the pool holds for the member [e]. *)
Definition holds_value cp (e : Z) (v : T) : Prop :=
  ∃ k : nat, live (ComponentPool.entities cp) !! k = Some e ∧
             ComponentPool.components cp !! k = Some v.

Lemma respect_present_values cp (other : SparseSet.t) :
  pool_inv cp → 0 ≤ SparseSet.size other ≤ Go.len (SparseSet.dense other) →
  ∃ nc, PoolAccess.respect_present cp other = Some nc ∧
        Forall2 (holds_value cp)
                (filter (λ e, e ∈ live (ComponentPool.entities cp)) (live other)) nc.
Proof.
  intros Hpool Hsz. pose proof Hpool as [Hinv Hlen]. unfold PoolAccess.respect_present.
  rewrite (for_each_At
             (λ newComponents entity,
                present ← SparseSet.Contains (ComponentPool.entities cp) entity;
                if (present : bool) then
                  index ← SparseSet.Index (ComponentPool.entities cp) entity;
                  v ← Go.index (ComponentPool.components cp) index;
                  Some (newComponents ++ [v])
                else Some newComponents) other [] Hsz).
  assert (∀ (l nd : list Z) (acc : list T),
            Forall2 (holds_value cp) nd acc →
            ∃ nc, Go.for_each
                    (λ newComponents entity,
                       present ← SparseSet.Contains (ComponentPool.entities cp) entity;
                       if (present : bool) then
                         index ← SparseSet.Index (ComponentPool.entities cp) entity;
                         v ← Go.index (ComponentPool.components cp) index;
                         Some (newComponents ++ [v])
                       else Some newComponents) l acc = Some nc ∧
                  Forall2 (holds_value cp)
                    (nd ++ filter (λ e, e ∈ live (ComponentPool.entities cp)) l) nc)
    as Hloop.
  { induction l as [|x l IH]; intros nd acc Hacc; simpl.
    - exists acc. by rewrite app_nil_r.
    - rewrite (inv_Contains _ Hinv).
      destruct (decide (x ∈ live (ComponentPool.entities cp))) as [Hin|Hout].
      + rewrite (bool_decide_eq_true_2 (x ∈ live _)) by done. simpl.
        apply list_elem_of_lookup in Hin as Hk. destruct Hk as [k Hk].
        pose proof Hk as [Hk1 Hk2]%live_lookup.
        rewrite (Index_member _ x k) by done. simpl.
        destruct (lookup_lt_is_Some_2 (ComponentPool.components cp) k) as [v Hv];
          [unfold Go.len in *; lia|].
        rewrite GoFacts.index_nat, Hv. simpl.
        rewrite filter_cons_True by done.
        destruct (IH (nd ++ [x]) (acc ++ [v])) as (nc & Hrun & Hnc).
        { apply Forall2_app; [done|]. constructor; [|constructor]. by exists k. }
        exists nc. split; [done|]. by rewrite <-app_assoc in Hnc.
      + rewrite (bool_decide_eq_false_2 (x ∈ live _)) by done. simpl.
        rewrite filter_cons_False by done. by apply IH. }
  destruct (Hloop (live other) [] []) as (nc & Hrun & Hnc); [constructor|].
  by exists nc.
Qed.

Lemma respect_rest_values cp (other : SparseSet.t) (nd : list Z) (acc : list T) :
  pool_inv cp → 0 ≤ SparseSet.size other ≤ Go.len (SparseSet.dense other) →
  Forall2 (holds_value cp) nd acc →
  ∃ nc, PoolAccess.respect_rest cp other acc = Some nc ∧
        Forall2 (holds_value cp)
                (nd ++ filter (λ e, e ∉ live other) (live (ComponentPool.entities cp)))
                nc.
Proof.
  intros Hpool Hsz Hacc. pose proof Hpool as [Hinv Hlen].
  pose proof (inv_size _ Hinv) as Hsize.
  unfold PoolAccess.respect_rest, SparseSet.Data.
  rewrite GoFacts.slice_to_Some by done. simpl.
  fold (live (ComponentPool.entities cp)).
  assert (∀ (l : list Z) (k : nat) (nd : list Z) (acc : list T),
            (∀ i x, l !! i = Some x →
                    live (ComponentPool.entities cp) !! (k + i)%nat = Some x) →
            Forall2 (holds_value cp) nd acc →
            ∃ nc, Go.for_each
                    (λ newComponents '(i, entity),
                       found ← PoolAccess.found_in other entity;
                       if negb found then
                         v ← Go.index (ComponentPool.components cp) (Z.of_nat i);
                         Some (newComponents ++ [v])
                       else Some newComponents)
                    (imap (λ i entity, ((k + i)%nat, entity)) l) acc = Some nc ∧
                  Forall2 (holds_value cp)
                    (nd ++ filter (λ e, e ∉ live other) l) nc) as Hloop.
  { induction l as [|x l IH]; intros k nd0 acc0 Hl Hacc0.
    - exists acc0. by rewrite app_nil_r.
    - cbn [imap Go.for_each]. rewrite (found_in_spec other x Hsz).
      cbn [mbind option_bind].
      assert (imap ((λ i entity, ((k + i)%nat, entity)) ∘ S) l
              = imap (λ i entity, ((S k + i)%nat, entity)) l) as ->.
      { apply imap_ext. intros i y _. simpl. f_equal. lia. }
      assert (∀ i y, l !! i = Some y →
                     live (ComponentPool.entities cp) !! (S k + i)%nat = Some y) as Hl'.
      { intros i y Hy. specialize (Hl (S i) y Hy).
        by replace (S k + i)%nat with (k + S i)%nat by lia. }
      pose proof (Hl 0%nat x eq_refl) as Hx. rewrite Nat.add_0_r in Hx.
      destruct (decide (x ∈ live other)) as [Hin|Hout].
      + rewrite (bool_decide_eq_true_2 (x ∈ live other)) by done. simpl.
        rewrite filter_cons_False by (intros ?; done).
        exact (IH (S k) nd0 acc0 Hl' Hacc0).
      + rewrite (bool_decide_eq_false_2 (x ∈ live other)) by done. simpl.
        pose proof Hx as [Hk1 Hk2]%live_lookup.
        destruct (lookup_lt_is_Some_2 (ComponentPool.components cp) k) as [v Hv];
          [unfold Go.len in *; lia|].
        rewrite Nat.add_0_r, GoFacts.index_nat, Hv. simpl.
        rewrite filter_cons_True by done.
        destruct (IH (S k) (nd0 ++ [x]) (acc0 ++ [v]) Hl') as (nc & Hrun & Hnc).
        { apply Forall2_app; [done|]. constructor; [|constructor]. by exists k. }
        exists nc. split; [done|]. by rewrite <-app_assoc in Hnc. }
  apply (Hloop _ 0%nat); done.
Qed.

Lemma holds_value_Get cp (e : Z) (v : T) :
  pool_inv cp → holds_value cp e v → ComponentPool.Get cp e = Some (Some v).
Proof.
  intros Hpool (k & Hk & Hv). destruct (Get_at cp e k Hpool Hk) as [-> _].
  by rewrite Hv.
Qed.

(** X18: [ComponentPool.Respect] moves the values with their entities.
    On a pool that keeps its invariant, with another set that keeps its
    own, the entities take the order [SparseSet.Respect] gives them and
    [Get] answers for every entity what it answered before.  With an empty
    other set nothing happens. *)
Theorem Respect_keeps_values cp (other : SparseSet.t) :
  (pool_inv cp → inv other → SparseSet.Size other ≠ 0 →
   ∃ cp', PoolAccess.Respect cp other = Some cp' ∧ pool_inv cp' ∧
          live (ComponentPool.entities cp')
          = filter (λ e, e ∈ live (ComponentPool.entities cp)) (live other)
            ++ filter (λ e, e ∉ live other) (live (ComponentPool.entities cp)) ∧
          ∀ e, ComponentPool.Get cp' e = ComponentPool.Get cp e) ∧
  (SparseSet.Size other = 0 → PoolAccess.Respect cp other = Some cp).
Proof.
  split; [|by unfold PoolAccess.Respect; intros ->].
  intros Hpool Hother Hne. pose proof Hpool as [Hinv Hlen].
  pose proof (inv_size _ Hother) as Hosz. pose proof (inv_size _ Hinv) as Hsz.
  unfold PoolAccess.Respect. rewrite bool_decide_eq_false_2 by done.
  destruct (respect_present_values cp other Hpool Hosz) as (nc1 & -> & Hnc1). simpl.
  destruct (respect_rest_values cp other _ nc1 Hpool Hosz Hnc1) as (nc & -> & Hnc).
  simpl.
  destruct (SetProps.Respect_live _ other Hinv Hother Hne)
    as (es' & -> & Hinv' & Hsz' & Hlive').
  simpl. rewrite <-Hlive' in Hnc.
  pose proof (Forall2_length _ _ _ Hnc) as Hlen'.
  rewrite (live_length es' Hinv') in Hlen'.
  rewrite GoFacts.slice_to_Some by (unfold Go.len in *; lia). simpl.
  set (cp' := ComponentPool.mk es' _).
  assert (pool_inv cp') as Hpool'.
  { split; [done|]. simpl. unfold Go.len in *. rewrite length_app, length_drop. lia. }
  exists cp'. do 3 (split; [done|]). intros e.
  destruct (decide (e ∈ live es')) as [Hin|Hout].
  - apply list_elem_of_lookup in Hin as [k Hk].
    destruct (Forall2_lookup_l _ _ _ _ _ Hnc Hk) as (v & Hv & Hev).
    rewrite (holds_value_Get cp e v Hpool Hev).
    destruct (Get_at cp' e k Hpool' Hk) as [-> _]. simpl.
    by rewrite (lookup_app_l_Some _ _ _ _ Hv).
  - rewrite (Get_absent cp' e Hpool' Hout). symmetry. apply Get_absent; [done|].
    intros Hin. apply Hout. rewrite Hlive'.
    rewrite elem_of_app, !list_elem_of_filter.
    destruct (decide (e ∈ live other)); tauto.
Qed.

End Respecting.

Lemma Respect_keeps_values_witness :
  ∃ cp', PoolAccess.Respect tens SetProps.leader = Some cp' ∧
         ∀ e, ComponentPool.Get cp' e = ComponentPool.Get tens e.
Proof.
  destruct (proj1 (Respect_keeps_values tens SetProps.leader) tens_inv
                  SetProps.leader_inv) as (cp' & HR & _ & _ & Hget);
    [by vm_compute|].
  by exists cp'.
Defined.

Example Respect_tens :
  (cp' ← PoolAccess.Respect tens SetProps.leader;
   es ← SparseSet.Data (ComponentPool.entities cp');
   Some (es, ComponentPool.components cp'))
  = Some ([1; 2; 0], [10; 20; 0]).
Proof. reflexivity. Qed.

Section Clearing.
Context {T : Type}.
Implicit Types cp : ComponentPool.t T.

(** X19: a cleared pool is empty and can be filled again.  [Clear] leaves
    size 0, no member and no data, whatever the pool was; on a pool that
    keeps its invariant the next [Insert] makes its entity the only
    member, at position 0, with the value given. *)
Theorem Clear_then_Insert cp (e : Z) (c : T) :
  (ComponentPool.Size (ComponentPool.Clear cp) = 0 ∧
   ComponentPool.Empty (ComponentPool.Clear cp) = true ∧
   ComponentPool.Data (ComponentPool.Clear cp) = Some [] ∧
   ∀ x, ComponentPool.Contains (ComponentPool.Clear cp) x = Some false ∧
        ComponentPool.Get (ComponentPool.Clear cp) x = Some None) ∧
  (pool_inv cp → e ≠ Entity.NullEntity →
   ∃ cp', ComponentPool.Insert (ComponentPool.Clear cp) e c = Some cp' ∧
          pool_inv cp' ∧ ComponentPool.Size cp' = 1 ∧
          SparseSet.Data (ComponentPool.entities cp') = Some [e] ∧
          ComponentPool.Data cp' = Some [c] ∧
          ComponentPool.Get cp' e = Some (Some c)).
Proof.
  split.
  - do 3 (split; [done|]). intros x.
    unfold ComponentPool.Get, ComponentPool.Contains, ComponentPool.Clear. simpl.
    by rewrite SetProps.Contains_Clear.
  - intros Hpool Hn. pose proof (Clear_pool_inv cp Hpool) as Hpool0.
    assert (live (ComponentPool.entities (ComponentPool.Clear cp)) = []) as Hlive0
      by done.
    destruct (Insert_absent (ComponentPool.Clear cp) e c Hpool0)
      as (es & comps & -> & Hinv' & Hsz' & Hlive' & Hlen' & Hnew & _).
    { unfold no_clash. rewrite Hlive0. constructor. }
    { done. }
    { rewrite Hlive0. apply not_elem_of_nil. }
    simpl in *.
    pose proof (inv_size es Hinv') as Hsize.
    set (cp' := ComponentPool.mk es comps).
    assert (pool_inv cp') as Hpool' by done.
    exists cp'. do 3 (split; [done|]).
    split; [|split].
    + unfold SparseSet.Data. simpl. rewrite GoFacts.slice_to_Some by lia. by f_equal.
    + unfold ComponentPool.Data. simpl. unfold SparseSet.Size.
      rewrite GoFacts.slice_to_Some by lia. f_equal. rewrite Hsz'.
      change (Z.to_nat (0 + 1)) with 1%nat. change (Z.to_nat 0) with 0%nat in Hnew.
      by rewrite (take_S_r comps 0 c Hnew).
    + destruct (Get_at cp' e 0) as [-> _]; [done|simpl; by rewrite Hlive'|].
      simpl. change (Z.to_nat 0) with 0%nat in Hnew. by rewrite Hnew.
Qed.

End Clearing.

Lemma Clear_then_Insert_witness :
  ∃ cp', ComponentPool.Insert (ComponentPool.Clear PoolClaims.pool5) 3 99 = Some cp' ∧
         ComponentPool.Size cp' = 1 ∧
         ComponentPool.Data cp' = Some [99] ∧
         ComponentPool.Get cp' 3 = Some (Some 99).
Proof.
  destruct (proj2 (Clear_then_Insert PoolClaims.pool5 3 99) PoolClaims.pool5_inv)
    as (cp' & Hi & _ & Hs & _ & Hd & Hg); [by vm_compute|].
  by exists cp'.
Defined.

Section Removing.
Context {T : Type}.
Implicit Types cp : ComponentPool.t T.

Lemma Remove_keeps_others cp cp' (e : Z) (b : bool) :
  pool_inv cp → ComponentPool.Remove cp e = Some (b, cp') →
  pool_inv cp' ∧ ComponentPool.Contains cp' e = Some false ∧
  b = bool_decide (e ∈ live (ComponentPool.entities cp)) ∧
  ∀ x, x ≠ e → ComponentPool.Get cp' x = ComponentPool.Get cp x.
Proof.
  intros Hpool Hrm. pose proof Hpool as [Hinv Hlen].
  pose proof (inv_size _ Hinv) as Hsz.
  destruct (decide (e ∈ live (ComponentPool.entities cp))) as [Hin|Hout].
  - rewrite (bool_decide_eq_true_2 (e ∈ live _)) by done.
    destruct (Remove_member_pool cp e Hpool Hin)
      as (d & le & lv & Hd & He & Hle & Hlv & Hrm').
    simpl in Hrm'. rewrite Hrm' in Hrm. injection Hrm as <- <-.
    destruct (Remove_member_post cp e d le lv Hpool Hd He Hle) as [Hpool' Hgone].
    simpl in Hpool', Hgone. do 3 (split; [done|]).
    pose proof (SetProps.Remove_live _ e d le Hinv Hd He Hle) as Hlive. simpl in Hlive.
    set (cp' := ComponentPool.mk _ _) in *.
    intros x Hx.
    destruct (decide (x ∈ live (ComponentPool.entities cp))) as [Hxin|Hxout].
    + apply list_elem_of_lookup in Hxin as [k Hk].
      pose proof Hk as [Hk1 Hk2]%live_lookup.
      destruct (Get_at cp x k Hpool Hk) as [-> _].
      destruct (decide (k = Z.to_nat (SparseSet.size (ComponentPool.entities cp) - 1)))
        as [->|Hlast].
      * assert (x = le) as -> by congruence.
        assert (d ≠ Z.to_nat (SparseSet.size (ComponentPool.entities cp) - 1)) as Hdl
          by (intros ->; congruence).
        destruct (Get_at cp' le d Hpool') as [-> _].
        { apply live_lookup. simpl. split; [lia|].
          apply list_lookup_insert_eq. by eapply lookup_lt_Some. }
        simpl. f_equal. rewrite Hlv. apply list_lookup_insert_eq.
        unfold Go.len in *. lia.
      * assert (k ≠ d) as Hkd by (intros ->; congruence).
        destruct (Get_at cp' x k Hpool') as [-> _].
        { apply live_lookup. simpl. split; [lia|].
          by rewrite list_lookup_insert_ne. }
        simpl. f_equal. by rewrite list_lookup_insert_ne.
    + rewrite (Get_absent cp x Hpool Hxout). apply Get_absent; [done|].
      intros Hx'. apply Hlive in Hx' as [? _]. done.
  - rewrite (bool_decide_eq_false_2 (e ∈ live _)) by done.
    assert (ComponentPool.Contains cp e = Some false) as Hc.
    { unfold ComponentPool.Contains. rewrite (inv_Contains _ Hinv).
      by rewrite (bool_decide_eq_false_2 (e ∈ live _)). }
    rewrite (Remove_absent_pool cp e Hc) in Hrm. injection Hrm as <- <-. done.
Qed.

End Removing.

End PoolProps.

(** ** Registry: types, identifiers and pools *)

Module RegistryProps.

Import ComponentRegistry.

Section Registry.
Context {Val : Type}.
Implicit Types cr : ComponentRegistry.t Val.

(** What every registry built by [Register] satisfies as long as the
    identifier counter has not wrapped: a registered type has its pool and
    its name under its identifier, and every pool sits below the
    counter. *)
Record registry_wf cr : Prop := mk_wf {
  wf_next : 0 ≤ nextID cr;
  wf_storage : ∀ T id, typeToID cr !! T = Some id →
    ∃ ts, storages cr !! id = Some ts ∧ TypedStorage.elem ts = T;
  wf_name : ∀ T id, typeToID cr !! T = Some id → names cr !! id = Some T;
  wf_below : ∀ id, is_Some (storages cr !! id) → 0 ≤ id < nextID cr
}.

Lemma NewComponentRegistry_wf : registry_wf (@NewComponentRegistry Val).
Proof. split; simpl; try done. intros id [ts Hts]. by rewrite lookup_empty in Hts. Qed.

Lemma wf_inj cr (T T' : string) (id : Z) :
  registry_wf cr → typeToID cr !! T = Some id → typeToID cr !! T' = Some id → T = T'.
Proof.
  intros Hwf HT HT'.
  destruct (wf_storage cr Hwf T id HT) as (ts & Hts & <-).
  destruct (wf_storage cr Hwf T' id HT') as (ts' & Hts' & <-). congruence.
Qed.

Lemma GetStorage_registered cr (T : string) (id : Z) :
  registry_wf cr → typeToID cr !! T = Some id →
  ∃ ts, storages cr !! id = Some ts ∧ TypedStorage.elem ts = T ∧
        GetStorage T cr = Some (id, TypedStorage.pool ts).
Proof.
  intros Hwf HT. destruct (wf_storage cr Hwf T id HT) as (ts & Hts & Helem).
  exists ts. do 2 (split; [done|]).
  unfold GetStorage, GetComponentID. rewrite HT. simpl. rewrite Hts. simpl.
  by rewrite bool_decide_eq_true_2.
Qed.

Lemma GetStorage_unregistered cr (T : string) :
  typeToID cr !! T = None → GetStorage T cr = None.
Proof. intros HT. unfold GetStorage, GetComponentID. by rewrite HT. Qed.

Lemma Register_known cr (T : string) (id : Z) :
  typeToID cr !! T = Some id → Register T cr = (id, cr).
Proof. intros HT. unfold Register. by rewrite HT. Qed.

Lemma Register_fresh cr (T : string) :
  typeToID cr !! T = None → nextID cr < 2 ^ 32 - 1 → 0 ≤ nextID cr →
  Register T cr
  = (nextID cr,
     mk (nextID cr + 1) (<[T := nextID cr]> (typeToID cr))
        (<[nextID cr := T]> (idToType cr))
        (<[nextID cr := TypedStorage.NewTypedStorage T]> (storages cr))
        (<[nextID cr := T]> (names cr))).
Proof.
  intros HT Hroom Hpos. unfold Register. rewrite HT.
  by rewrite GoFacts.uint32_small by lia.
Qed.

Lemma Register_wf cr (T : string) :
  registry_wf cr → nextID cr < 2 ^ 32 - 1 → registry_wf (Register T cr).2.
Proof.
  intros Hwf Hroom. destruct (typeToID cr !! T) as [id|] eqn:HT.
  { by rewrite (Register_known cr T id HT). }
  rewrite (Register_fresh cr T HT Hroom (wf_next cr Hwf)). simpl.
  assert (storages cr !! nextID cr = None) as Hfree.
  { destruct (storages cr !! nextID cr) eqn:Hs; [|done].
    pose proof (wf_below cr Hwf (nextID cr) ltac:(by eexists)). lia. }
  split; simpl.
  - pose proof (wf_next cr Hwf). lia.
  - intros T' id [[<- <-]|[Hne HT']]%lookup_insert_Some.
    + exists (TypedStorage.NewTypedStorage T). by rewrite lookup_insert_eq.
    + destruct (wf_storage cr Hwf T' id HT') as (ts & Hts & Helem).
      exists ts. split; [|done]. rewrite lookup_insert_ne; [done|].
      intros <-. congruence.
  - intros T' id [[<- <-]|[Hne HT']]%lookup_insert_Some.
    + by rewrite lookup_insert_eq.
    + rewrite lookup_insert_ne; [by apply (wf_name cr Hwf)|].
      intros <-. destruct (wf_storage cr Hwf T' _ HT') as (ts & Hts & _). congruence.
  - intros id [ts [[<- _]|[_ Hts]]%lookup_insert_Some].
    + pose proof (wf_next cr Hwf). lia.
    + pose proof (wf_below cr Hwf id ltac:(by eexists)). lia.
Qed.

Lemma write_pool_wf cr (id : Z) (p : ComponentPool.t Val) :
  registry_wf cr → registry_wf (write_pool cr id p).
Proof.
  intros Hwf. split; simpl.
  - apply (wf_next cr Hwf).
  - intros T id' HT. destruct (wf_storage cr Hwf T id' HT) as (ts & Hts & Helem).
    destruct (decide (id = id')) as [->|Hne].
    + eexists. rewrite lookup_alter_eq, Hts. simpl. done.
    + exists ts. by rewrite lookup_alter_ne.
  - apply (wf_name cr Hwf).
  - intros id' [ts Hts]. apply (wf_below cr Hwf).
    apply lookup_alter_Some in Hts as [(_ & ts0 & Hts0 & _)|[_ Hts]]; by eexists.
Qed.

Lemma GetStorage_write_pool cr (T : string) (id : Z) (p : ComponentPool.t Val) :
  registry_wf cr → typeToID cr !! T = Some id →
  GetStorage T (write_pool cr id p) = Some (id, p) ∧
  ∀ T', T' ≠ T → GetStorage T' (write_pool cr id p) = GetStorage T' cr.
Proof.
  intros Hwf HT. destruct (wf_storage cr Hwf T id HT) as (ts & Hts & Helem). split.
  - unfold GetStorage, GetComponentID. simpl. rewrite HT. simpl.
    rewrite lookup_alter_eq, Hts. simpl. by rewrite bool_decide_eq_true_2.
  - intros T' Hne. unfold GetStorage, GetComponentID. simpl.
    destruct (typeToID cr !! T') as [id'|] eqn:HT'; simpl; [|done].
    rewrite lookup_alter_ne; [done|]. intros <-.
    apply Hne. by apply (wf_inj cr T' T id).
Qed.

(** What [Register] leaves in the maps. *)
Lemma Register_lookup cr (T : string) :
  registry_wf cr → nextID cr < 2 ^ 32 - 1 →
  registry_wf (Register T cr).2 ∧
  GetComponentID T (Register T cr).2 = Some (Register T cr).1 ∧
  (∃ p, GetStorage T (Register T cr).2 = Some ((Register T cr).1, p) ∧
        (GetComponentID T cr = None →
         p = ComponentPool.NewComponentPool ∧ (Register T cr).1 = nextID cr) ∧
        (∀ id, GetComponentID T cr = Some id →
               (Register T cr).1 = id ∧ GetStorage T cr = Some (id, p))) ∧
  (∀ T', T' ≠ T →
     GetComponentID T' (Register T cr).2 = GetComponentID T' cr ∧
     GetStorage T' (Register T cr).2 = GetStorage T' cr).
Proof.
  intros Hwf Hroom. split; [by apply Register_wf|].
  unfold GetComponentID.
  destruct (typeToID cr !! T) as [id|] eqn:HT.
  - rewrite (Register_known cr T id HT). simpl.
    destruct (GetStorage_registered cr T id Hwf HT) as (ts & Hts & Helem & Hget).
    split; [done|]. split; [|done].
    exists (TypedStorage.pool ts). split; [done|]. split; [done|].
    by intros ? [= <-].
  - rewrite (Register_fresh cr T HT Hroom (wf_next cr Hwf)). simpl.
    rewrite !lookup_insert_eq. simpl. split; [done|]. split.
    + exists ComponentPool.NewComponentPool. split; [|done].
      unfold GetStorage, GetComponentID. simpl. rewrite lookup_insert_eq. simpl.
      rewrite lookup_insert_eq. simpl. by rewrite bool_decide_eq_true_2.
    + intros T' Hne. rewrite lookup_insert_ne by done. split; [done|].
      unfold GetStorage, GetComponentID. simpl. rewrite lookup_insert_ne by done.
      destruct (typeToID cr !! T') as [id'|] eqn:HT'; simpl; [|done].
      rewrite lookup_insert_ne; [done|]. intros <-.
      destruct (wf_storage cr Hwf T' _ HT') as (ts & Hts & _).
      pose proof (wf_below cr Hwf (nextID cr) ltac:(by eexists)). lia.
Qed.

(** X20: a registered type is found again under the identifier [Register]
    returned.  With room left in the identifier counter, after
    [Register[T]] the type has that identifier, [GetStorage[T]] returns
    its pool under it and [GetComponentName] returns its name; a type seen
    for the first time gets the next identifier and an empty pool; the
    lookups of every other type answer as before. *)
Theorem Register_then_GetStorage cr (T : string) :
  registry_wf cr → nextID cr < 2 ^ 32 - 1 →
  registry_wf (Register T cr).2 ∧
  GetComponentID T (Register T cr).2 = Some (Register T cr).1 ∧
  GetComponentName (Register T cr).2 (Register T cr).1 = T ∧
  (∃ p, GetStorage T (Register T cr).2 = Some ((Register T cr).1, p) ∧
        (GetComponentID T cr = None →
         p = ComponentPool.NewComponentPool ∧ (Register T cr).1 = nextID cr) ∧
        (∀ id, GetComponentID T cr = Some id →
               (Register T cr).1 = id ∧ GetStorage T cr = Some (id, p))) ∧
  (∀ T', T' ≠ T →
     GetComponentID T' (Register T cr).2 = GetComponentID T' cr ∧
     GetStorage T' (Register T cr).2 = GetStorage T' cr).
Proof.
  intros Hwf Hroom.
  destruct (Register_lookup cr T Hwf Hroom) as (Hwf' & Hid & Hpool & Hframe).
  do 2 (split; [done|]). split; [|done].
  unfold GetComponentName, GetComponentID in *.
  by rewrite (wf_name _ Hwf' T _ Hid).
Qed.

End Registry.

Lemma Register_then_GetStorage_witness :
  ∃ p, GetStorage "P" (Register "P" (@NewComponentRegistry Z)).2
       = Some ((Register "P" (@NewComponentRegistry Z)).1, p) ∧
       p = ComponentPool.NewComponentPool.
Proof.
  destruct (Register_then_GetStorage (@NewComponentRegistry Z) "P"
              NewComponentRegistry_wf) as (_ & _ & _ & (p & Hp & Hnew & _) & _).
  - simpl. lia.
  - exists p. split; [done|]. by apply Hnew.
Defined.

End RegistryProps.

(** ** The facade: components of valid entities *)

Module WorldProps.

Import SparseSetFacts SparseSetInv PoolFacts RegistryFacts RegistryProps.

Section Facade.
Context {Val : Type}.
Implicit Types w : World.t Val.

Lemma Get_new_pool (e : Z) :
  ComponentPool.Get (@ComponentPool.NewComponentPool Val) e = Some None.
Proof.
  apply PoolProps.Get_absent; [apply NewComponentPool_inv|]. apply not_elem_of_nil.
Qed.

(** X21: a component added to a valid entity is the one read back, and
    nothing else changes.  In a world whose registry is well formed and
    whose pools hold handles of generation 0, [AddComponent[T](e, c)] on a
    valid such handle returns, after it [GetComponent[T](e)] is [c] and
    [HasComponent[T](e)] is true, and [GetComponent] answers as before for
    every other entity and for every other type. *)
Theorem AddComponent_then_GetComponent (T : string) w (e : Z) (c : Val) :
  registry_wf (World.componentRegistry w) →
  ComponentRegistry.nextID (World.componentRegistry w) < 2 ^ 32 - 1 →
  Facade.registry_good (World.componentRegistry w) →
  EntityManager.IsValid (World.entityManager w) e = Some true →
  Facade.issued e →
  ∃ w', World.AddComponent T w e c = Some w' ∧
        World.entityManager w' = World.entityManager w ∧
        registry_wf (World.componentRegistry w') ∧
        Facade.registry_good (World.componentRegistry w') ∧
        World.GetComponent T w' e = Some (Some c) ∧
        World.HasComponent T w' e = Some true ∧
        (∀ e', e' ≠ e → World.GetComponent T w' e' = World.GetComponent T w e') ∧
        (∀ T' e', T' ≠ T → World.GetComponent T' w' e' = World.GetComponent T' w e').
Proof.
  intros Hwf Hroom Hgood Hvalid Hiss.
  destruct (Facade.AddComponent_good T w e c Hgood Hiss) as (w' & Hadd & Hgood').
  exists w'. split; [done|]. revert Hadd. unfold World.AddComponent.
  rewrite Hvalid. simpl.
  destruct (Register_lookup _ T Hwf Hroom)
    as (Hwf1 & Hid & (p & Hget & Hnew & Hold) & Hframe).
  pose proof (Facade.Register_good T _ Hgood) as Hgood1.
  destruct (ComponentRegistry.Register T (World.componentRegistry w)) as [rid cr1].
  simpl in *. rewrite Hget.
  destruct (GetStorage_lookup T cr1 rid p Hget) as (ts & Hts & <-).
  destruct (Hgood1 rid ts Hts) as [Hp Hlive].
  assert (e ≠ Entity.NullEntity) as Hn
    by (unfold Facade.issued, Entity.NullEntity in *; lia).
  destruct (PoolProps.Insert_values (TypedStorage.pool ts) e c Hp
              (Facade.issued_no_clash _ e Hlive Hiss) Hn)
    as (p' & -> & Hp' & Hg & Hothers).
  pose proof (PoolProps.Contains_by_Get p' e Hp') as Hc. rewrite Hg in Hc.
  simpl. intros [= <-]. simpl.
  destruct (GetStorage_write_pool cr1 T rid p' Hwf1 Hid) as [Hsame Hother].
  split; [done|]. split; [by apply write_pool_wf|]. split; [done|].
  unfold World.GetComponent, World.HasComponent. simpl.
  rewrite Hvalid, Hsame. simpl. do 2 (split; [done|]). split.
  - intros e' Hne.
    destruct (EntityManager.IsValid (World.entityManager w) e') as [[]|]; simpl;
      [|done..].
    rewrite (Hothers e' Hne).
    destruct (ComponentRegistry.GetComponentID T (World.componentRegistry w))
      as [id|] eqn:Hreg.
    + destruct (Hold id eq_refl) as [_ ->]. done.
    + rewrite (GetStorage_unregistered _ T Hreg).
      destruct (Hnew eq_refl) as [-> _]. apply Get_new_pool.
  - intros T' e' Hne.
    destruct (EntityManager.IsValid (World.entityManager w) e') as [[]|]; simpl;
      [|done..].
    rewrite (Hother T' Hne). by rewrite (proj2 (Hframe T' Hne)).
Qed.

(** X22: [RemoveComponent] reports whether the entity had the component
    and removes that one only.  In a world whose registry is well formed
    and whose pools keep their invariant, on a valid entity it returns the
    answer [HasComponent] gave, afterwards the entity has no component of
    that type, and [GetComponent] answers as before for every other entity
    and for every other type. *)
Theorem RemoveComponent_removes_one (T : string) w (e : Z) :
  registry_wf (World.componentRegistry w) →
  registry_ok (World.componentRegistry w) →
  EntityManager.IsValid (World.entityManager w) e = Some true →
  ∃ (b : bool) w',
    World.RemoveComponent T w e = Some (b, w') ∧
    World.HasComponent T w e = Some b ∧
    World.entityManager w' = World.entityManager w ∧
    registry_wf (World.componentRegistry w') ∧
    World.HasComponent T w' e = Some false ∧
    World.GetComponent T w' e = Some None ∧
    (∀ e', e' ≠ e → World.GetComponent T w' e' = World.GetComponent T w e') ∧
    (∀ T' e', T' ≠ T → World.GetComponent T' w' e' = World.GetComponent T' w e').
Proof.
  intros Hwf Hok Hvalid.
  unfold World.RemoveComponent, World.HasComponent, World.GetComponent.
  rewrite Hvalid. simpl.
  destruct (ComponentRegistry.typeToID (World.componentRegistry w) !! T) as [id|] eqn:HT.
  2: { rewrite (GetStorage_unregistered _ T HT). exists false, w.
       rewrite Hvalid. simpl. by rewrite (GetStorage_unregistered _ T HT). }
  destruct (GetStorage_registered _ T id Hwf HT) as (ts & Hts & Helem & ->).
  pose proof (Hok id ts Hts) as Hp. simpl in Hp. pose proof Hp as [Hinv _].
  destruct (Remove_post (TypedStorage.pool ts) e Hp) as (b & p' & Hrm & _).
  destruct (PoolProps.Remove_keeps_others _ _ e b Hp Hrm) as (Hp' & Hgone & Hb & Hothers).
  rewrite Hrm. simpl. exists b. eexists. split; [done|]. simpl.
  destruct (GetStorage_write_pool _ T id p' Hwf HT) as [Hsame Hother].
  split.
  { unfold ComponentPool.Contains. by rewrite (inv_Contains _ Hinv), Hb. }
  split; [done|]. split; [by apply write_pool_wf|].
  rewrite Hvalid, Hsame. simpl. split; [done|]. split.
  { apply PoolProps.Get_absent; [done|]. intros Hin.
    apply (Contains_member p' e Hp') in Hin. congruence. }
  split.
  - intros e' Hne.
    destruct (EntityManager.IsValid (World.entityManager w) e') as [[]|]; simpl;
      [|done..].
    by apply Hothers.
  - intros T' e' Hne.
    destruct (EntityManager.IsValid (World.entityManager w) e') as [[]|]; simpl;
      [|done..].
    by rewrite (Hother T' Hne).
Qed.

End Facade.

Lemma demo_registry_wf : registry_wf Demo.registry.
Proof.
  split; simpl.
  - lia.
  - intros T id HT.
    repeat (apply lookup_insert_Some in HT as [[<- <-]|[_ HT]];
            [eexists; split; [reflexivity|done]|]).
    by rewrite lookup_empty in HT.
  - intros T id HT.
    repeat (apply lookup_insert_Some in HT as [[<- <-]|[_ HT]]; [reflexivity|]).
    by rewrite lookup_empty in HT.
  - intros id [ts Hts].
    repeat (apply lookup_insert_Some in Hts as [[<- _]|[_ Hts]]; [lia|]).
    by rewrite lookup_empty in Hts.
Defined.

Lemma demo_registry_good : Facade.registry_good Demo.registry.
Proof.
  unfold Facade.registry_good, Demo.registry. simpl.
  repeat (apply map_Forall_insert_2;
          [split; [first [exact Demo.poolP_inv|exact Demo.poolV_inv|exact Demo.poolN_inv]
                  |apply (bool_decide_unpack _); by vm_compute]|]).
  apply map_Forall_empty.
Defined.

Lemma AddComponent_then_GetComponent_witness :
  ∃ w', World.AddComponent "V" Demo.world 0 9 = Some w' ∧
        World.GetComponent "V" w' 0 = Some (Some 9) ∧
        World.GetComponent "V" w' 1 = World.GetComponent "V" Demo.world 1 ∧
        World.GetComponent "P" w' 0 = World.GetComponent "P" Demo.world 0.
Proof.
  destruct (AddComponent_then_GetComponent "V" Demo.world 0 9 demo_registry_wf)
    as (w' & Ha & _ & _ & _ & Hg & _ & He & HT).
  - simpl. lia.
  - exact demo_registry_good.
  - reflexivity.
  - unfold Facade.issued. lia.
  - exists w'. split; [done|]. split; [done|].
    split; [by apply He|by apply HT].
Defined.

Lemma RemoveComponent_removes_one_witness :
  ∃ (b : bool) w',
    World.RemoveComponent "V" Demo.world 1 = Some (b, w') ∧
    World.HasComponent "V" Demo.world 1 = Some b ∧
    World.HasComponent "V" w' 1 = Some false ∧
    World.GetComponent "V" w' 2 = World.GetComponent "V" Demo.world 2.
Proof.
  destruct (RemoveComponent_removes_one "V" Demo.world 1 demo_registry_wf
              Demo.registry_is_ok eq_refl)
    as (b & w' & Hr & Hh & _ & _ & Hh' & _ & He & _).
  exists b, w'. do 3 (split; [done|]). by apply He.
Defined.

Section Destroying.
Context {Val : Type}.
Implicit Types w : World.t Val.

Lemma RemoveAllComponents_GetStorage (cr cr' : ComponentRegistry.t Val) (e : Z)
    (T : string) :
  registry_ok cr → ComponentRegistry.RemoveAllComponents cr e = Some cr' →
  match ComponentRegistry.GetStorage T cr with
  | Some (id, p) =>
      ∃ p' (b : bool), ComponentRegistry.GetStorage T cr' = Some (id, p') ∧
                       ComponentPool.Remove p e = Some (b, p') ∧ pool_inv p
  | None => ComponentRegistry.GetStorage T cr' = None
  end.
Proof.
  intros Hok Hrm.
  destruct (RemoveAllComponents_post cr e (registry_ok_bounded _ Hok))
    as (cr0 & Hrm0 & _ & Htypes & Hdom & _).
  assert (cr0 = cr') as -> by congruence.
  unfold ComponentRegistry.GetStorage, ComponentRegistry.GetComponentID.
  rewrite Htypes.
  destruct (ComponentRegistry.typeToID cr !! T) as [id|]; simpl; [|done].
  destruct (ComponentRegistry.storages cr' !! id) as [ts'|] eqn:Hts'.
  - destruct (RemoveAllComponents_lookup cr cr' e id ts' Hrm Hts')
      as (ts & b & Hts & Hrem).
    rewrite Hts. simpl. unfold TypedStorage.Remove in Hrem.
    destruct (ComponentPool.Remove (TypedStorage.pool ts) e) as [[b' p']|] eqn:Hp;
      simpl in Hrem; [|done].
    injection Hrem as -> <-. simpl.
    destruct (bool_decide (TypedStorage.elem ts = T)); [|done].
    exists p', b. split; [done|]. split; [done|]. apply (Hok id ts Hts).
  - assert (ComponentRegistry.storages cr !! id = None) as ->; [|done].
    apply not_elem_of_dom. rewrite <-Hdom. by apply not_elem_of_dom.
Qed.

(** X28: destroying an entity leaves the entities of the other slots
    alone.  In a world whose pools keep their invariant,
    [DestroyEntity(e)] of a valid entity keeps the number of slots, and
    for every handle of another index [IsValid], [HasComponent] and
    [GetComponent] answer as before. *)
Theorem DestroyEntity_keeps_others w (e : Z) :
  registry_ok (World.componentRegistry w) →
  EntityManager.IsValid (World.entityManager w) e = Some true →
  ∃ w', World.DestroyEntity w e = Some (true, w') ∧
        EntityManager.Size (World.entityManager w')
        = EntityManager.Size (World.entityManager w) ∧
        registry_ok (World.componentRegistry w') ∧
        ∀ e', Entity.Index e' ≠ Entity.Index e →
          World.IsValidEntity w' e' = World.IsValidEntity w e' ∧
          ∀ T, World.GetComponent T w' e' = World.GetComponent T w e' ∧
               World.HasComponent T w' e' = World.HasComponent T w e'.
Proof.
  intros Hok Hvalid. unfold World.DestroyEntity. rewrite Hvalid. simpl.
  destruct (RemoveAllComponents_post _ e (registry_ok_bounded _ Hok))
    as (cr' & Hrm & _). rewrite Hrm. simpl.
  pose proof (RemoveAllComponents_ok _ _ e Hok Hrm) as Hok'.
  destruct (ManagerProps.Destroy_spec (World.entityManager w) e)
    as (b & em' & Hd & Hv & _ & Ht).
  assert (b = true) as -> by congruence.
  destruct (Ht eq_refl) as [Hlt ->]. rewrite Hd. simpl.
  eexists. split; [done|]. simpl.
  split; [unfold EntityManager.Size, Go.len; simpl; by rewrite length_insert|].
  split; [done|]. intros e' Hne.
  assert (EntityManager.IsValid
            (EntityManager.mk
               (<[Z.to_nat (Entity.Index e) :=
                    if bool_decide (0 ≤ EntityManager.freeHead (World.entityManager w))
                    then Go.uint32 (EntityManager.freeHead (World.entityManager w))
                    else Entity.Index e]>
                  (EntityManager.entities (World.entityManager w)))
               (Entity.Index e)) e'
          = EntityManager.IsValid (World.entityManager w) e') as Hsame.
  { unfold EntityManager.IsValid. simpl.
    destruct (negb (Entity.IsValid e')); [done|].
    assert (∀ (l : list Z) i x, Go.len (<[i := x]> l) = Go.len l) as Hlen
      by (intros; unfold Go.len; by rewrite length_insert).
    rewrite Hlen. destruct (bool_decide (Go.uint32 _ ≤ Entity.Index e')); [done|].
    pose proof (EntityFacts.Index_range e). pose proof (EntityFacts.Index_range e').
    unfold Go.index. rewrite !bool_decide_eq_true_2 by lia.
    rewrite list_lookup_insert_ne by lia. done. }
  unfold World.IsValidEntity, World.GetComponent, World.HasComponent. simpl.
  rewrite Hsame. split; [done|]. intros T.
  destruct (EntityManager.IsValid (World.entityManager w) e') as [[]|]; simpl;
    [|done..].
  pose proof (RemoveAllComponents_GetStorage _ cr' e T Hok Hrm) as HG.
  destruct (ComponentRegistry.GetStorage T (World.componentRegistry w))
    as [[id p]|]; [|by rewrite HG].
  destruct HG as (p' & b & -> & Hrem & Hp).
  destruct (PoolProps.Remove_keeps_others p p' e b Hp Hrem) as (Hp' & _ & _ & Hothers).
  assert (e' ≠ e) as Hne' by (by intros ->).
  rewrite (Hothers e' Hne'). split; [done|].
  by rewrite (PoolProps.Contains_by_Get p' e' Hp'), (PoolProps.Contains_by_Get p e' Hp),
    (Hothers e' Hne').
Qed.

End Destroying.

Lemma DestroyEntity_keeps_others_witness :
  ∃ w', World.DestroyEntity Demo.world 1 = Some (true, w') ∧
        World.IsValidEntity w' 2 = World.IsValidEntity Demo.world 2 ∧
        World.GetComponent "V" w' 2 = World.GetComponent "V" Demo.world 2.
Proof.
  destruct (DestroyEntity_keeps_others Demo.world 1 Demo.registry_is_ok eq_refl)
    as (w' & Hd & _ & _ & Hothers).
  destruct (Hothers 2) as [Hv HT]; [by vm_compute|].
  exists w'. split; [done|]. split; [done|]. apply HT.
Defined.

End WorldProps.

(** ** Queries: the candidates of an [include] query *)

Module QueryProps.

Import SparseSetFacts SparseSetInv PoolFacts RegistryFacts QueryFacts.

Section Query.
Context {Val : Type}.
Implicit Types (w : World.t Val) (cr : ComponentRegistry.t Val).

(** The scan keeps the first pool of least size among the registered
    ones. *)
Lemma smallest_min cr (ids : list Z) :
  registry_bounded cr →
  match Query.smallest cr ids with
  | (sz, Some st) =>
      sz = TypedStorage.Size st ∧
      (∃ id, id ∈ ids ∧ ComponentRegistry.storages cr !! id = Some st) ∧
      ∀ id' st', id' ∈ ids → ComponentRegistry.storages cr !! id' = Some st' →
                 sz ≤ TypedStorage.Size st'
  | (sz, None) => sz = Go.MaxInt ∧
                  ∀ id, id ∈ ids → ComponentRegistry.storages cr !! id = None
  end.
Proof.
  intros Hok. unfold Query.smallest.
  induction ids as [|id ids IH] using rev_ind; simpl.
  - split; [done|]. intros id Hid. by apply elem_of_nil in Hid.
  - rewrite foldl_snoc. destruct (foldl _ _ ids) as [sz st].
    unfold ComponentRegistry.GetStorageByID.
    destruct (ComponentRegistry.storages cr !! id) as [ts|] eqn:Hts.
    + assert (TypedStorage.Size ts < Go.MaxInt) as Hsmall.
      { destruct (Hok id ts Hts) as [(_ & Hs & _) _].
        unfold TypedStorage.Size, ComponentPool.Size, SparseSet.Size, Go.MaxInt. lia. }
      destruct (bool_decide_reflect (TypedStorage.Size ts < sz)) as [Hlt|Hge].
      * split; [done|]. split.
        { exists id. split; [|done]. apply elem_of_app. right. left. }
        intros id' st' [Hin| ->%list_elem_of_singleton]%elem_of_app Hst'.
        -- destruct st as [st|].
           ++ destruct IH as (_ & _ & Hmin). specialize (Hmin id' st' Hin Hst'). lia.
           ++ destruct IH as [_ Hnone]. rewrite (Hnone id' Hin) in Hst'. done.
        -- assert (st' = ts) as -> by congruence. lia.
      * destruct st as [st|].
        -- destruct IH as (Hsz & (id0 & Hin0 & Hst0) & Hmin). split; [done|]. split.
           { exists id0. split; [|done]. apply elem_of_app. by left. }
           intros id' st' [Hin| ->%list_elem_of_singleton]%elem_of_app Hst'.
           ++ by apply (Hmin id' st').
           ++ assert (st' = ts) as -> by congruence. lia.
        -- destruct IH as [-> _]. lia.
    + destruct st as [st|].
      * destruct IH as (Hsz & (id0 & Hin0 & Hst0) & Hmin). split; [done|]. split.
        { exists id0. split; [|done]. apply elem_of_app. by left. }
        intros id' st' [Hin| ->%list_elem_of_singleton]%elem_of_app Hst'.
        -- by apply (Hmin id' st').
        -- congruence.
      * destruct IH as [-> Hnone]. split; [done|].
        intros id' [Hin| ->%list_elem_of_singleton]%elem_of_app; [by apply Hnone|done].
Qed.

Lemma Build_include (range_order : gset Z → list Z) w (q : Query.t) :
  registry_bounded (World.componentRegistry w) → Query.include q ≠ [] →
  match (Query.smallest (World.componentRegistry w) (Query.include q)).2 with
  | Some st =>
      ∃ result, Query.Build range_order w q = Some result ∧
                sublist result (live (TypedStorage.Entities st)) ∧
                ∀ e, e ∈ result → matches_spec (World.componentRegistry w) q e
  | None => Query.Build range_order w q = Some []
  end.
Proof.
  intros Hok Hinc. unfold Query.Build.
  assert (Go.len (Query.include q) ≠ 0) as Hlen by (by rewrite len_nil).
  assert (0 < Go.len (Query.include q)) as Hpos by (unfold Go.len in *; lia).
  rewrite (bool_decide_eq_false_2 (Go.len (Query.include q) = 0)) by done.
  rewrite andb_false_l.
  rewrite (bool_decide_eq_true_2 (0 < Go.len (Query.include q))) by done.
  pose proof (smallest_min _ (Query.include q) Hok) as Hsm.
  destruct (Query.smallest _ (Query.include q)) as [sz [st|]]; simpl; [|done].
  destruct Hsm as (_ & (id & Hin & Hst) & _).
  rewrite (storage_Data _ id st Hok Hst). simpl.
  destruct (keep_matching_spec w q (live (TypedStorage.Entities st)) Hok)
    as (result & -> & Hsub & Hres).
  exists result. split; [done|]. split; [done|].
  intros e He. by apply Hres in He as [_ ?].
Qed.

Lemma empty_pool_no_member (ts : TypedStorage.t Val) (e : Z) :
  TypedStorage.Size ts = 0 → TypedStorage.Contains ts e ≠ Some true.
Proof.
  intros Hsz Hc. apply Contains_true in Hc as (_ & d & _ & Hd & _).
  unfold TypedStorage.Size, ComponentPool.Size, SparseSet.Size in Hsz. lia.
Qed.

Lemma Build_missing (range_order : gset Z → list Z) w (q : Query.t) (id : Z) :
  registry_bounded (World.componentRegistry w) → id ∈ Query.include q →
  ComponentRegistry.storages (World.componentRegistry w) !! id = None ∨
  (∃ ts, ComponentRegistry.storages (World.componentRegistry w) !! id = Some ts ∧
         TypedStorage.Size ts = 0) →
  Query.Build range_order w q = Some [].
Proof.
  intros Hok Hid Hgone.
  assert (Query.include q ≠ []) as Hinc by (intros Heq; rewrite Heq in Hid; inversion Hid).
  pose proof (Build_include range_order w q Hok Hinc) as HB.
  destruct ((Query.smallest _ (Query.include q)).2) as [st|]; [|done].
  destruct HB as (result & -> & _ & Hres). f_equal.
  destruct result as [|e result]; [done|]. exfalso.
  destruct (Hres e (list_elem_of_here _ _)) as (Hall & _).
  rewrite Forall_forall in Hall. destruct (Hall id Hid) as (ts & Hts & Hc).
  destruct Hgone as [Hnone|(ts' & Hts' & Hsz)]; [congruence|].
  assert (ts' = ts) as -> by congruence. by apply (empty_pool_no_member ts e).
Qed.

(** X23: a query that requires a component nobody has returns nothing.
    If one of the [include] identifiers is not registered, or its pool is
    empty, [Build] returns the empty result; in particular [With[T]] for a
    type that was never registered registers it and makes the query
    empty. *)
Theorem Build_empty_on_missing_component
    (range_order : gset Z → list Z) w (q : Query.t) :
  registry_bounded (World.componentRegistry w) →
  (∀ id, id ∈ Query.include q →
     ComponentRegistry.storages (World.componentRegistry w) !! id = None ∨
     (∃ ts, ComponentRegistry.storages (World.componentRegistry w) !! id = Some ts ∧
            TypedStorage.Size ts = 0) →
     Query.Build range_order w q = Some []) ∧
  (∀ T, ComponentRegistry.GetComponentID T (World.componentRegistry w) = None →
     is_Some (ComponentRegistry.GetComponentID
                T (World.componentRegistry (Query.With T (w, q)).1)) ∧
     Query.Build range_order (Query.With T (w, q)).1 (Query.With T (w, q)).2 = Some []).
Proof.
  intros Hok. split; [intros id; by apply Build_missing|].
  intros T HT. unfold Query.With, ComponentRegistry.GetComponentID in *.
  unfold ComponentRegistry.Register. rewrite HT. simpl.
  rewrite lookup_insert_eq. split; [by eexists|].
  apply (Build_missing _ _ _ (ComponentRegistry.nextID (World.componentRegistry w))).
  - simpl. apply map_Forall_insert_2; [|done].
    apply pool_inv_bounded, NewComponentPool_inv.
  - simpl. apply elem_of_app. right. left.
  - right. simpl. rewrite lookup_insert_eq. by eexists.
Qed.

(** X24: an [include] query visits its results in the dense order of the
    smallest required pool.  When some [include] identifier is
    registered, the result of [Build] is a sub-sequence of the live
    entities of a registered [include] pool that no other registered
    [include] pool is smaller than, so it is no longer than that pool. *)
Theorem Build_follows_smallest_pool
    (range_order : gset Z → list Z) w (q : Query.t) (id0 : Z) :
  registry_bounded (World.componentRegistry w) →
  id0 ∈ Query.include q →
  is_Some (ComponentRegistry.storages (World.componentRegistry w) !! id0) →
  ∃ result id st,
    Query.Build range_order w q = Some result ∧
    id ∈ Query.include q ∧
    ComponentRegistry.storages (World.componentRegistry w) !! id = Some st ∧
    (∀ id' st', id' ∈ Query.include q →
       ComponentRegistry.storages (World.componentRegistry w) !! id' = Some st' →
       TypedStorage.Size st ≤ TypedStorage.Size st') ∧
    sublist result (live (TypedStorage.Entities st)) ∧
    Go.len result ≤ TypedStorage.Size st.
Proof.
  intros Hok Hid0 [st0 Hst0].
  assert (Query.include q ≠ []) as Hinc
    by (intros Heq; rewrite Heq in Hid0; inversion Hid0).
  pose proof (Build_include range_order w q Hok Hinc) as HB.
  pose proof (smallest_min _ (Query.include q) Hok) as Hsm.
  destruct (Query.smallest _ (Query.include q)) as [sz [st|]]; simpl in *.
  - destruct Hsm as (-> & (id & Hin & Hst) & Hmin).
    destruct HB as (result & HB & Hsub & _).
    exists result, id, st. do 5 (split; [done|]).
    apply sublist_length in Hsub. destruct (Hok id st Hst) as [(Hsz & _) _].
    unfold live in Hsub. rewrite length_take in Hsub.
    unfold Go.len, TypedStorage.Size, ComponentPool.Size, SparseSet.Size,
      TypedStorage.Entities, ComponentPool.Entities in *. lia.
  - destruct Hsm as [_ Hnone]. rewrite (Hnone id0 Hid0) in Hst0. done.
Qed.

End Query.

Lemma Build_empty_on_missing_component_witness :
  Query.Build elements Demo.world (Query.mk [0; 7] [] [] []) = Some [].
Proof.
  apply (proj1 (Build_empty_on_missing_component elements Demo.world _
                  (registry_ok_bounded _ Demo.registry_is_ok)) 7).
  - apply elem_of_cons. right. left.
  - left. reflexivity.
Defined.

Lemma Build_follows_smallest_pool_witness :
  ∃ result id st,
    Query.Build elements Demo.world (Query.mk [0; 1] [] [] []) = Some result ∧
    ComponentRegistry.storages Demo.registry !! id = Some st ∧
    sublist result (live (TypedStorage.Entities st)) ∧
    Go.len result ≤ TypedStorage.Size st.
Proof.
  destruct (Build_follows_smallest_pool elements Demo.world (Query.mk [0; 1] [] [] []) 0
              (registry_ok_bounded _ Demo.registry_is_ok))
    as (result & id & st & HB & _ & Hst & _ & Hsub & Hlen).
  - left.
  - by eexists.
  - by exists result, id, st.
Defined.

Example Build_P_and_V : Query.Build elements Demo.world (Query.mk [0; 1] [] [] []) = Some [1; 2].
Proof. reflexivity. Qed.

End QueryProps.

(** ** Systems: which ones run *)

Module SystemProps.

Import SystemManager.

Section Systems.
Context {Sys : Type} {SysEq : EqDecision Sys} {SysCount : Countable Sys}.
Implicit Types (sm : SystemManager.t Sys) (s : Sys).

Lemma GetEnabledSystems_filter sm :
  GetEnabledSystems sm = filter (λ s, IsEnabled sm s = true) (systems sm).
Proof.
  unfold GetEnabledSystems.
  assert (∀ l acc,
            foldl (λ enabled system,
                     if IsEnabled sm system then enabled ++ [system] else enabled)
                  acc l
            = acc ++ filter (λ s, IsEnabled sm s = true) l) as Hloop.
  { induction l as [|x l IH]; intros acc; simpl; [by rewrite app_nil_r|].
    rewrite IH. destruct (IsEnabled sm x) eqn:Hx.
    - rewrite filter_cons_True by done. by rewrite <-app_assoc.
    - rewrite filter_cons_False; [done|]. by rewrite Hx. }
  by rewrite Hloop.
Qed.

Lemma RemoveSystem_split sm s (l1 l2 : list Sys) :
  systems sm = l1 ++ s :: l2 → s ∉ l1 →
  RemoveSystem sm s = mk (l1 ++ l2) (delete s (enabled sm)).
Proof.
  intros Hl Hnin. unfold RemoveSystem.
  assert (list_find (λ x, x = s) (systems sm) = Some (length l1, s)) as ->.
  { apply list_find_Some. rewrite Hl. split; [|split; [done|]].
    - by rewrite lookup_app_r, Nat.sub_diag.
    - intros j y Hy Hj ->. rewrite lookup_app_l in Hy by done.
      apply Hnin. by eapply list_elem_of_lookup_2. }
  rewrite Hl. f_equal. rewrite take_app_length, drop_app_ge by lia.
  by replace (S (length l1) - length l1)%nat with 1%nat by lia.
Qed.

(** X25: [RemoveSystem] takes out the first occurrence of the system and
    forgets its flag.  A system that is not in the list leaves the manager
    as it was; otherwise the first occurrence goes, the system is no
    longer enabled, and every other system keeps its flag.  So a system
    that was added twice is still listed after one removal, but [Update]
    no longer runs it. *)
Theorem RemoveSystem_first_occurrence sm s :
  (s ∉ GetSystems sm → RemoveSystem sm s = sm) ∧
  (∀ l1 l2, GetSystems sm = l1 ++ s :: l2 → s ∉ l1 →
     GetSystems (RemoveSystem sm s) = l1 ++ l2 ∧
     IsEnabled (RemoveSystem sm s) s = false ∧
     (∀ s', s' ≠ s → IsEnabled (RemoveSystem sm s) s' = IsEnabled sm s') ∧
     (s ∈ l2 → s ∈ GetSystems (RemoveSystem sm s) ∧
               s ∉ GetEnabledSystems (RemoveSystem sm s))).
Proof.
  unfold GetSystems. split.
  - intros Hnin. unfold RemoveSystem.
    destruct (list_find _ _) as [[i x]|] eqn:Hfind; [|done].
    apply list_find_Some in Hfind as (Hi & -> & _).
    exfalso. apply Hnin. by eapply list_elem_of_lookup_2.
  - intros l1 l2 Hl Hnin. rewrite (RemoveSystem_split sm s l1 l2 Hl Hnin).
    assert (IsEnabled (mk (l1 ++ l2) (delete s (enabled sm))) s = false) as Hoff.
    { unfold IsEnabled. simpl. by rewrite lookup_delete_eq. }
    split; [done|]. split; [done|]. split.
    + intros s' Hne. unfold IsEnabled. simpl. by rewrite lookup_delete_ne.
    + intros Hin. split; [simpl; apply elem_of_app; by right|].
      rewrite GetEnabledSystems_filter. intros [Hon _]%list_elem_of_filter. congruence.
Qed.

Lemma Update_filter {W : Type} sm (run : Sys → W → option W) (l : list Sys) (w : W) :
  Go.for_each (λ world system,
                 if IsEnabled sm system then run system world else Some world) l w
  = Go.for_each (λ world system, run system world)
                (filter (λ s, IsEnabled sm s = true) l) w.
Proof.
  revert w. induction l as [|x l IH]; intros w; [done|]. simpl.
  destruct (IsEnabled sm x) eqn:Hx.
  - rewrite filter_cons_True by done. simpl.
    destruct (run x w); [apply IH|done].
  - rewrite filter_cons_False by (by rewrite Hx). simpl. apply IH.
Qed.

(** X26: [Update] runs the enabled systems, each once per occurrence, in
    the order they were added: exactly the list [GetEnabledSystems]
    returns.  A system is enabled when it is added; [DisableSystem] keeps
    it listed and takes it out of the run, [EnableSystem] puts it back;
    enabling a system that was never added does not make it run. *)
Theorem Update_runs_enabled_in_order sm :
  (∀ (W : Type) (run : Sys → W → option W) (w : W),
     Update sm run w
     = Go.for_each (λ world system, run system world) (GetEnabledSystems sm) w) ∧
  GetEnabledSystems sm = filter (λ s, IsEnabled sm s = true) (GetSystems sm) ∧
  (∀ s, IsEnabled (AddSystem sm s) s = true ∧
        GetSystems (AddSystem sm s) = GetSystems sm ++ [s]) ∧
  (∀ s, IsEnabled (DisableSystem sm s) s = false ∧
        GetSystems (DisableSystem sm s) = GetSystems sm ∧
        (s ∉ GetEnabledSystems (DisableSystem sm s)) ∧
        IsEnabled (EnableSystem (DisableSystem sm s) s) s = true) ∧
  (∀ s, s ∉ GetSystems sm → s ∉ GetEnabledSystems (EnableSystem sm s)) ∧
  (∀ s, IsEnabled (@NewSystemManager Sys _ _) s = false ∧
        IsEnabled (Clear sm) s = false).
Proof.
  split; [|split; [|split; [|split; [|split]]]].
  - intros W run w. unfold Update. by rewrite GetEnabledSystems_filter, Update_filter.
  - apply GetEnabledSystems_filter.
  - intros s. unfold IsEnabled, AddSystem. simpl. by rewrite lookup_insert_eq.
  - intros s. unfold IsEnabled, DisableSystem, EnableSystem. simpl.
    rewrite !lookup_insert_eq. do 2 (split; [done|]). split; [|done].
    rewrite GetEnabledSystems_filter. intros [Hon _]%list_elem_of_filter.
    unfold IsEnabled in Hon. simpl in Hon. by rewrite lookup_insert_eq in Hon.
  - intros s Hnin. rewrite GetEnabledSystems_filter.
    by intros [_ Hin]%list_elem_of_filter.
  - intros s. unfold IsEnabled. simpl. by rewrite lookup_empty.
Qed.

End Systems.

Lemma RemoveSystem_first_occurrence_witness :
  GetSystems (RemoveSystem (AddSystem (AddSystem (NewSystemManager) 7) 7) 7) = [] ++ [7] ∧
  IsEnabled (RemoveSystem (AddSystem (AddSystem (NewSystemManager) 7) 7) 7) 7 = false ∧
  7 ∉ GetEnabledSystems (RemoveSystem (AddSystem (AddSystem (NewSystemManager) 7) 7) 7).
Proof.
  destruct (proj2 (RemoveSystem_first_occurrence
                     (AddSystem (AddSystem (NewSystemManager) 7) 7) 7) [] [7])
    as (Hl & Hoff & _ & Hrun).
  - reflexivity.
  - apply not_elem_of_nil.
  - split; [done|]. split; [done|]. apply Hrun. left.
Defined.

Lemma Update_runs_enabled_in_order_witness :
  IsEnabled (EnableSystem (@NewSystemManager Z _ _) 7) 7 = true ∧
  7 ∉ GetEnabledSystems (EnableSystem (@NewSystemManager Z _ _) 7).
Proof.
  destruct (Update_runs_enabled_in_order (@NewSystemManager Z _ _))
    as (_ & _ & _ & _ & Hne & _).
  split; [reflexivity|]. apply Hne. apply not_elem_of_nil.
Defined.

End SystemProps.

(** ** Iterators: every member of the pool, once *)

Module IteratorProps.

Import SparseSetFacts SparseSetInv PoolFacts RegistryFacts RegistryProps QueryFacts.

Section Iterators.
Context {Val : Type}.
Implicit Types (w : World.t Val) (cp : ComponentPool.t Val).

Lemma GetPtr_member cp (e : Z) (k : nat) :
  pool_inv cp → live (ComponentPool.entities cp) !! k = Some e →
  PoolAccess.GetPtr cp e = Some (Some (Z.of_nat k)).
Proof.
  intros [Hinv Hlen] Hlk. pose proof Hlk as [Hk Hd]%live_lookup.
  unfold PoolAccess.GetPtr. rewrite (inv_Contains _ Hinv).
  rewrite (bool_decide_eq_true_2 (e ∈ live _)) by (by eapply list_elem_of_lookup_2).
  simpl. rewrite (Index_member _ e k) by done. simpl.
  destruct (GoFacts.index_is_Some (ComponentPool.components cp) (Z.of_nat k))
    as [v ->]; [lia|done].
Qed.

Lemma visit_step {St : Type} (fn : St → Z → Val → St * Val) (es : SparseSet.t)
    (comps : list Val) (s : St) (e : Z) (k : nat) (v : Val) :
  inv es → SparseSet.size es ≤ Go.len comps →
  live es !! k = Some e → comps !! k = Some v →
  Iterator1.visit fn (s, Some (ComponentPool.mk es comps)) e
  = Some ((fn s e v).1,
          Some (ComponentPool.mk es (<[k := (fn s e v).2]> comps))).
Proof.
  intros Hinv Hlen He Hv. unfold Iterator1.visit. simpl.
  rewrite (GetPtr_member (ComponentPool.mk es comps) e k) by done. simpl.
  rewrite GoFacts.index_nat, Hv. simpl. destruct (fn s e v) as [s' v']. simpl.
  apply lookup_lt_Some in Hv.
  rewrite GoFacts.store_Some by (unfold Go.len; lia). simpl.
  by rewrite Nat2Z.id.
Qed.

Lemma iter_loop {St : Type} (fn : St → Z → Val → St * Val) (es : SparseSet.t)
    (l : list Z) :
  inv es →
  ∀ (k : nat) (s : St) (vs rest : list Val),
    length vs = k → (length l ≤ length rest)%nat →
    SparseSet.size es ≤ Go.len (vs ++ rest) →
    (∀ i x, l !! i = Some x → live es !! (k + i)%nat = Some x) →
    Go.for_each (Iterator1.visit fn) l (s, Some (ComponentPool.mk es (vs ++ rest)))
    = Some ((foldl (PoolProps.visit fn) (s, vs) (zip l rest)).1,
            Some (ComponentPool.mk es
                    ((foldl (PoolProps.visit fn) (s, vs) (zip l rest)).2
                     ++ drop (length l) rest))).
Proof.
  intros Hinv. induction l as [|e l IH]; intros k s vs rest Hk Hlen Hsz Hl; [done|].
  destruct rest as [|v rest]; [simpl in Hlen; lia|]. simpl in Hlen.
  cbn [Go.for_each zip zip_with foldl length drop].
  pose proof (Hl 0%nat e eq_refl) as He. rewrite Nat.add_0_r in He.
  rewrite (visit_step fn es (vs ++ v :: rest) s e k v Hinv Hsz He)
    by (by rewrite lookup_app_r, Hk, Nat.sub_diag by lia).
  cbn [mbind option_bind].
  unfold PoolProps.visit at 2 4. simpl. destruct (fn s e v) as [s' v'] eqn:Hfn.
  simpl.
  replace (<[k := v']> (vs ++ v :: rest)) with ((vs ++ [v']) ++ rest).
  2: { rewrite <-Hk, insert_app_r_alt, Nat.sub_diag by lia. simpl.
       by rewrite <-app_assoc. }
  apply (IH (S k)).
  - rewrite length_app. simpl. lia.
  - lia.
  - unfold Go.len in *. rewrite !length_app in *. simpl in *. lia.
  - intros i x Hx. specialize (Hl (S i) x Hx).
    by replace (S k + i)%nat with (k + S i)%nat by lia.
Qed.

(** Over the live entities of its pool the iterator does what
    [ComponentPool.ForEach] does. *)
Lemma iter_as_pool_ForEach {St : Type} (fn : St → Z → Val → St * Val) cp (s : St) :
  pool_inv cp →
  Go.for_each (Iterator1.visit fn) (live (ComponentPool.entities cp)) (s, Some cp)
  = r ← PoolAccess.ForEach cp fn s; Some (r.1, Some r.2).
Proof.
  intros Hpool. pose proof Hpool as [Hinv Hlen].
  rewrite (PoolProps.ForEach_run cp fn s Hpool). simpl.
  destruct cp as [es comps]. simpl in *.
  pose proof (iter_loop fn es (live es) Hinv 0%nat s [] comps eq_refl) as Hloop.
  simpl in Hloop. rewrite Hloop; try done.
  - by rewrite live_length.
  - rewrite live_length by done. unfold Go.len in *. lia.
Qed.

Lemma keep_all w (q : Query.t) (l : list Z) :
  (∀ e, e ∈ l → Query.matchesEntity w q e = Some true) →
  Query.keep_matching w q l = Some l.
Proof.
  induction l as [|e l IH]; intros Hall; [done|]. simpl.
  rewrite (Hall e) by left. simpl. rewrite IH; [done|].
  intros x Hx. apply Hall. by right.
Qed.

Lemma Build_single (range_order : gset Z → list Z) w (id : Z)
    (ts : TypedStorage.t Val) :
  registry_ok (World.componentRegistry w) →
  ComponentRegistry.storages (World.componentRegistry w) !! id = Some ts →
  Query.Build range_order w (Query.mk [id] [] [] [])
  = Some (live (TypedStorage.Entities ts)).
Proof.
  intros Hok Hts. pose proof (Hok id ts Hts) as Hp. simpl in Hp.
  pose proof Hp as [Hinv Hlen]. pose proof (size_small _ Hinv) as Hsmall.
  unfold Query.Build, Query.smallest. simpl.
  unfold ComponentRegistry.GetStorageByID. rewrite Hts.
  rewrite bool_decide_eq_true_2
    by (unfold TypedStorage.Size, ComponentPool.Size, SparseSet.Size, Go.MaxInt; lia).
  simpl. rewrite (storage_Data _ id ts (registry_ok_bounded _ Hok) Hts). simpl.
  apply keep_all. intros e He.
  unfold Query.matchesEntity. simpl.
  unfold ComponentRegistry.GetStorageByID. rewrite Hts.
  unfold TypedStorage.Contains.
  by rewrite (proj2 (Contains_member _ e Hp) He).
Qed.

Lemma GetStorage_inv (T : string) (cr : ComponentRegistry.t Val) (id : Z)
    (p : ComponentPool.t Val) :
  ComponentRegistry.GetStorage T cr = Some (id, p) →
  ComponentRegistry.typeToID cr !! T = Some id ∧
  ∃ ts, ComponentRegistry.storages cr !! id = Some ts ∧ TypedStorage.pool ts = p.
Proof.
  unfold ComponentRegistry.GetStorage, ComponentRegistry.GetComponentID.
  destruct (ComponentRegistry.typeToID cr !! T) as [id'|]; simpl; [|done].
  destruct (ComponentRegistry.storages cr !! id') as [ts|] eqn:Hts; simpl; [|done].
  destruct (bool_decide _); [|done]. intros [= <- <-]. eauto.
Qed.

(** X27: [Iter1[T].ForEach] visits every member of [T]'s pool once, in
    dense order.  In a world whose registry is well formed and whose
    pools keep their invariant: for a registered type the iterator holds
    the live entities of the pool and leaves the world as it is, and a
    callback that writes [f e v] through the pointer leaves every member
    [e] with [f e v] for its old value [v], the entities and every other
    pool untouched; for a type that was never registered the iterator is
    empty and [ForEach] does nothing, although the pool pointer it holds is
    [nil]. *)
Theorem Iter1_visits_pool (range_order : gset Z → list Z) (T : string) w :
  registry_wf (World.componentRegistry w) →
  registry_ok (World.componentRegistry w) →
  (∀ id p, ComponentRegistry.GetStorage T (World.componentRegistry w) = Some (id, p) →
     Iterator1.NewIterator1 range_order T w
     = Some (w, Iterator1.mk (live (ComponentPool.entities p)) (Some id)) ∧
     ∀ f : Z → Val → Val,
       ∃ w' p',
         Iterator1.ForEach (Iterator1.mk (live (ComponentPool.entities p)) (Some id))
                           (λ (s : unit) e v, (s, f e v)) tt w = Some (tt, w') ∧
         World.entityManager w' = World.entityManager w ∧
         ComponentRegistry.GetStorage T (World.componentRegistry w') = Some (id, p') ∧
         ComponentPool.entities p' = ComponentPool.entities p ∧
         (∀ e v, ComponentPool.Get p e = Some (Some v) →
                 ComponentPool.Get p' e = Some (Some (f e v))) ∧
         (∀ T', T' ≠ T →
            ComponentRegistry.GetStorage T' (World.componentRegistry w')
            = ComponentRegistry.GetStorage T' (World.componentRegistry w))) ∧
  (ComponentRegistry.GetComponentID T (World.componentRegistry w) = None →
   ∃ w' it,
     Iterator1.NewIterator1 range_order T w = Some (w', it) ∧
     Iterator1.result it = [] ∧ Iterator1.component1Pool it = None ∧
     ∀ (St : Type) (fn : St → Z → Val → St * Val) (s : St),
       Iterator1.ForEach it fn s w' = Some (s, w')).
Proof.
  intros Hwf Hok. split.
  - intros id p Hget. destruct (GetStorage_inv T _ id p Hget) as (HT & ts & Hts & <-).
    pose proof (Hok id ts Hts) as Hp. simpl in Hp. split.
    + unfold Iterator1.NewIterator1, Query.With. rewrite Hget. simpl.
      rewrite (Register_known _ T id HT). simpl.
      assert (World.mk (World.entityManager w) (World.componentRegistry w) = w) as ->
        by (by destruct w).
      by rewrite (Build_single range_order w id ts Hok Hts).
    + intros f. unfold Iterator1.ForEach. simpl. rewrite Hts. simpl.
      rewrite (iter_as_pool_ForEach _ _ tt Hp).
      destruct (PoolProps.ForEach_update (TypedStorage.pool ts) f Hp)
        as (p' & -> & Hp' & Hes & Hvals).
      simpl. eexists _, p'. split; [done|]. simpl. split; [done|].
      destruct (GetStorage_write_pool _ T id p' Hwf HT) as [Hsame Hother].
      done.
  - intros HT. unfold ComponentRegistry.GetComponentID in HT.
    unfold Iterator1.NewIterator1.
    rewrite (GetStorage_unregistered _ T HT). simpl.
    pose proof (QueryProps.Build_missing range_order
                  (Query.With T (w, Query.NewQuery)).1
                  (Query.With T (w, Query.NewQuery)).2
                  (ComponentRegistry.nextID (World.componentRegistry w))) as HB.
    unfold Query.With in *. unfold ComponentRegistry.Register in *.
    rewrite HT in *. simpl in *. rewrite HB.
    + simpl. do 2 eexists. split; [done|]. simpl. done.
    + apply map_Forall_insert_2; [|by apply registry_ok_bounded].
      apply pool_inv_bounded, NewComponentPool_inv.
    + left.
    + right. rewrite lookup_insert_eq. by eexists.
Qed.

End Iterators.

Lemma Iter1_visits_pool_witness :
  ∃ w' p',
    Iterator1.ForEach (Iterator1.mk (live (ComponentPool.entities Demo.poolV)) (Some 1))
                      (λ (s : unit) e v, (s, v + e)) tt Demo.world = Some (tt, w') ∧
    ComponentRegistry.GetStorage "V" (World.componentRegistry w') = Some (1, p') ∧
    (∀ e v, ComponentPool.Get Demo.poolV e = Some (Some v) →
            ComponentPool.Get p' e = Some (Some (v + e))).
Proof.
  destruct (proj1 (Iter1_visits_pool elements "V" Demo.world
                     WorldProps.demo_registry_wf Demo.registry_is_ok) 1 Demo.poolV)
    as [_ Hrun]; [reflexivity|].
  destruct (Hrun (λ e v, v + e)) as (w' & p' & HF & _ & HG & _ & Hv & _).
  by exists w', p'.
Defined.

Example Iter1_V :
  ('(w, it) ← Iterator1.NewIterator1 elements "V" Demo.world;
   '(_, w') ← Iterator1.ForEach it (λ (s : unit) e v, (s, v + 100)) tt w;
   a ← World.GetComponent "V" w' 1;
   b ← World.GetComponent "V" w' 2;
   c ← World.GetComponent "P" w' 1;
   Some (Iterator1.result it, a, b, c))
  = Some ([1; 2], Some 104, Some 105, Some 2).
Proof. reflexivity. Qed.

End IteratorProps.
